(** * FlexiSN: the chameleon-hash Merkle tree and its metadata codec

    A shallow embedding of [chamMerkleTree/chamMerkleTree.go],
    [websocket/utils.go] and the serialisation step of [cmd/send.go],
    with the properties of the specification stated against it, and
    further properties of the same code.

    Conventions of the embedding.
    - A Go [[]byte] is a [list byte]; a nil and an empty slice are
      identified, and a slice's capacity is taken equal to its length.
    - A [*big.Int] holding a curve coordinate or a scalar is an [N];
      [Bytes] and [SetBytes] are the big-endian codecs of [math/big].
    - A [*MerkleNode] is a value of [MerkleNode]: [Nil] is the nil pointer
      and [Ptr] carries the address of the allocation, so that pointer
      comparison is comparison of addresses.
    - A Go call ends in one of four ways, see [outcome]: it returns its
      values with a nil error, returns a non-nil error, panics at run time,
      or ends the process through [log.Fatalf].
    - Output written with [fmt.Printf] is not modelled. *)

From Stdlib Require Import String Ascii Strings.Byte.
From Stdlib Require Import NArith ZArith Bool Lia List Permutation.
Import ListNotations.

(* ================================================================== *)
(** * Bytes *)

Definition bytes := list byte.

Definition bytes_eq_dec : forall a b : bytes, {a = b} + {a <> b} :=
  list_eq_dec Byte.byte_eq_dec.

(** [bytes.Equal] *)
Definition bytes_Equal (a b : bytes) : bool :=
  if bytes_eq_dec a b then true else false.

(** The byte with value [n mod 256]. *)
Definition byte_of_N (n : N) : byte :=
  match Byte.of_N (n mod 256) with
  | Some b => b
  | None => x00
  end.

Definition str (s : string) : bytes := list_byte_of_string s.

(* ================================================================== *)
(** * SHA-256 ([crypto/sha256], FIPS 180-4) *)

Module SHA256.
Local Open Scope N_scope.

Definition w32 : N := 4294967296.
Definition add32 (a b : N) : N := (a + b) mod w32.
Definition rotr (n x : N) : N :=
  N.lor (N.shiftr x n) ((N.shiftl x (32 - n)) mod w32).
Definition not32 (x : N) : N := N.lxor x 4294967295.

Definition Ch (x y z : N) : N := N.lxor (N.land x y) (N.land (not32 x) z).
Definition Maj (x y z : N) : N :=
  N.lxor (N.lxor (N.land x y) (N.land x z)) (N.land y z).
Definition Sigma0 (x : N) : N := N.lxor (N.lxor (rotr 2 x) (rotr 13 x)) (rotr 22 x).
Definition Sigma1 (x : N) : N := N.lxor (N.lxor (rotr 6 x) (rotr 11 x)) (rotr 25 x).
Definition sigma0 (x : N) : N := N.lxor (N.lxor (rotr 7 x) (rotr 18 x)) (N.shiftr x 3).
Definition sigma1 (x : N) : N := N.lxor (N.lxor (rotr 17 x) (rotr 19 x)) (N.shiftr x 10).

(** The constants are the first 32 bits of the fractional parts of the
    cube roots of the first sixty-four primes; the initial chaining value
    takes the square roots of the first eight. *)
Definition is_prime (n : nat) : bool :=
  forallb (fun d => negb (Nat.eqb (Nat.modulo n d) 0)) (seq 2 (n - 2)).

Definition primes : list N := map N.of_nat (filter is_prime (seq 2 310)).

(** The largest [x] below [2 ^ bits] with [x ^ 3 <= n]. *)
Fixpoint cube_root (bits : nat) (n x : N) : N :=
  match bits with
  | O => x
  | S bits' =>
      let y := x + 2 ^ N.of_nat bits' in
      cube_root bits' n (if y * y * y <=? n then y else x)
  end.

Definition K : list N :=
  Eval vm_compute in
    map (fun q => cube_root 36 (q * 2 ^ 96) 0 mod w32) primes.

(** The eight working variables, also the chaining value. *)
Record state := mkState
  { sa : N; sb : N; sc : N; sd : N; se : N; sf : N; sg : N; sh : N }.

Definition fraction_of_sqrt (q : N) : N := N.sqrt (q * 2 ^ 64) mod w32.

Definition H0 : state :=
  Eval vm_compute in
    mkState (fraction_of_sqrt 2) (fraction_of_sqrt 3) (fraction_of_sqrt 5)
            (fraction_of_sqrt 7) (fraction_of_sqrt 11) (fraction_of_sqrt 13)
            (fraction_of_sqrt 17) (fraction_of_sqrt 19).

(** Big-endian value of a run of bytes. *)
Definition be_value (bs : bytes) : N :=
  fold_left (fun acc b => acc * 256 + Byte.to_N b) bs 0.

(** The [k] low bytes of [n], most significant first. *)
Fixpoint be_bytes (k : nat) (n : N) : bytes :=
  match k with
  | O => []
  | S k' => be_bytes k' (n / 256) ++ [byte_of_N n]
  end.

(** Padding: a one bit, zeros up to 56 mod 64, the bit length on 8 bytes. *)
Definition pad (msg : bytes) : bytes :=
  let len := length msg in
  let zeros := Nat.modulo (64 - Nat.modulo (len + 9) 64) 64 in
  msg ++ [x80] ++ repeat x00 zeros ++ be_bytes 8 (8 * N.of_nat len).

(** The sixteen message words of a 64-byte block. *)
Fixpoint words (k : nat) (block : bytes) : list N :=
  match k with
  | O => []
  | S k' => be_value (firstn 4 block) :: words k' (skipn 4 block)
  end.

(** The message schedule, kept most recent word first. *)
Fixpoint schedule (k : nat) (rev_w : list N) : list N :=
  match k with
  | O => rev_w
  | S k' =>
      let w :=
        add32 (add32 (sigma1 (nth 1 rev_w 0)) (nth 6 rev_w 0))
              (add32 (sigma0 (nth 14 rev_w 0)) (nth 15 rev_w 0)) in
      schedule k' (w :: rev_w)
  end.

Definition round (s : state) (kw : N * N) : state :=
  let t1 := add32 (add32 (add32 (sh s) (Sigma1 (se s)))
                         (add32 (Ch (se s) (sf s) (sg s)) (fst kw))) (snd kw) in
  let t2 := add32 (Sigma0 (sa s)) (Maj (sa s) (sb s) (sc s)) in
  mkState (add32 t1 t2) (sa s) (sb s) (sc s) (add32 (sd s) t1) (se s) (sf s) (sg s).

Definition compress (h : state) (block : bytes) : state :=
  let w := rev (schedule 48 (rev (words 16 block))) in
  let s := fold_left round (combine K w) h in
  mkState (add32 (sa h) (sa s)) (add32 (sb h) (sb s)) (add32 (sc h) (sc s))
          (add32 (sd h) (sd s)) (add32 (se h) (se s)) (add32 (sf h) (sf s))
          (add32 (sg h) (sg s)) (add32 (sh h) (sh s)).

Fixpoint blocks (k : nat) (h : state) (data : bytes) : state :=
  match k with
  | O => h
  | S k' => blocks k' (compress h (firstn 64 data)) (skipn 64 data)
  end.

Definition digest (s : state) : bytes :=
  be_bytes 4 (sa s) ++ be_bytes 4 (sb s) ++ be_bytes 4 (sc s) ++ be_bytes 4 (sd s) ++
  be_bytes 4 (se s) ++ be_bytes 4 (sf s) ++ be_bytes 4 (sg s) ++ be_bytes 4 (sh s).

Definition Sum256 (msg : bytes) : bytes :=
  let p := pad msg in
  digest (blocks (Nat.div (length p) 64) H0 p).

End SHA256.

(** [getHash]: the SHA-256 digest of [data]. *)
Definition getHash (data : bytes) : bytes := SHA256.Sum256 data.

(* ================================================================== *)
(** * How a call ends *)

Inductive panic : Type :=
| IndexOutOfRange (index len : Z)       (* a[index] with len(a) = len *)
| SliceBoundsOutOfRange (bound len : Z) (* a[lo:hi] with a bound beyond len *)
| MakeSliceLenOutOfRange.               (* make([]byte, n) with n < 0 *)

Inductive outcome (A : Type) : Type :=
| Return (a : A)        (* the values, with a nil error *)
| Error (err : string)  (* a non-nil error *)
| Panic (p : panic)     (* a run-time panic *)
| Fatal (msg : string). (* log.Fatalf: the process exits *)

Arguments Return {A} a.
Arguments Error {A} err.
Arguments Panic {A} p.
Arguments Fatal {A} msg.

Definition bind {A B : Type} (m : outcome A) (k : A -> outcome B) : outcome B :=
  match m with
  | Return a => k a
  | Error e => Error e
  | Panic p => Panic p
  | Fatal msg => Fatal msg
  end.

Notation "x <- m ;; k" := (bind m (fun x => k))
  (at level 61, m at next level, right associativity).

Definition panics {A : Type} (o : outcome A) : Prop := exists p, o = Panic p.

(* ================================================================== *)
(** * Slices and big integers *)

(** [a[i]] *)
Definition index {A : Type} (a : list A) (i : Z) : outcome A :=
  if (i <? 0)%Z then Panic (IndexOutOfRange i (Z.of_nat (length a)))
  else match nth_error a (Z.to_nat i) with
       | Some x => Return x
       | None => Panic (IndexOutOfRange i (Z.of_nat (length a)))
       end.

(** [data[lo:hi]] for constants [lo <= hi].  Go checks [hi] against the
    capacity; with the capacity equal to the length this is the check
    below.  Where the code slices, the last slice is [data[k:]], which Go
    checks against the length: whether a panic occurs does not depend on
    the capacity. *)
Definition slice (data : bytes) (lo hi : nat) : outcome bytes :=
  if Nat.leb hi (length data) then Return (firstn (hi - lo) (skipn lo data))
  else Panic (SliceBoundsOutOfRange (Z.of_nat hi) (Z.of_nat (length data))).

(** [data[lo:]] *)
Definition slice_from (data : bytes) (lo : nat) : outcome bytes :=
  if Nat.leb lo (length data) then Return (skipn lo data)
  else Panic (SliceBoundsOutOfRange (Z.of_nat lo) (Z.of_nat (length data))).

(** [new(big.Int).SetBytes]: the big-endian value. *)
Definition SetBytes (b : bytes) : N := SHA256.be_value b.

Fixpoint Bytes_loop (fuel : nat) (n : N) (acc : bytes) : bytes :=
  match fuel with
  | O => acc
  | S fuel' =>
      if (n =? 0)%N then acc
      else Bytes_loop fuel' (n / 256)%N (byte_of_N n :: acc)
  end.

(** [big.Int.Bytes]: big-endian, without leading zero bytes. *)
Definition Bytes (n : N) : bytes := Bytes_loop (N.size_nat n) n [].

(* ================================================================== *)
(** * Keys and randomness *)

Record ChameleomPubKey := mkPubKey { pubX : N; pubY : N }.

Record ChameleonRandomNum := mkRandomNum { rX : N; rY : N; s : N }.

Definition ChameleomPubKey_Serialize (pubKey : ChameleomPubKey) : bytes :=
  Bytes (pubX pubKey) ++ Bytes (pubY pubKey).

Definition DeserializeChameleomPubKey (data : bytes) : outcome ChameleomPubKey :=
  pubXBytes <- slice data 0 32 ;;
  pubYBytes <- slice_from data 32 ;;
  Return (mkPubKey (SetBytes pubXBytes) (SetBytes pubYBytes)).

Definition ChameleonRandomNum_Serialize (randomNum : ChameleonRandomNum) : bytes :=
  (Bytes (rX randomNum) ++ Bytes (rY randomNum)) ++ Bytes (s randomNum).

Definition DeserializeChameleonRandomNum (data : bytes) : outcome ChameleonRandomNum :=
  rXBytes <- slice data 0 32 ;;
  rYBytes <- slice data 32 64 ;;
  sBytes <- slice_from data 64 ;;
  Return (mkRandomNum (SetBytes rXBytes) (SetBytes rYBytes) (SetBytes sBytes)).

(** The chameleon hash. [ComputeHash], [VerifyHash] and [FindCollision]
    belong to the package, but the file that defines them is missing
    from the sources, so the development is parametric in them.
    [ComputeHash] and [FindCollision] may draw random numbers: the draw is
    the argument of type [Entropy].  What [FindCollision] does with a
    secret key it refuses is not in the sources: line 248 receives its
    three numbers and handles nothing, so a call may end in any of the
    ways of [outcome], and [UpdateMerkleTree] then ends the same way. *)
Record ChameleonOutput := mkOutput { out_rX : N; out_rY : N; out_s : N; out_hX : N }.

Class ChameleonHash : Type := {
  Entropy : Type;
  (* ComputeHash(msg, pubX, pubY) = (rX, rY, s, hX) *)
  ComputeHash : Entropy -> bytes -> N -> N -> ChameleonOutput;
  (* VerifyHash(msg, rX, rY, s, pubX, pubY, hX) *)
  VerifyHash : bytes -> N -> N -> N -> N -> N -> N -> bool;
  (* FindCollision(oldMsg, rX, rY, s, hX, newMsg, secKey) = (rX', rY', s'),
     or a failure *)
  FindCollision : Entropy -> bytes -> N -> N -> N -> N -> bytes -> bytes
                  -> outcome ChameleonRandomNum
}.

(** What the claims assume of the primitives: a hash computed on a
    message is accepted on that message. *)
Definition VerifyHash_accepts_ComputeHash (CH : ChameleonHash) : Prop :=
  forall (e : Entropy) (msg : bytes) (px py : N),
    let o := ComputeHash e msg px py in
    VerifyHash msg (out_rX o) (out_rY o) (out_s o) px py (out_hX o) = true.

(* ================================================================== *)
(** * The tree *)

(** A [*MerkleNode]. *)
Inductive MerkleNode : Type :=
| Nil : MerkleNode
| Ptr (addr : nat) (hash : bytes) (left right : MerkleNode) : MerkleNode.

(** The fields.  The code reads them behind a nil test or from a node it
    has just made; on [Nil] the accessors give a default. *)
Definition Hash (n : MerkleNode) : bytes :=
  match n with Nil => [] | Ptr _ h _ _ => h end.
Definition Left (n : MerkleNode) : MerkleNode :=
  match n with Nil => Nil | Ptr _ _ l _ => l end.
Definition Right (n : MerkleNode) : MerkleNode :=
  match n with Nil => Nil | Ptr _ _ _ r => r end.

Definition is_nil (p : MerkleNode) : bool :=
  match p with Nil => true | Ptr _ _ _ _ => false end.

(** [p == q] on pointers. *)
Definition ptr_eq (p q : MerkleNode) : bool :=
  match p, q with
  | Nil, Nil => true
  | Ptr a _ _ _, Ptr b _ _ _ => Nat.eqb a b
  | _, _ => false
  end.

(** [root.Hash = h] *)
Definition set_Hash (p : MerkleNode) (h : bytes) : MerkleNode :=
  match p with Nil => Nil | Ptr a _ l r => Ptr a h l r end.

Record MerkleConfig := mkConfig { BlockSize : Z }.

Definition NewMerkleConfig : MerkleConfig := mkConfig (4 * 1024 * 1024).

(** [dht.MetaData] *)
Record MetaData := mkMetaData
  { RootHash : bytes; RandomNum : bytes; PublicKey : bytes; Leaves : list bytes }.

(* ================================================================== *)
(** * The input file *)

(** An open [*os.File]: the bytes not yet read and, for a handle that
    cannot be read (closed, a directory, a failing device), the error
    every read reports. *)
Record File := mkFile { unread : bytes; fault : option string }.

Inductive read_error : Type :=
| EOF
| ReadFailure (err : string).

(** [n, err := file.Read(buffer)] with [len(buffer) = size]: the bytes
    placed in [buffer[:n]], the error, and the file afterwards.  As for a
    regular file, a read fills the buffer unless the end is reached. *)
Definition File_Read (file : File) (size : nat)
  : bytes * option read_error * File :=
  match fault file with
  | Some err => ([], Some (ReadFailure err), file)
  | None =>
      match size, unread file with
      | O, _ => ([], None, file)
      | _, [] => ([], Some EOF, file)
      | _, _ => (firstn size (unread file), None,
                 mkFile (skipn size (unread file)) None)
      end
  end.

(* ================================================================== *)
(** * Building the tree *)

(** Lines 113-129 (and 195-211): one leaf per block read.  [heap] is the
    next free address. *)
Fixpoint readLeaves (fuel : nat) (file : File) (config : MerkleConfig)
    (heap : nat) (nodes : list MerkleNode) : outcome (list MerkleNode * nat) :=
  match fuel with
  | O => Return (nodes, heap)
  | S fuel' =>
      let '(buffer_n, err, file') := File_Read file (Z.to_nat (BlockSize config)) in
      match err with
      | Some (ReadFailure e) => Error e
      | _ =>
          let n := Z.of_nat (length buffer_n) in
          if (n =? 0)%Z then Return (nodes, heap)
          else
            let node := Ptr heap (getHash buffer_n) Nil Nil in
            let nodes' := nodes ++ [node] in
            if (n <? BlockSize config)%Z then Return (nodes', S heap)
            else readLeaves fuel' file' config (S heap) nodes'
      end
  end.

(** Lines 133-146: one pass over a level, pairing neighbours and carrying
    an unpaired last node over. *)
Fixpoint newLevel (nodes : list MerkleNode) (heap : nat) : list MerkleNode * nat :=
  match nodes with
  | n_i :: n_i1 :: rest =>
      let hash := getHash (Hash n_i ++ Hash n_i1) in
      let '(level, heap') := newLevel rest (S heap) in
      (Ptr heap hash n_i n_i1 :: level, heap')
  | [n_i] => ([n_i], heap)
  | [] => ([], heap)
  end.

(** Lines 131-148: [for len(nodes) > 2]. *)
Fixpoint buildLevels (fuel : nat) (nodes : list MerkleNode) (heap : nat)
  : list MerkleNode * nat :=
  match fuel with
  | O => (nodes, heap)
  | S fuel' =>
      if Nat.ltb 2 (length nodes) then
        let '(level, heap') := newLevel nodes heap in
        buildLevels fuel' level heap'
      else (nodes, heap)
  end.

(** Lines 150-164: the message of the chameleon hash and the root node,
    whose [Hash] is still unset. *)
Definition topNode (nodes : list MerkleNode) (heap : nat)
  : outcome (bytes * MerkleNode) :=
  if Nat.eqb (length nodes) 1 then
    n0 <- index nodes 0 ;;
    Return (Hash n0, Ptr heap [] n0 Nil)
  else
    n0 <- index nodes 0 ;;
    n1 <- index nodes 1 ;;
    Return (Hash n0 ++ Hash n1, Ptr heap [] n0 n1).

(** Lines 113-164, shared by [BuildMerkleTree] and [UpdateMerkleTree]. *)
Definition buildSkeleton (heap : nat) (file : File) (config : MerkleConfig)
  : outcome (bytes * MerkleNode) :=
  if (BlockSize config <? 0)%Z then Panic MakeSliceLenOutOfRange
  else
    leaves <- readLeaves (S (length (unread file))) file config heap [] ;;
    let top := buildLevels (length (fst leaves)) (fst leaves) (snd leaves) in
    topNode (fst top) (snd top).

Section Tree.
Context {CH : ChameleonHash}.

Definition VerifyMerkleRoot (text hX : bytes) (pubKey : ChameleomPubKey)
    (randomNum : ChameleonRandomNum) : bool :=
  VerifyHash text (rX randomNum) (rY randomNum) (s randomNum)
             (pubX pubKey) (pubY pubKey) (SetBytes hX).

(** [BuildMerkleTree(file, config, pubKey)]: the root, the randomness and
    the message that was hashed. *)
Definition BuildMerkleTree (e : Entropy) (heap : nat) (file : File)
    (config : MerkleConfig) (pubKey : ChameleomPubKey)
  : outcome (MerkleNode * ChameleonRandomNum * bytes) :=
  top <- buildSkeleton heap file config ;;
  let combined := fst top in
  let o := ComputeHash e combined (pubX pubKey) (pubY pubKey) in
  let root := set_Hash (snd top) (Bytes (out_hX o)) in
  Return (root, mkRandomNum (out_rX o) (out_rY o) (out_s o), combined).

(** [UpdateMerkleTree(file, config, pubKey, secKey, prevRootHash,
    chameleonHash, randomNum)] *)
Definition UpdateMerkleTree (e : Entropy) (heap : nat) (file : File)
    (config : MerkleConfig) (pubKey : ChameleomPubKey)
    (secKey prevRootHash chameleonHash : bytes) (randomNum : ChameleonRandomNum)
  : outcome (MerkleNode * ChameleonRandomNum) :=
  top <- buildSkeleton heap file config ;;
  let combined := fst top in
  new <- FindCollision e chameleonHash (rX randomNum) (rY randomNum) (s randomNum)
                       (SetBytes prevRootHash) combined secKey ;;
  let root := set_Hash (snd top) prevRootHash in
  Return (root, mkRandomNum (rX new) (rY new) (s new)).

End Tree.

(* ================================================================== *)
(** * Leaves and inclusion proofs *)

(** Number of nodes reachable from a pointer. *)
Fixpoint weight (n : MerkleNode) : nat :=
  match n with
  | Nil => 0
  | Ptr _ _ l r => S (weight l + weight r)
  end.

(** Lines 294-307: the queue loop.  One node leaves the queue per turn,
    so the number of nodes reachable from the queue bounds the turns. *)
Fixpoint traverse (fuel : nat) (queue : list MerkleNode) (leafHashes : list bytes)
  : list bytes :=
  match fuel with
  | O => leafHashes
  | S fuel' =>
      match queue with
      | [] => leafHashes
      | node :: queue =>
          let leafHashes :=
            if is_nil (Left node) && is_nil (Right node)
            then leafHashes ++ [Hash node] else leafHashes in
          let queue := if is_nil (Left node) then queue else queue ++ [Left node] in
          let queue := if is_nil (Right node) then queue else queue ++ [Right node] in
          traverse fuel' queue leafHashes
      end
  end.

Definition GetAllLeavesHashes (root : MerkleNode) : list bytes :=
  if is_nil root then []
  else traverse (weight root) [root] [].

(** The variables the closure [dfs] captures. *)
Record dfs_state := mkDfs { path : list MerkleNode; siblings : list bytes }.

(** Lines 348-362: one pair of slots for every step of the path. *)
Fixpoint collect (path : list MerkleNode) : list bytes :=
  match path with
  | parent :: (next :: _) as rest =>
      let sibling1 :=
        if negb (is_nil (Right parent)) && negb (ptr_eq (Right parent) next)
        then Hash (Right parent) else [] in
      let sibling0 :=
        if negb (is_nil (Left parent)) && negb (ptr_eq (Left parent) next)
        then Hash (Left parent) else [] in
      [sibling0; sibling1] ++ collect rest
  | _ => []
  end.

(** Lines 339-372 *)
Fixpoint dfs (target : bytes) (node : MerkleNode) (st : dfs_state) : bool * dfs_state :=
  match node with
  | Nil => (false, st)
  | Ptr _ hash l r =>
      let st := mkDfs (path st ++ [node]) (siblings st) in
      if bytes_Equal hash target then
        (true, mkDfs (path st) (siblings st ++ collect (path st)))
      else
        let (found, st) := dfs target l st in
        if found then (true, st)
        else
          let (found, st) := dfs target r st in
          if found then (true, st)
          else (false, mkDfs (removelast (path st)) (siblings st))
  end.

Definition GenerateMerkleProof (root : MerkleNode) (target : bytes) : list bytes :=
  siblings (snd (dfs target root (mkDfs [] []))).

(** Lines 390-399: [for i := len(merkleProof) - 2; i >= 2; i -= 2]. *)
Fixpoint verifyLoop (fuel : nat) (i : Z) (merkleProof : list bytes)
    (currentHash : bytes) : outcome bytes :=
  match fuel with
  | O => Return currentHash
  | S fuel' =>
      if (i >=? 2)%Z then
        p_i <- index merkleProof i ;;
        combined <-
          (if Nat.eqb (length p_i) 0 then
             p_i1 <- index merkleProof (i + 1) ;;
             Return (currentHash ++ p_i1)
           else Return (p_i ++ currentHash)) ;;
        verifyLoop fuel' (i - 2) merkleProof (getHash combined)
      else Return currentHash
  end.

Section Verify.
Context {CH : ChameleonHash}.

Definition VerifyMerkleProof (rootHash targetHash : bytes) (merkleProof : list bytes)
    (pubKey : ChameleomPubKey) (randomNum : ChameleonRandomNum) : outcome bool :=
  currentHash <- verifyLoop (length merkleProof)
                            (Z.of_nat (length merkleProof) - 2) merkleProof targetHash ;;
  p0 <- index merkleProof 0 ;;
  combined <-
    (if Nat.eqb (length p0) 0 then
       p1 <- index merkleProof 1 ;;
       if Nat.eqb (length p1) 0 then Return currentHash
       else Return (currentHash ++ p1)
     else Return (p0 ++ currentHash)) ;;
  Return (VerifyMerkleRoot combined rootHash pubKey randomNum).

(** Lines 417-420 *)
Fixpoint leafNodes (leaves : list bytes) (heap : nat) : list MerkleNode * nat :=
  match leaves with
  | [] => ([], heap)
  | leaf :: rest =>
      let '(nodes, heap') := leafNodes rest (S heap) in
      (Ptr heap leaf Nil Nil :: nodes, heap')
  end.

Definition RebuildMerkleTreeFromMetaData (heap : nat) (metaData : MetaData)
  : outcome (MerkleNode * ChameleonRandomNum * ChameleomPubKey) :=
  let leaves := leafNodes (Leaves metaData) heap in
  let top := buildLevels (length (fst leaves)) (fst leaves) (snd leaves) in
  top <- topNode (fst top) (snd top) ;;
  let combined := fst top in
  randomNum <- DeserializeChameleonRandomNum (RandomNum metaData) ;;
  pubKey <- DeserializeChameleomPubKey (PublicKey metaData) ;;
  let toBe := VerifyMerkleRoot combined (RootHash metaData) pubKey randomNum in
  if negb toBe then Error "Merkle root verification failed"
  else Return (set_Hash (snd top) (RootHash metaData), randomNum, pubKey).

(** [sendMetadata], step 1: the metadata published for a tree. *)
Definition metaData_of (root : MerkleNode) (randomNum : ChameleonRandomNum)
    (pubKey : ChameleomPubKey) : MetaData :=
  mkMetaData (Hash root) (ChameleonRandomNum_Serialize randomNum)
             (ChameleomPubKey_Serialize pubKey) (GetAllLeavesHashes root).

End Verify.

(* ================================================================== *)
(** * An instance of the chameleon hash *)

(** Modelled from the spec: [ComputeHash], [VerifyHash] and
    [FindCollision], whose source file is missing, follow section 4.2 of
    the specification (Hash, Verify, FindCollision with [R' = R] and with
    its failure [InvalidTrapdoor]).  [FindCollision] is not given the
    public key: it refuses a secret scalar [x] when [x.G] does not open
    the commitment it is given, which is all a function without the key
    can check; the discrete logarithm of the key of the commitment
    always opens it.  The curve is the only departure: in place of P-256
    it is the curve [y^2 = x^3 - 3x + 7] over the field of 60017
    elements, a group of prime order 59951 generated by [(2, 3)].  The
    instance serves the concrete runs below; the general statements do
    not depend on it. *)
Module SmallCurve.
Local Open Scope N_scope.

Definition p : N := 60017.
Definition a : N := 60014.
Definition b : N := 7.
Definition n : N := 59951.

(** A point; [None] is the point at infinity. *)
Definition point : Type := option (N * N).

Definition G : point := Some (2, 3).

Fixpoint pow_pos (x : N) (e : positive) : N :=
  match e with
  | xH => x mod p
  | xO e' => let r := pow_pos x e' in (r * r) mod p
  | xI e' => let r := pow_pos x e' in (((r * r) mod p) * x) mod p
  end.

(** The inverse in the field, by Fermat. *)
Definition inv (x : N) : N := pow_pos x 60015.

Definition sub (x y : N) : N := (x + (p - y mod p)) mod p.

Definition add (P Q : point) : point :=
  match P, Q with
  | None, _ => Q
  | _, None => P
  | Some (x1, y1), Some (x2, y2) =>
      if (x1 =? x2) && negb (y1 =? y2) then None
      else if (x1 =? x2) && (y1 =? 0) then None
      else
        let lambda :=
          if x1 =? x2
          then ((3 * x1 * x1 + a) * inv (2 * y1)) mod p
          else (sub y2 y1 * inv (sub x2 x1)) mod p in
        let x3 := sub (sub (lambda * lambda) x1) x2 in
        let y3 := sub (lambda * sub x1 x3) y1 in
        Some (x3, y3)
  end.

Fixpoint mul_pos (k : positive) (P : point) : point :=
  match k with
  | xH => P
  | xO k' => let D := mul_pos k' P in add D D
  | xI k' => let D := mul_pos k' P in add (add D D) P
  end.

(** Scalar multiplication [k.P]. *)
Definition mul (k : N) (P : point) : point :=
  match k with
  | N0 => None
  | Npos k' => mul_pos k' P
  end.

(** Coordinates as [crypto/elliptic] gives them: infinity is [(0, 0)]. *)
Definition xy (P : point) : N * N :=
  match P with Some c => c | None => (0, 0) end.

(** [e = SHA-256(m || rX) mod n] *)
Definition challenge (m : bytes) (r_x : N) : N :=
  SetBytes (getHash (m ++ Bytes r_x)) mod n.

Definition commitment (m : bytes) (r_x s_ p_x p_y : N) : point :=
  add (mul s_ G) (mul (challenge m r_x) (Some (p_x, p_y))).

(** The draw: [k] and [s], each in [1, n-1]. *)
Definition draw : Type := N * N.

Definition Hash_ (e : draw) (m : bytes) (p_x p_y : N) : ChameleonOutput :=
  let R := xy (mul (fst e) G) in
  let Q := commitment m (fst R) (snd e) p_x p_y in
  mkOutput (fst R) (snd R) (snd e) (fst (xy Q)).

Definition Verify (m : bytes) (r_x r_y s_ p_x p_y h_x : N) : bool :=
  match commitment m r_x s_ p_x p_y with
  | None => false
  | Some (x, _) => x =? h_x
  end.

(** The secret scalar [x] opens the commitment [(R, s)] to [m] with
    hash [hX]: [Verify] accepts it under the key [x.G]. *)
Definition opens (x : N) (m : bytes) (r_x r_y s_ h_x : N) : bool :=
  let P := xy (mul x G) in
  Verify m r_x r_y s_ (fst P) (snd P) h_x.

(** [s' = s + (e - e').x mod n], keeping [R]; [InvalidTrapdoor] for a
    secret key that does not open the commitment. *)
Definition Collide (_ : draw) (m : bytes) (r_x r_y s_ h_x : N) (m' secKey : bytes)
  : outcome ChameleonRandomNum :=
  let x := SetBytes secKey mod n in
  let e := challenge m r_x in
  let e' := challenge m' r_x in
  if opens x m r_x r_y s_ h_x
  then Return (mkRandomNum r_x r_y ((s_ + ((e + (n - e')) mod n) * x) mod n))
  else Error "InvalidTrapdoor".

(** [GenerateChameleonKeyPair] for the secret scalar [x]: [P = x.G]. *)
Definition KeyPair (x : N) : bytes * ChameleomPubKey :=
  let P := xy (mul x G) in (Bytes x, mkPubKey (fst P) (snd P)).

End SmallCurve.

#[export] Instance SmallCurveHash : ChameleonHash :=
  {| Entropy := SmallCurve.draw;
     ComputeHash := SmallCurve.Hash_;
     VerifyHash := SmallCurve.Verify;
     FindCollision := SmallCurve.Collide |}.

(* ================================================================== *)
(** * The metadata codec *)

(** A Go [string] is a [string]; its bytes are its characters. *)

(** [encoding/hex]: the value of a hexadecimal digit, of either case. *)
Definition fromHexChar (c : ascii) : option N :=
  let n := N_of_ascii c in
  if (48 <=? n)%N && (n <=? 57)%N then Some (n - 48)%N
  else if (97 <=? n)%N && (n <=? 102)%N then Some (n - 87)%N
  else if (65 <=? n)%N && (n <=? 70)%N then Some (n - 55)%N
  else None.

(** [hex.DecodeString]: [None] stands for a non-nil error, be it an
    invalid byte or an odd length. *)
Fixpoint hex_DecodeString (src : string) : option bytes :=
  match src with
  | EmptyString => Some []
  | String _ EmptyString => None
  | String c1 (String c2 rest) =>
      match fromHexChar c1, fromHexChar c2 with
      | Some hi, Some lo =>
          match hex_DecodeString rest with
          | Some bs => Some (byte_of_N (16 * hi + lo) :: bs)
          | None => None
          end
      | _, _ => None
      end
  end.

Definition hextable : string := "0123456789abcdef".

Definition nth_char (table : string) (i : N) : ascii :=
  match String.get (N.to_nat i) table with
  | Some c => c
  | None => zero
  end.

(** [hex.EncodeToString]: two lowercase digits per byte. *)
Fixpoint hex_EncodeToString (src : bytes) : string :=
  match src with
  | [] => EmptyString
  | v :: rest =>
      let n := Byte.to_N v in
      String (nth_char hextable (n / 16)) (String (nth_char hextable (n mod 16))
             (hex_EncodeToString rest))
  end.

Definition encodeStd : string :=
  "ABCDEFGHIJKLMNOPQRSTUVWXYZabcdefghijklmnopqrstuvwxyz0123456789+/".

(** [base64.StdEncoding.EncodeToString]: four characters for every three
    bytes, padded with [=]. *)
Fixpoint base64_EncodeToString (src : bytes) : string :=
  match src with
  | [] => EmptyString
  | [b1] =>
      let v := (Byte.to_N b1 * 65536)%N in
      String (nth_char encodeStd (v / 262144))
     (String (nth_char encodeStd ((v / 4096) mod 64)) "==")
  | [b1; b2] =>
      let v := (Byte.to_N b1 * 65536 + Byte.to_N b2 * 256)%N in
      String (nth_char encodeStd (v / 262144))
     (String (nth_char encodeStd ((v / 4096) mod 64))
     (String (nth_char encodeStd ((v / 64) mod 64)) "="))
  | b1 :: b2 :: b3 :: rest =>
      let v := (Byte.to_N b1 * 65536 + Byte.to_N b2 * 256 + Byte.to_N b3)%N in
      String (nth_char encodeStd (v / 262144))
     (String (nth_char encodeStd ((v / 4096) mod 64))
     (String (nth_char encodeStd ((v / 64) mod 64))
     (String (nth_char encodeStd (v mod 64))
             (base64_EncodeToString rest))))
  end.

(** The double quote. *)
Definition dquote : string := String (ascii_of_nat 34) EmptyString.

Definition quoted (body : string) : string := (dquote ++ body ++ dquote)%string.

Definition member (name value : string) : string := (quoted name ++ ":" ++ value)%string.

(** [json.Marshal] of a [[]byte]: a string holding its base64 encoding. *)
Definition json_Marshal_bytes (b : bytes) : string := quoted (base64_EncodeToString b).

(** [json.Marshal] of a [[][]byte]. *)
Definition json_Marshal_bytes_list (l : list bytes) : string :=
  ("[" ++ String.concat "," (map json_Marshal_bytes l) ++ "]")%string.

(** [json.Marshal(metaData)] in [sendMetadata], for the struct [MetaData]
    with its tags [rootHash], [randomNum], [publicKey] and [leaves]. *)
Definition json_Marshal (metaData : MetaData) : string :=
  ("{" ++ member "rootHash" (json_Marshal_bytes (RootHash metaData)) ++ ","
       ++ member "randomNum" (json_Marshal_bytes (RandomNum metaData)) ++ ","
       ++ member "publicKey" (json_Marshal_bytes (PublicKey metaData)) ++ ","
       ++ member "leaves" (json_Marshal_bytes_list (Leaves metaData)) ++ "}")%string.

(** What the specification asks of Serialize: the same object with every
    byte string in lowercase hexadecimal. *)
Definition hex_rendering (metaData : MetaData) : string :=
  ("{" ++ member "rootHash" (quoted (hex_EncodeToString (RootHash metaData))) ++ ","
       ++ member "randomNum" (quoted (hex_EncodeToString (RandomNum metaData))) ++ ","
       ++ member "publicKey" (quoted (hex_EncodeToString (PublicKey metaData))) ++ ","
       ++ member "leaves"
            ("[" ++ String.concat ","
                      (map (fun l => quoted (hex_EncodeToString l)) (Leaves metaData))
                 ++ "]") ++ "}")%string.

(** The struct [parseData] of [websocket/utils.go]. *)
Module parseData.
Record t := mk
  { RootHash : string; RandomNum : string; PublicKey : string; Leaves : list string }.
End parseData.

(** The two calls of [json.Unmarshal] in [ParseTxValue].  [encoding/json]
    is a library of the language: the development is parametric in it.
    Each function gives [None] for a non-nil error, and otherwise what the
    call leaves in the variable it fills. *)
Class JSONDecoder : Type := {
  (* into struct { Params struct { Value string } }: data.Params.Value *)
  Unmarshal_envelope : string -> option string;
  (* into parseData *)
  Unmarshal_parseData : string -> option parseData.t
}.

(** [x, err = hex.DecodeString(...); if err != nil { log.Fatalf(msg) }].
    [Fatal] keeps the message up to the text of the error. *)
Definition decode_or_fatal (msg : string) (src : string) : outcome bytes :=
  match hex_DecodeString src with
  | Some b => Return b
  | None => Fatal msg
  end.

(** Lines 77-83: the loop over [parseData.Leaves]. *)
Fixpoint decodeLeaves (leaves : list string) : outcome (list bytes) :=
  match leaves with
  | [] => Return []
  | leafStr :: rest =>
      leaf <- decode_or_fatal "Error decoding leaf" leafStr ;;
      others <- decodeLeaves rest ;;
      Return (leaf :: others)
  end.

Section Parse.
Context {JD : JSONDecoder}.

Definition ParseTxValue (jsonStr : string) : outcome MetaData :=
  match Unmarshal_envelope jsonStr with
  | None => Fatal "Error unmarshalling JSON"
  | Some value =>
      match Unmarshal_parseData value with
      | None => Fatal "Error unmarshalling JSON"
      | Some parseData =>
          rootHash <- decode_or_fatal "Error decoding rootHash"
                                      (parseData.RootHash parseData) ;;
          randomNum <- decode_or_fatal "Error decoding randomNum"
                                       (parseData.RandomNum parseData) ;;
          publicKey <- decode_or_fatal "Error decoding publicKey"
                                       (parseData.PublicKey parseData) ;;
          leaves <- decodeLeaves (parseData.Leaves parseData) ;;
          Return (mkMetaData rootHash randomNum publicKey leaves)
      end
  end.

End Parse.

(* ================================================================== *)
(** * An instance of the JSON decoder *)

(** A decoder for the documents of the feed, written after RFC 8259 and
    the rules of [encoding/json] for struct targets: members are taken in
    order, a key selects a field by its tag without regard to the case of
    ASCII letters, other keys are skipped, [null] leaves a field as it is,
    and a value of the wrong kind is an error.  It is meant for ASCII
    documents without repeated keys: bytes above 127 are copied as they
    are and a surrogate escape becomes U+FFFD on its own.  The instance
    serves the concrete runs below; the general statements do not depend
    on it. *)
Module MiniJSON.

#[local] Set Warnings "-register-all".

Inductive json : Type :=
| JNull
| JBool (b : bool)
| JNumber
| JString (s : string)
| JArray (items : list json)
| JObject (members : list (string * json)).

Definition code (c : ascii) : N := N_of_ascii c.

Definition is_ws (c : ascii) : bool :=
  (code c =? 32)%N || (code c =? 9)%N || (code c =? 10)%N || (code c =? 13)%N.

Definition is_digit (c : ascii) : bool := (48 <=? code c)%N && (code c <=? 57)%N.

Fixpoint skip_ws (src : string) : string :=
  match src with
  | String c rest => if is_ws c then skip_ws rest else src
  | EmptyString => src
  end.

(** UTF-8 of a code point of the basic plane. *)
Definition utf8 (cp : N) : string :=
  let ch (n : N) := ascii_of_N n in
  if (cp <? 128)%N then String (ch cp) EmptyString
  else if (cp <? 2048)%N then
    String (ch (192 + cp / 64)%N) (String (ch (128 + cp mod 64)%N) EmptyString)
  else
    String (ch (224 + cp / 4096)%N)
   (String (ch (128 + (cp / 64) mod 64)%N) (String (ch (128 + cp mod 64)%N) EmptyString)).

Definition escape_u (h1 h2 h3 h4 : ascii) : option string :=
  match fromHexChar h1, fromHexChar h2, fromHexChar h3, fromHexChar h4 with
  | Some d1, Some d2, Some d3, Some d4 =>
      let cp := (((d1 * 16 + d2) * 16 + d3) * 16 + d4)%N in
      if (55296 <=? cp)%N && (cp <=? 57343)%N then Some (utf8 65533)
      else Some (utf8 cp)
  | _, _, _, _ => None
  end.

Definition escape_simple (c : ascii) : option string :=
  let one (n : N) := Some (String (ascii_of_N n) EmptyString) in
  match code c with
  | 34%N => one 34%N   (* quote *)
  | 92%N => one 92%N   (* backslash *)
  | 47%N => one 47%N   (* slash *)
  | 98%N => one 8%N    (* b *)
  | 102%N => one 12%N  (* f *)
  | 110%N => one 10%N  (* n *)
  | 114%N => one 13%N  (* r *)
  | 116%N => one 9%N   (* t *)
  | _ => None
  end.

Definition prepend (front : string) (r : option (string * string))
  : option (string * string) :=
  match r with
  | Some (body, rest) => Some ((front ++ body)%string, rest)
  | None => None
  end.

(** The characters of a string up to its closing quote, and what follows. *)
Fixpoint string_body (src : string) : option (string * string) :=
  match src with
  | EmptyString => None
  | String c rest =>
      if (code c =? 34)%N then Some (EmptyString, rest)
      else if (code c =? 92)%N then
        match rest with
        | String e rest1 =>
            if (code e =? 117)%N then
              match rest1 with
              | String h1 (String h2 (String h3 (String h4 rest2))) =>
                  match escape_u h1 h2 h3 h4 with
                  | Some chars => prepend chars (string_body rest2)
                  | None => None
                  end
              | _ => None
              end
            else
              match escape_simple e with
              | Some chars => prepend chars (string_body rest1)
              | None => None
              end
        | EmptyString => None
        end
      else if (code c <? 32)%N then None
      else prepend (String c EmptyString) (string_body rest)
  end.

Fixpoint digits (src : string) : nat * string :=
  match src with
  | String c rest =>
      if is_digit c then let (k, r) := digits rest in (S k, r) else (O, src)
  | EmptyString => (O, src)
  end.

(** What follows a number, if [src] starts with one. *)
Definition number (src : string) : option string :=
  let unsigned :=
    match src with
    | String c rest => if (code c =? 45)%N then rest else src
    | EmptyString => src
    end in
  let after_int :=
    match unsigned with
    | String c rest =>
        if (code c =? 48)%N then Some rest
        else if is_digit c then Some (snd (digits rest))
        else None
    | EmptyString => None
    end in
  let after_frac (r : string) :=
    match r with
    | String c rest =>
        if (code c =? 46)%N then
          match digits rest with
          | (O, _) => None
          | (_, r') => Some r'
          end
        else Some r
    | EmptyString => Some r
    end in
  let after_exp (r : string) :=
    match r with
    | String c rest =>
        if (code c =? 101)%N || (code c =? 69)%N then
          let rest :=
            match rest with
            | String sg rest' =>
                if (code sg =? 43)%N || (code sg =? 45)%N then rest' else rest
            | EmptyString => rest
            end in
          match digits rest with
          | (O, _) => None
          | (_, r') => Some r'
          end
        else Some r
    | EmptyString => Some r
    end in
  match after_int with
  | Some r => match after_frac r with Some r' => after_exp r' | None => None end
  | None => None
  end.

(** [src] without the prefix [word], if it starts with it. *)
Fixpoint literal (word src : string) : option string :=
  match word, src with
  | EmptyString, _ => Some src
  | String w word', String c rest => if Ascii.eqb w c then literal word' rest else None
  | _, EmptyString => None
  end.

Fixpoint value (fuel : nat) (src : string) : option (json * string) :=
  match fuel with
  | O => None
  | S fuel' =>
      match skip_ws src with
      | EmptyString => None
      | String c rest =>
          if (code c =? 34)%N then
            match string_body rest with
            | Some (body, r) => Some (JString body, r)
            | None => None
            end
          else if (code c =? 91)%N then
            match skip_ws rest with
            | String c' r =>
                if (code c' =? 93)%N then Some (JArray [], r)
                else option_map (fun x => (JArray (fst x), snd x)) (elements fuel' rest)
            | EmptyString => None
            end
          else if (code c =? 123)%N then
            match skip_ws rest with
            | String c' r =>
                if (code c' =? 125)%N then Some (JObject [], r)
                else option_map (fun x => (JObject (fst x), snd x)) (members fuel' rest)
            | EmptyString => None
            end
          else if (code c =? 116)%N then
            option_map (fun r => (JBool true, r)) (literal "true" (String c rest))
          else if (code c =? 102)%N then
            option_map (fun r => (JBool false, r)) (literal "false" (String c rest))
          else if (code c =? 110)%N then
            option_map (fun r => (JNull, r)) (literal "null" (String c rest))
          else
            option_map (fun r => (JNumber, r)) (number (String c rest))
      end
  end
with elements (fuel : nat) (src : string) : option (list json * string) :=
  match fuel with
  | O => None
  | S fuel' =>
      match value fuel' src with
      | Some (v, r) =>
          match skip_ws r with
          | String c r' =>
              if (code c =? 93)%N then Some ([v], r')
              else if (code c =? 44)%N then
                option_map (fun x => (v :: fst x, snd x)) (elements fuel' r')
              else None
          | EmptyString => None
          end
      | None => None
      end
  end
with members (fuel : nat) (src : string) : option (list (string * json) * string) :=
  match fuel with
  | O => None
  | S fuel' =>
      match skip_ws src with
      | String q r0 =>
          if (code q =? 34)%N then
            match string_body r0 with
            | Some (key, r1) =>
                match skip_ws r1 with
                | String colon r2 =>
                    if (code colon =? 58)%N then
                      match value fuel' r2 with
                      | Some (v, r3) =>
                          match skip_ws r3 with
                          | String c r4 =>
                              if (code c =? 125)%N then Some ([(key, v)], r4)
                              else if (code c =? 44)%N then
                                option_map (fun x => ((key, v) :: fst x, snd x))
                                           (members fuel' r4)
                              else None
                          | EmptyString => None
                          end
                      | None => None
                      end
                    else None
                | EmptyString => None
                end
            | None => None
            end
          else None
      | EmptyString => None
      end
  end.

(** A whole document: one value and nothing but white space after it. *)
Definition document (src : string) : option json :=
  match value (2 * String.length src + 2) src with
  | Some (v, rest) =>
      match skip_ws rest with
      | EmptyString => Some v
      | String _ _ => None
      end
  | None => None
  end.

Definition lower (c : ascii) : ascii :=
  if (65 <=? code c)%N && (code c <=? 90)%N then ascii_of_N (code c + 32)%N else c.

Fixpoint fold_equal (x y : string) : bool :=
  match x, y with
  | EmptyString, EmptyString => true
  | String cx x', String cy y' => Ascii.eqb (lower cx) (lower cy) && fold_equal x' y'
  | _, _ => false
  end.

(** Decoding into a field of type [string] that holds [old]. *)
Definition into_string (old : string) (v : json) : option string :=
  match v with
  | JString str => Some str
  | JNull => Some old
  | _ => None
  end.

(** Decoding into a field of type [[]string]. *)
Definition into_strings (old : list string) (v : json) : option (list string) :=
  match v with
  | JArray items =>
      fold_right (fun item acc =>
                    match into_string EmptyString item, acc with
                    | Some str, Some l => Some (str :: l)
                    | _, _ => None
                    end) (Some []) items
  | JNull => Some []
  | _ => None
  end.

(** Decoding the members of an object into a struct held in [acc]. *)
Definition into_struct {T : Type} (field : string -> T -> json -> option T)
    (acc : T) (v : json) : option T :=
  match v with
  | JObject ms =>
      fold_left (fun st kv =>
                   match st with
                   | Some t => field (fst kv) t (snd kv)
                   | None => None
                   end) ms (Some acc)
  | JNull => Some acc
  | _ => None
  end.

Definition field_Params (key : string) (acc : string) (v : json) : option string :=
  if fold_equal key "value" then into_string acc v else Some acc.

Definition field_envelope (key : string) (acc : string) (v : json) : option string :=
  if fold_equal key "params" then into_struct field_Params acc v else Some acc.

Definition field_parseData (key : string) (acc : parseData.t) (v : json)
  : option parseData.t :=
  let with_root x := parseData.mk x (parseData.RandomNum acc)
                                  (parseData.PublicKey acc) (parseData.Leaves acc) in
  let with_random x := parseData.mk (parseData.RootHash acc) x
                                    (parseData.PublicKey acc) (parseData.Leaves acc) in
  let with_public x := parseData.mk (parseData.RootHash acc) (parseData.RandomNum acc)
                                    x (parseData.Leaves acc) in
  let with_leaves x := parseData.mk (parseData.RootHash acc) (parseData.RandomNum acc)
                                    (parseData.PublicKey acc) x in
  if fold_equal key "rootHash" then
    option_map with_root (into_string (parseData.RootHash acc) v)
  else if fold_equal key "randomNum" then
    option_map with_random (into_string (parseData.RandomNum acc) v)
  else if fold_equal key "publicKey" then
    option_map with_public (into_string (parseData.PublicKey acc) v)
  else if fold_equal key "leaves" then
    option_map with_leaves (into_strings (parseData.Leaves acc) v)
  else Some acc.

Definition envelope (src : string) : option string :=
  match document src with
  | Some v => into_struct field_envelope EmptyString v
  | None => None
  end.

Definition parse_data (src : string) : option parseData.t :=
  match document src with
  | Some v => into_struct field_parseData
                          (parseData.mk EmptyString EmptyString EmptyString []) v
  | None => None
  end.

(** A string as a JSON string: quotes and backslashes escaped. *)
Fixpoint escaped (body : string) : string :=
  match body with
  | EmptyString => EmptyString
  | String c rest =>
      if (code c =? 34)%N || (code c =? 92)%N
      then String (ascii_of_N 92) (String c (escaped rest))
      else String c (escaped rest)
  end.

(** A message of the feed carrying [payload] as [params.value]. *)
Definition feed_message (payload : string) : string :=
  ("{" ++ member "type" (quoted "data") ++ ","
       ++ member "params" ("{" ++ member "key" (quoted "metadata") ++ ","
                               ++ member "value" (quoted (escaped payload)) ++ "}")
       ++ "}")%string.

End MiniJSON.

#[export] Instance MiniJSONDecoder : JSONDecoder :=
  {| Unmarshal_envelope := MiniJSON.envelope;
     Unmarshal_parseData := MiniJSON.parse_data |}.

(* ================================================================== *)
(** * Concrete runs *)

(** The runs use the instances above: a key pair with secret scalar
    12345, the draw [k = 777], [s = 4242], streams of one-byte blocks. *)
Module Run.

Definition secKey : bytes := fst (SmallCurve.KeyPair 12345).
Definition pubKey : ChameleomPubKey := snd (SmallCurve.KeyPair 12345).
Definition draw : SmallCurve.draw := (777, 4242)%N.
Definition config : MerkleConfig := mkConfig 1.

(** The three blocks [a], [b], [c], the single block [a], and the
    stream [xyz] of an update. *)
Definition file_abc : File := mkFile (str "abc") None.
Definition file_a : File := mkFile (str "a") None.
Definition file_xyz : File := mkFile (str "xyz") None.

Definition h_a : bytes := getHash (str "a").
Definition h_b : bytes := getHash (str "b").
Definition h_c : bytes := getHash (str "c").
Definition h_ab : bytes := getHash (h_a ++ h_b).

Definition returned {A : Type} (o : outcome A) (default : A) : A :=
  match o with Return a => a | _ => default end.

Definition nothing : MerkleNode * ChameleonRandomNum * bytes :=
  (Nil, mkRandomNum 0 0 0, []).

Definition build_abc := BuildMerkleTree (CH := SmallCurveHash) draw 0 file_abc config pubKey.
Definition root_abc : MerkleNode := fst (fst (returned build_abc nothing)).
Definition randomNum_abc : ChameleonRandomNum := snd (fst (returned build_abc nothing)).
Definition combined_abc : bytes := snd (returned build_abc nothing).

Definition build_a := BuildMerkleTree (CH := SmallCurveHash) draw 0 file_a config pubKey.
Definition root_a : MerkleNode := fst (fst (returned build_a nothing)).
Definition randomNum_a : ChameleonRandomNum := snd (fst (returned build_a nothing)).

(** An update of the tree of [abc] to the stream [xyz]: by the owner, by
    someone who holds the secret key of another pair, and by the owner
    under the public key of that other pair. *)
Definition update (key : bytes) :=
  UpdateMerkleTree (CH := SmallCurveHash) draw 10 file_xyz config pubKey key
                   (Hash root_abc) combined_abc randomNum_abc.
Definition wrongKey : bytes := fst (SmallCurve.KeyPair 54321).
Definition updated (key : bytes) : MerkleNode * ChameleonRandomNum :=
  returned (update key) (Nil, mkRandomNum 0 0 0).

(** Metadata with the sizes of the real thing: 32 bytes of root hash, 96
    of randomness, 64 of public key and two leaves of 32 bytes; and a
    message of the feed whose root hash is not hexadecimal. *)
Definition metaData : MetaData :=
  mkMetaData h_ab (h_a ++ h_b ++ h_c) (h_a ++ h_b) [h_a; h_b].

Definition bad_hex : string :=
  MiniJSON.feed_message
    ("{" ++ member "rootHash" (quoted "zz") ++ ","
         ++ member "randomNum" (quoted "0102") ++ ","
         ++ member "publicKey" (quoted "01020304") ++ ","
         ++ member "leaves" "[]" ++ "}")%string.

End Run.

(* ================================================================== *)
(** * Notions used in the statements *)

(** The blocks of a stream: [size] bytes each, the last one possibly
    shorter. *)
Fixpoint chunks (fuel size : nat) (data : bytes) : list bytes :=
  match fuel with
  | O => []
  | S fuel' =>
      match data with
      | [] => []
      | _ :: _ => firstn size data :: chunks fuel' size (skipn size data)
      end
  end.

Definition stream_blocks (size : nat) (data : bytes) : list bytes :=
  chunks (length data) size data.

Definition addr (n : MerkleNode) : nat :=
  match n with Nil => 0 | Ptr a _ _ _ => a end.

(** The hashes of the nodes reachable from a pointer. *)
Fixpoint subtree_hashes (n : MerkleNode) : list bytes :=
  match n with
  | Nil => []
  | Ptr _ h l r => h :: subtree_hashes l ++ subtree_hashes r
  end.

(** The hashes of the nodes below the root. *)
Definition hashes_below (root : MerkleNode) : list bytes :=
  subtree_hashes (Left root) ++ subtree_hashes (Right root).

(** The hashes of the leaves, left to right. *)
Fixpoint leaf_hashes (n : MerkleNode) : list bytes :=
  match n with
  | Nil => []
  | Ptr _ h Nil Nil => [h]
  | Ptr _ _ l r => leaf_hashes l ++ leaf_hashes r
  end.

(** A node below the root as the build loop makes it: a leaf, or a node
    with two distinct children whose hash is the digest of theirs. *)
Fixpoint sound (n : MerkleNode) : Prop :=
  match n with
  | Nil => False
  | Ptr _ h l r =>
      h <> [] /\
      ((l = Nil /\ r = Nil) \/
       (h = getHash (Hash l ++ Hash r) /\ ptr_eq l r = false /\ sound l /\ sound r))
  end.

(** A level of the build loop, with [heap] the next free address. *)
Definition level_ok (heap : nat) (nodes : list MerkleNode) : Prop :=
  Forall sound nodes /\ NoDup (map addr nodes) /\ Forall (fun n => addr n < heap) nodes.

(** The node the search of [GenerateMerkleProof] stops at, with the path
    that leads to it. *)
Fixpoint route (target : bytes) (node : MerkleNode) : option (list MerkleNode) :=
  match node with
  | Nil => None
  | Ptr _ h l r =>
      if bytes_Equal h target then Some [node]
      else match route target l with
           | Some p => Some (node :: p)
           | None =>
               match route target r with
               | Some p => Some (node :: p)
               | None => None
               end
           end
  end.

(** One step of the loop of [VerifyMerkleProof] for every pair of slots,
    the last pair first. *)
Fixpoint climb (pairs : list bytes) (currentHash : bytes) : bytes :=
  match pairs with
  | slot0 :: slot1 :: rest =>
      let c := climb rest currentHash in
      getHash (if Nat.eqb (length slot0) 0 then c ++ slot1 else slot0 ++ c)
  | _ => currentHash
  end.

(** [VerifyHash] accepts the hash [ComputeHash] computes on [msg] with the
    draw [e]. *)
Definition accepted {CH : ChameleonHash} (e : Entropy) (msg : bytes)
    (pubKey : ChameleomPubKey) : Prop :=
  let o := ComputeHash e msg (pubX pubKey) (pubY pubKey) in
  VerifyHash msg (out_rX o) (out_rY o) (out_s o) (pubX pubKey) (pubY pubKey) (out_hX o)
  = true.

(** The root node before its hash is set, with the message [combined]:
    one or two sound nodes below it. *)
Definition skeleton_ok (combined : bytes) (root : MerkleNode) : Prop :=
  exists a t0 t1,
    root = Ptr a [] t0 t1 /\ sound t0 /\
    ((t1 = Nil /\ combined = Hash t0) \/
     (sound t1 /\ ptr_eq t0 t1 = false /\ combined = Hash t0 ++ Hash t1)).

(** Every step of [ParseTxValue] succeeds on [jsonStr] and gives
    [metaData]: the two JSON documents decode and every string is
    hexadecimal. *)
Definition decodes_to {JD : JSONDecoder} (jsonStr : string) (metaData : MetaData)
  : Prop :=
  exists value parseData,
    Unmarshal_envelope jsonStr = Some value /\
    Unmarshal_parseData value = Some parseData /\
    hex_DecodeString (parseData.RootHash parseData) = Some (RootHash metaData) /\
    hex_DecodeString (parseData.RandomNum parseData) = Some (RandomNum metaData) /\
    hex_DecodeString (parseData.PublicKey parseData) = Some (PublicKey metaData) /\
    map hex_DecodeString (parseData.Leaves parseData) = map Some (Leaves metaData).

(** Total weight of a queue. *)
Definition queue_weight (queue : list MerkleNode) : nat :=
  fold_right (fun n acc => weight n + acc) 0 queue.

(** A byte string as [big.Int.Bytes] writes it: no zero byte in front. *)
Definition no_leading_zero (b : bytes) : Prop := hd x01 b <> x00.

(** The digests of a level from those of the level below: neighbours are
    hashed together and an unpaired last digest is carried over. *)
Fixpoint pair_up (hashes : list bytes) : list bytes :=
  match hashes with
  | h0 :: h1 :: rest => getHash (h0 ++ h1) :: pair_up rest
  | _ => hashes
  end.

(** Levels are paired up until at most two digests remain. *)
Fixpoint reduce (fuel : nat) (hashes : list bytes) : list bytes :=
  match fuel with
  | O => hashes
  | S fuel' => if Nat.ltb 2 (length hashes) then reduce fuel' (pair_up hashes) else hashes
  end.

(** The message of the chameleon hash for a list of leaf digests: the one
    or two digests that remain, joined. *)
Definition root_message (leaves : list bytes) : bytes :=
  concat (reduce (length leaves) leaves).

(** A tree all of whose leaves lie [depth] levels down. *)
Fixpoint perfect (depth : nat) (n : MerkleNode) {struct n} : Prop :=
  match n with
  | Nil => False
  | Ptr _ _ l r =>
      match depth with
      | O => l = Nil /\ r = Nil
      | S d => perfect d l /\ perfect d r
      end
  end.

(** The two children of a node. *)
Definition children (n : MerkleNode) : list MerkleNode := [Left n; Right n].

(** The handle after the reading loop of lines 113-129 (and 195-211): the
    reads of [readLeaves], followed for what they leave unread. *)
Fixpoint afterRead (fuel : nat) (file : File) (config : MerkleConfig) : File :=
  match fuel with
  | O => file
  | S fuel' =>
      let '(buffer_n, err, file') := File_Read file (Z.to_nat (BlockSize config)) in
      match err with
      | Some (ReadFailure _) => file'
      | _ =>
          let n := Z.of_nat (length buffer_n) in
          if (n =? 0)%Z then file'
          else if (n <? BlockSize config)%Z then file'
               else afterRead fuel' file' config
      end
  end.

(** A number in 32 bytes, big-endian, with zero bytes in front: what
    [big.Int.FillBytes] writes into a buffer of 32 bytes. *)
Definition fixed32 (n : N) : bytes := repeat x00 (32 - length (Bytes n)) ++ Bytes n.

(** Metadata for the tree of the blocks [a], [b], [c] with the leaves in
    the order of the stream and every coordinate in 32 bytes. *)
Module Wide.

Definition randomNum : bytes :=
  fixed32 (rX Run.randomNum_abc) ++ fixed32 (rY Run.randomNum_abc)
          ++ Bytes (s Run.randomNum_abc).

Definition publicKey : bytes :=
  fixed32 (pubX Run.pubKey) ++ Bytes (pubY Run.pubKey).

Definition metaData : MetaData :=
  mkMetaData (Hash Run.root_abc) randomNum publicKey [Run.h_a; Run.h_b; Run.h_c].

End Wide.

(* ================================================================== *)
(** * Bytes and big integers *)

Lemma bytes_Equal_true (x y : bytes) : bytes_Equal x y = true <-> x = y.
Proof.
  unfold bytes_Equal. destruct (bytes_eq_dec x y); split; congruence.
Qed.

Lemma bytes_Equal_false (x y : bytes) : bytes_Equal x y = false <-> x <> y.
Proof.
  unfold bytes_Equal. destruct (bytes_eq_dec x y); split; congruence.
Qed.

Lemma existsb_bytes_In (x : bytes) (l : list bytes) :
  existsb (bytes_Equal x) l = true -> In x l.
Proof.
  intro H. apply existsb_exists in H. destruct H as (y & Hy & E).
  apply bytes_Equal_true in E. now subst.
Qed.

Lemma existsb_bytes_not_In (x : bytes) (l : list bytes) :
  existsb (bytes_Equal x) l = false -> ~ In x l.
Proof.
  intros H Hin. assert (E : existsb (bytes_Equal x) l = true).
  { apply existsb_exists. exists x. split; [exact Hin | now apply bytes_Equal_true]. }
  congruence.
Qed.

Lemma to_N_byte_of_N (n : N) : Byte.to_N (byte_of_N n) = (n mod 256)%N.
Proof.
  unfold byte_of_N.
  destruct (Byte.of_N (n mod 256)) as [b|] eqn:E.
  - now apply Byte.to_of_N.
  - apply Byte.of_N_None_iff in E.
    pose proof (N.mod_upper_bound n 256). lia.
Qed.

Lemma be_value_app (x y : bytes) :
  SHA256.be_value (x ++ y)
  = (SHA256.be_value x * 256 ^ N.of_nat (length y) + SHA256.be_value y)%N.
Proof.
  unfold SHA256.be_value.
  rewrite fold_left_app.
  generalize (fold_left (fun acc b => (acc * 256 + Byte.to_N b)%N) x 0%N) as v.
  induction y as [|b y IH]; intro v.
  - cbn. lia.
  - cbn [fold_left length]. rewrite IH, (IH (0 * 256 + Byte.to_N b)%N).
    rewrite Nat2N.inj_succ, N.pow_succ_r'. lia.
Qed.

Lemma be_value_cons (b : byte) (y : bytes) :
  SHA256.be_value (b :: y)
  = (Byte.to_N b * 256 ^ N.of_nat (length y) + SHA256.be_value y)%N.
Proof.
  change (b :: y) with ([b] ++ y). rewrite be_value_app.
  unfold SHA256.be_value at 1. cbn. reflexivity.
Qed.

Lemma Bytes_loop_value (fuel : nat) :
  forall (n : N) (acc : bytes),
    (N.size_nat n <= fuel)%nat ->
    SetBytes (Bytes_loop fuel n acc)
    = (n * 256 ^ N.of_nat (length acc) + SetBytes acc)%N.
Proof.
  unfold SetBytes.
  induction fuel as [|fuel IH]; intros n acc Hn.
  - destruct n as [|q]; cbn in *; [reflexivity | destruct q; cbn in Hn; lia].
  - cbn [Bytes_loop]. destruct (N.eqb_spec n 0) as [->|Hz].
    + cbn. reflexivity.
    + rewrite IH.
      * rewrite be_value_cons, to_N_byte_of_N.
        cbn [length]. rewrite Nat2N.inj_succ, N.pow_succ_r'.
        rewrite (N.div_mod n 256) at 3 by lia. lia.
      * assert (Hs : (N.size_nat (n / 256) < N.size_nat n)%nat).
        { destruct n as [|q]; [congruence|].
          change 256%N with (2 ^ 8)%N. rewrite <- N.shiftr_div_pow2.
          destruct q as [q|q|]; cbn; try lia;
            repeat (destruct q as [q|q|]; cbn; try lia). }
        lia.
Qed.

(** [SetBytes] undoes [Bytes]. *)
Lemma SetBytes_Bytes (n : N) : SetBytes (Bytes n) = n.
Proof.
  unfold Bytes. rewrite Bytes_loop_value by lia.
  cbn. unfold SetBytes, SHA256.be_value. cbn. lia.
Qed.

Lemma be_bytes_length (k : nat) (n : N) : length (SHA256.be_bytes k n) = k.
Proof.
  revert n. induction k as [|k IH]; intro n; cbn; [reflexivity|].
  rewrite length_app, IH. cbn. lia.
Qed.

(** A digest has 32 bytes. *)
Lemma getHash_length (data : bytes) : length (getHash data) = 32.
Proof.
  unfold getHash, SHA256.Sum256, SHA256.digest.
  repeat rewrite length_app. repeat rewrite be_bytes_length. reflexivity.
Qed.

Lemma getHash_nonempty (data : bytes) : getHash data <> [].
Proof.
  intro E. pose proof (getHash_length data) as L. rewrite E in L. discriminate.
Qed.

#[global] Opaque getHash.

(** The digests of FIPS 180-4 for [abc], for the empty message and for
    the message of 56 bytes that takes two blocks. *)
Example getHash_abc :
  hex_EncodeToString (getHash (str "abc"))
  = "ba7816bf8f01cfea414140de5dae2223b00361a396177a9cb410ff61f20015ad"%string.
Proof. vm_compute. reflexivity. Qed.

Example getHash_empty :
  hex_EncodeToString (getHash [])
  = "e3b0c44298fc1c149afbf4c8996fb92427ae41e4649b934ca495991b7852b855"%string.
Proof. vm_compute. reflexivity. Qed.

Example getHash_two_blocks :
  hex_EncodeToString
    (getHash (str "abcdbcdecdefdefgefghfghighijhijkijkljklmklmnlmnomnopnopq"))
  = "248d6a61d20638b8e5c026930c3e6039a33ce45964ff2167f6ecedd419db06c1"%string.
Proof. vm_compute. reflexivity. Qed.

(** The generator of the small curve has order [n]. *)
Example SmallCurve_order :
  SmallCurve.mul SmallCurve.n SmallCurve.G = None /\
  SmallCurve.mul (SmallCurve.n - 1) SmallCurve.G = Some (2, 60014)%N.
Proof. split; vm_compute; reflexivity. Qed.

(** On the small curve a hash is accepted unless the commitment is the
    point at infinity. *)
Lemma SmallCurve_accepted (e : SmallCurve.draw) (msg : bytes) (pubKey : ChameleomPubKey) :
  accepted (CH := SmallCurveHash) e msg pubKey <->
  SmallCurve.commitment msg (fst (SmallCurve.xy (SmallCurve.mul (fst e) SmallCurve.G)))
                        (snd e) (pubX pubKey) (pubY pubKey) <> None.
Proof.
  unfold accepted. cbn [ComputeHash VerifyHash SmallCurveHash].
  unfold SmallCurve.Hash_, SmallCurve.Verify. cbn [out_rX out_rY out_s out_hX].
  destruct (SmallCurve.commitment _ _ _ _ _) as [[x y]|].
  - cbn. rewrite N.eqb_refl. split; congruence.
  - split; [discriminate | congruence].
Qed.

(* ================================================================== *)
(** * The build loop *)

Lemma pairs_ind (A : Type) (P : list A -> Prop) :
  P [] -> (forall a, P [a]) -> (forall a b l, P l -> P (a :: b :: l)) ->
  forall l, P l.
Proof.
  intros H0 H1 H2.
  assert (H : forall l, P l /\ forall a, P (a :: l)).
  { induction l as [|x l [IHl IHl']]; split; auto. }
  intro l. apply H.
Qed.

Lemma sound_not_nil (n : MerkleNode) : sound n -> n <> Nil.
Proof. destruct n; cbn; [tauto | congruence]. Qed.

Lemma sound_hash_nonempty (n : MerkleNode) : sound n -> Hash n <> [].
Proof. destruct n; cbn; tauto. Qed.

Lemma ptr_eq_addr (x y : MerkleNode) :
  x <> Nil -> y <> Nil -> ptr_eq x y = Nat.eqb (addr x) (addr y).
Proof. destruct x, y; cbn; congruence. Qed.

Lemma level_ok_mono (heap heap' : nat) (nodes : list MerkleNode) :
  heap <= heap' -> level_ok heap nodes -> level_ok heap' nodes.
Proof.
  intros Hle (Hs & Hd & Hb). repeat split; auto.
  eapply Forall_impl; [|exact Hb]. cbn. intros; lia.
Qed.

Lemma newLevel_ok (nodes : list MerkleNode) :
  forall heap, level_ok heap nodes ->
    level_ok (snd (newLevel nodes heap)) (fst (newLevel nodes heap)) /\
    heap <= snd (newLevel nodes heap) /\
    (forall n, In n (fst (newLevel nodes heap)) -> heap <= addr n \/ In n nodes).
Proof.
  induction nodes as [|x|x y rest IH] using pairs_ind; intros heap Hok.
  - cbn. split; [exact Hok|]. split; [lia|]. intros n [].
  - cbn. split; [exact Hok|]. split; [lia|]. intros n Hn. now right.
  - cbn [newLevel].
    destruct Hok as (Hs & Hd & Hb).
    inversion Hs as [|? ? Hsx Hs']; subst. inversion Hs' as [|? ? Hsy Hsr]; subst.
    inversion Hb as [|? ? Hbx Hb']; subst. inversion Hb' as [|? ? Hby Hbr]; subst.
    cbn [map] in Hd.
    inversion Hd as [|? ? Hnx Hd']; subst. inversion Hd' as [|? ? Hny Hdr]; subst.
    assert (Hrest : level_ok (S heap) rest).
    { apply level_ok_mono with heap; [lia|]. repeat split; auto. }
    specialize (IH (S heap) Hrest).
    destruct (newLevel rest (S heap)) as [level heap'] eqn:E.
    cbn [fst snd] in *. destruct IH as ((Ls & Ld & Lb) & Hle & Hin).
    repeat split.
    + constructor; [|exact Ls]. cbn [sound]. split; [apply getHash_nonempty|].
      right. repeat split; auto.
      rewrite ptr_eq_addr by (apply sound_not_nil; assumption).
      apply Nat.eqb_neq. intro Heq. apply Hnx. rewrite Heq. now left.
    + cbn [map addr]. constructor; [|exact Ld].
      intro Hin'. apply in_map_iff in Hin'. destruct Hin' as (n & Hn & Hnin).
      destruct (Hin n Hnin) as [Hge|Hold]; [lia|].
      rewrite Forall_forall in Hbr. specialize (Hbr n Hold). lia.
    + constructor; [cbn; lia | exact Lb].
    + lia.
    + intros n [<-|Hn]; [left; cbn; lia|].
      destruct (Hin n Hn) as [Hge|Hold]; [left; lia | right; now right; right].
Qed.

Lemma newLevel_length (nodes : list MerkleNode) :
  forall heap,
    length nodes <= 2 * length (fst (newLevel nodes heap)) <= length nodes + 1.
Proof.
  induction nodes as [|x|x y rest IH] using pairs_ind; intro heap.
  - cbn. lia.
  - cbn. lia.
  - cbn [newLevel]. specialize (IH (S heap)).
    destruct (newLevel rest (S heap)) as [level heap']. cbn [fst length] in *. lia.
Qed.

(** The loop [for len(nodes) > 2] ends with one or two nodes. *)
Lemma buildLevels_length (fuel : nat) :
  forall nodes heap,
    length nodes <= fuel -> nodes <> [] ->
    1 <= length (fst (buildLevels fuel nodes heap)) <= 2.
Proof.
  induction fuel as [|fuel IH]; intros nodes heap Hf Hne.
  - destruct nodes; [congruence | cbn in Hf; lia].
  - cbn [buildLevels]. destruct (Nat.ltb_spec 2 (length nodes)) as [Hlt|Hge].
    + pose proof (newLevel_length nodes heap) as Hl.
      destruct (newLevel nodes heap) as [level heap'] eqn:E. cbn [fst] in Hl.
      apply IH; [lia|]. intros ->. cbn in Hl. lia.
    + cbn [fst]. destruct nodes; [congruence | cbn in *; lia].
Qed.

Lemma buildLevels_ok (fuel : nat) :
  forall nodes heap,
    level_ok heap nodes ->
    level_ok (snd (buildLevels fuel nodes heap)) (fst (buildLevels fuel nodes heap)).
Proof.
  induction fuel as [|fuel IH]; intros nodes heap Hok; [exact Hok|].
  cbn [buildLevels]. destruct (Nat.ltb 2 (length nodes)); [|exact Hok].
  pose proof (newLevel_ok _ _ Hok) as (Hok' & _).
  destruct (newLevel nodes heap) as [level heap']. apply IH. exact Hok'.
Qed.

Lemma chunks_fuel (size : nat) :
  forall fuel1 fuel2 data,
    0 < size -> length data <= fuel1 -> length data <= fuel2 ->
    chunks fuel1 size data = chunks fuel2 size data.
Proof.
  induction fuel1 as [|fuel1 IH]; intros fuel2 data Hs H1 H2.
  - destruct data; [|cbn in H1; lia]. destruct fuel2; reflexivity.
  - destruct data as [|x data]; [destruct fuel2; reflexivity|].
    destruct fuel2 as [|fuel2]; [cbn in H2; lia|].
    cbn [chunks]. f_equal.
    apply IH; auto; rewrite length_skipn; cbn [length] in *; lia.
Qed.

Lemma leafNodes_fst_cons (leaf : bytes) (rest : list bytes) (heap : nat) :
  fst (leafNodes (leaf :: rest) heap)
  = Ptr heap leaf Nil Nil :: fst (leafNodes rest (S heap)).
Proof. cbn. destruct (leafNodes rest (S heap)). reflexivity. Qed.

Lemma leafNodes_snd (leaves : list bytes) :
  forall heap, snd (leafNodes leaves heap) = heap + length leaves.
Proof.
  induction leaves as [|l rest IH]; intro heap; cbn; [lia|].
  specialize (IH (S heap)). destruct (leafNodes rest (S heap)). cbn in *. lia.
Qed.

Lemma leafNodes_length (leaves : list bytes) :
  forall heap, length (fst (leafNodes leaves heap)) = length leaves.
Proof.
  induction leaves as [|l rest IH]; intro heap; [reflexivity|].
  rewrite leafNodes_fst_cons. cbn. now rewrite IH.
Qed.

(** The reading loop makes one leaf per block of the stream, in order:
    the fuel it is given is never used up. *)
Lemma readLeaves_blocks (fuel : nat) :
  forall data config heap nodes,
    (0 < BlockSize config)%Z -> length data < fuel ->
    let blocks := stream_blocks (Z.to_nat (BlockSize config)) data in
    readLeaves fuel (mkFile data None) config heap nodes
    = Return (nodes ++ fst (leafNodes (map getHash blocks) heap),
              heap + length blocks).
Proof.
  unfold stream_blocks.
  induction fuel as [|fuel IH]; intros data config heap nodes Hbs Hf; [lia|].
  cbn [readLeaves]. unfold File_Read. cbn [fault unread].
  destruct (Z.to_nat (BlockSize config)) as [|k] eqn:Ek; [lia|].
  destruct data as [|x data].
  - cbn. rewrite app_nil_r, Nat.add_0_r. reflexivity.
  - set (size := S k) in *. set (d := x :: data) in *.
    assert (Hlen : length (firstn size d) = Nat.min size (length d))
      by apply length_firstn.
    destruct (Z.eqb_spec (Z.of_nat (length (firstn size d))) 0) as [E0|_].
    { rewrite Hlen in E0. subst size d. cbn [length] in E0. lia. }
    replace (chunks (length d) size d)
      with (firstn size d :: chunks (length d - 1) size (skipn size d))
      by (subst d; cbn [length];
          replace (S (length data) - 1) with (length data) by lia; reflexivity).
    cbn [map]. rewrite leafNodes_fst_cons. cbn [length].
    destruct (Z.ltb_spec (Z.of_nat (length (firstn size d))) (BlockSize config))
      as [Hshort|Hfull].
    + assert (Hs : skipn size d = []) by (apply skipn_all2; lia).
      rewrite Hs. destruct (length d - 1); cbn; do 2 f_equal; lia.
    + rewrite IH; [| assumption | rewrite length_skipn; subst d; cbn [length] in *; lia].
      rewrite Ek. fold size.
      rewrite (@chunks_fuel size (length (skipn size d)) (length d - 1));
        [| lia | lia | rewrite length_skipn; lia].
      rewrite <- app_assoc. cbn [app]. do 2 f_equal. lia.
Qed.

Lemma stream_blocks_nonempty (size : nat) (data : bytes) :
  data <> [] -> stream_blocks size data <> [].
Proof. destruct data; [congruence|]. unfold stream_blocks. cbn. congruence. Qed.

Lemma leafNodes_ok (leaves : list bytes) :
  forall heap, Forall (fun l => l <> []) leaves ->
    forall nodes, level_ok heap nodes ->
      level_ok (heap + length leaves) (nodes ++ fst (leafNodes leaves heap)).
Proof.
  induction leaves as [|l rest IH]; intros heap Hne nodes Hok.
  - cbn. rewrite app_nil_r, Nat.add_0_r. exact Hok.
  - rewrite leafNodes_fst_cons. inversion Hne as [|? ? Hl Hrest]; subst.
    replace (nodes ++ Ptr heap l Nil Nil :: fst (leafNodes rest (S heap)))
      with ((nodes ++ [Ptr heap l Nil Nil]) ++ fst (leafNodes rest (S heap)))
      by (rewrite <- app_assoc; reflexivity).
    replace (heap + length (l :: rest)) with (S heap + length rest) by (cbn; lia).
    apply IH; [exact Hrest|].
    destruct Hok as (Hs & Hd & Hb). repeat split.
    + apply Forall_app. split; [exact Hs|]. constructor; [|constructor].
      cbn. split; [exact Hl | left; auto].
    + rewrite map_app. cbn [map addr]. apply NoDup_app; [exact Hd | repeat constructor; intros [] |].
      intros a Ha [<-|[]]. apply in_map_iff in Ha. destruct Ha as (n & Hn & Hin).
      rewrite Forall_forall in Hb. specialize (Hb n Hin). lia.
    + apply Forall_app. split.
      * eapply Forall_impl; [|exact Hb]. cbn. intros; lia.
      * constructor; [cbn; lia | constructor].
Qed.

Lemma level_ok_nil (heap : nat) : level_ok heap [].
Proof. repeat split; constructor. Qed.

Lemma readLeaves_ok (fuel : nat) :
  forall file config heap nodes res,
    level_ok heap nodes ->
    readLeaves fuel file config heap nodes = Return res ->
    level_ok (snd res) (fst res).
Proof.
  induction fuel as [|fuel IH]; intros file config heap nodes res Hok Hr.
  - cbn in Hr. inversion Hr; subst. exact Hok.
  - cbn [readLeaves] in Hr.
    destruct (File_Read file (Z.to_nat (BlockSize config))) as [[buf err] file'].
    assert (Hstep : forall r,
      (let n := Z.of_nat (length buf) in
       if (n =? 0)%Z then Return (nodes, heap)
       else if (n <? BlockSize config)%Z
            then Return (nodes ++ [Ptr heap (getHash buf) Nil Nil], S heap)
            else readLeaves fuel file' config (S heap)
                            (nodes ++ [Ptr heap (getHash buf) Nil Nil])) = Return r ->
      level_ok (snd r) (fst r)).
    { intros r Hr'. cbn zeta in Hr'.
      assert (Hok' : level_ok (S heap) (nodes ++ [Ptr heap (getHash buf) Nil Nil])).
      { pose proof (@leafNodes_ok [getHash buf] heap) as H.
        cbn in H. replace (heap + 1) with (S heap) in H by lia.
        apply H; [|exact Hok]. constructor; [apply getHash_nonempty | constructor]. }
      destruct (Z.of_nat (length buf) =? 0)%Z.
      - inversion Hr'; subst. exact Hok.
      - destruct (Z.of_nat (length buf) <? BlockSize config)%Z.
        + inversion Hr'; subst. exact Hok'.
        + eapply IH; [exact Hok' | exact Hr']. }
    destruct err as [[|e]|]; [apply Hstep; exact Hr | discriminate | apply Hstep; exact Hr].
Qed.

Lemma topNode_ok (nodes : list MerkleNode) (heap : nat) (combined : bytes)
    (root : MerkleNode) :
  level_ok heap nodes ->
  topNode nodes heap = Return (combined, root) ->
  skeleton_ok combined root.
Proof.
  intros (Hs & Hd & _) Ht. unfold topNode in Ht.
  destruct nodes as [|n0 [|n1 rest]].
  - cbn in Ht. discriminate.
  - cbn in Ht. inversion Ht; subst. inversion Hs; subst.
    exists heap, n0, Nil. repeat split; auto.
  - cbn in Ht. inversion Ht; subst.
    inversion Hs as [|? ? H0 Hs']; subst. inversion Hs' as [|? ? H1 _]; subst.
    exists heap, n0, n1. repeat split; auto. right. repeat split; auto.
    rewrite ptr_eq_addr by (apply sound_not_nil; assumption).
    cbn [map] in Hd. inversion Hd as [|? ? Hn _]; subst.
    apply Nat.eqb_neq. intro E. apply Hn. rewrite E. now left.
Qed.

(** Whatever the skeleton loop returns is a root over sound nodes. *)
Lemma buildSkeleton_ok (heap : nat) (file : File) (config : MerkleConfig)
    (combined : bytes) (root : MerkleNode) :
  buildSkeleton heap file config = Return (combined, root) ->
  skeleton_ok combined root.
Proof.
  unfold buildSkeleton. destruct (BlockSize config <? 0)%Z; [discriminate|].
  destruct (readLeaves (S (length (unread file))) file config heap []) as [leaves| | |] eqn:E;
    cbn [bind]; try discriminate.
  intro Ht. eapply topNode_ok; [|exact Ht].
  apply buildLevels_ok. eapply readLeaves_ok; [apply level_ok_nil | exact E].
Qed.

Lemma topNode_returns (nodes : list MerkleNode) (heap : nat) :
  1 <= length nodes <= 2 -> exists top, topNode nodes heap = Return top.
Proof.
  intro H. destruct nodes as [|n0 [|n1 [|n2 rest]]]; cbn in H; try lia;
    eexists; reflexivity.
Qed.

(** On a readable, non-empty stream the skeleton loop returns. *)
Lemma buildSkeleton_returns (heap : nat) (file : File) (config : MerkleConfig) :
  fault file = None -> unread file <> [] -> (0 < BlockSize config)%Z ->
  exists top, buildSkeleton heap file config = Return top.
Proof.
  intros Hf Hne Hbs. unfold buildSkeleton.
  destruct (Z.ltb_spec (BlockSize config) 0); [lia|].
  destruct file as [data flt]. cbn in Hf, Hne. subst flt. cbn [unread].
  rewrite readLeaves_blocks by (auto; lia). cbn [bind fst snd app].
  apply topNode_returns. apply buildLevels_length; [lia|].
  rewrite <- length_zero_iff_nil, leafNodes_length, length_map, length_zero_iff_nil.
  now apply stream_blocks_nonempty.
Qed.

(* ================================================================== *)
(** * The search of [GenerateMerkleProof] *)

Lemma dfs_route (target : bytes) (node : MerkleNode) :
  forall st,
    dfs target node st
    = match route target node with
      | Some p => (true, mkDfs (path st ++ p) (siblings st ++ collect (path st ++ p)))
      | None => (false, st)
      end.
Proof.
  induction node as [|a h l IHl r IHr]; intro st; [reflexivity|].
  cbn [dfs route]. destruct (bytes_Equal h target); [reflexivity|].
  rewrite IHl. cbn [path siblings]. destruct (route target l) as [p|].
  - rewrite <- app_assoc. reflexivity.
  - rewrite IHr. cbn [path siblings]. destruct (route target r) as [p|].
    + rewrite <- app_assoc. reflexivity.
    + cbn [path siblings]. rewrite removelast_last. destruct st; reflexivity.
Qed.

Lemma GenerateMerkleProof_route (root : MerkleNode) (target : bytes) :
  GenerateMerkleProof root target
  = match route target root with
    | Some p => collect p
    | None => []
    end.
Proof.
  unfold GenerateMerkleProof. rewrite dfs_route.
  destruct (route target root); reflexivity.
Qed.

Lemma route_head (target : bytes) (node : MerkleNode) (p : list MerkleNode) :
  route target node = Some p -> exists tl, p = node :: tl.
Proof.
  destruct node as [|a h l r]; cbn; [discriminate|].
  destruct (bytes_Equal h target); [intros [= <-]; eauto|].
  destruct (route target l); [intros [= <-]; eauto|].
  destruct (route target r); [intros [= <-]; eauto | discriminate].
Qed.

Lemma route_finds (target : bytes) (node : MerkleNode) :
  In target (subtree_hashes node) -> exists p, route target node = Some p.
Proof.
  induction node as [|a h l IHl r IHr]; cbn; [tauto|].
  intros [E|Hin].
  - apply bytes_Equal_true in E. rewrite E. eauto.
  - destruct (bytes_Equal h target); [eauto|].
    apply in_app_or in Hin. destruct (route target l) as [p|]; [eauto|].
    destruct Hin as [Hin|Hin]; [destruct (IHl Hin); discriminate|].
    destruct (IHr Hin) as [p ->]. eauto.
Qed.

Lemma ptr_eq_refl (n : MerkleNode) : ptr_eq n n = true.
Proof. destruct n; cbn; [reflexivity | apply Nat.eqb_refl]. Qed.

Lemma ptr_eq_sym (x y : MerkleNode) : ptr_eq x y = ptr_eq y x.
Proof. destruct x, y; cbn; auto using Nat.eqb_sym. Qed.

Lemma is_nil_sound (n : MerkleNode) : sound n -> is_nil n = false.
Proof. destruct n; cbn; tauto. Qed.

Lemma length_eqb_0_false (h : bytes) : h <> [] -> Nat.eqb (length h) 0 = false.
Proof. destruct h; [congruence | reflexivity]. Qed.

Lemma collect_step (parent next : MerkleNode) (tl : list MerkleNode) :
  collect (parent :: next :: tl)
  = (if negb (is_nil (Left parent)) && negb (ptr_eq (Left parent) next)
     then Hash (Left parent) else [])
    :: (if negb (is_nil (Right parent)) && negb (ptr_eq (Right parent) next)
        then Hash (Right parent) else [])
    :: collect (next :: tl).
Proof. reflexivity. Qed.

Lemma climb_step (slot0 slot1 : bytes) (rest : list bytes) (currentHash : bytes) :
  climb (slot0 :: slot1 :: rest) currentHash
  = getHash (if Nat.eqb (length slot0) 0
             then climb rest currentHash ++ slot1
             else slot0 ++ climb rest currentHash).
Proof. reflexivity. Qed.

(** Walking up the slots of a path gives back the hash of its first
    node. *)
Lemma climb_route (target : bytes) (node : MerkleNode) :
  sound node ->
  forall p, route target node = Some p -> climb (collect p) target = Hash node.
Proof.
  induction node as [|a h l IHl r IHr]; intros Hs p Hr; [destruct Hs|].
  cbn [route] in Hr. destruct (bytes_Equal h target) eqn:E.
  - inversion Hr; subst. apply bytes_Equal_true in E. cbn. congruence.
  - destruct Hs as (Hne & [[-> ->] | (Hh & Hlr & Hsl & Hsr)]); [discriminate|].
    destruct (route target l) as [pl|] eqn:El.
    + inversion Hr; subst p. destruct (route_head _ _ _ El) as [tl ->].
      rewrite collect_step, climb_step. cbn [Left Right].
      rewrite (is_nil_sound _ Hsr), (is_nil_sound _ Hsl), ptr_eq_refl.
      rewrite (ptr_eq_sym r l), Hlr. cbn [negb andb length Nat.eqb].
      rewrite (IHl Hsl _ eq_refl). cbn [Hash]. congruence.
    + destruct (route target r) as [pr|] eqn:Er; [|discriminate].
      inversion Hr; subst p. destruct (route_head _ _ _ Er) as [tl ->].
      rewrite collect_step, climb_step. cbn [Left Right].
      rewrite (is_nil_sound _ Hsr), (is_nil_sound _ Hsl), ptr_eq_refl, Hlr.
      cbn [negb andb].
      rewrite (length_eqb_0_false _ (sound_hash_nonempty _ Hsl)).
      rewrite (IHr Hsr _ eq_refl). cbn [Hash]. congruence.
Qed.

Lemma collect_even (p : list MerkleNode) : Nat.even (length (collect p)) = true.
Proof.
  induction p as [|x [|y tl] IH]; try reflexivity.
  rewrite collect_step. exact IH.
Qed.

(* ================================================================== *)
(** * The loop of [VerifyMerkleProof] *)

Lemma index_app_here (A : Type) (pre : list A) (x : A) (post : list A) :
  index (pre ++ x :: post) (Z.of_nat (length pre)) = Return x.
Proof.
  unfold index. destruct (Z.ltb_spec (Z.of_nat (length pre)) 0); [lia|].
  rewrite Nat2Z.id, nth_error_app2, Nat.sub_diag by lia. reflexivity.
Qed.

Lemma index_app_next (A : Type) (pre : list A) (x y : A) (post : list A) :
  index (pre ++ x :: y :: post) (Z.of_nat (length pre) + 1) = Return y.
Proof.
  replace (pre ++ x :: y :: post) with ((pre ++ [x]) ++ y :: post)
    by (rewrite <- app_assoc; reflexivity).
  replace (Z.of_nat (length pre) + 1)%Z with (Z.of_nat (length (pre ++ [x])))
    by (rewrite length_app; cbn; lia).
  apply index_app_here.
Qed.

(** The fuel of the loop does not matter once it covers the index. *)
Lemma verifyLoop_fuel (merkleProof : list bytes) (fuel1 : nat) :
  forall fuel2 i currentHash,
    (i < 2 * Z.of_nat fuel1 + 2)%Z -> (i < 2 * Z.of_nat fuel2 + 2)%Z ->
    verifyLoop fuel1 i merkleProof currentHash
    = verifyLoop fuel2 i merkleProof currentHash.
Proof.
  induction fuel1 as [|fuel1 IH]; intros fuel2 i cur H1 H2.
  - destruct fuel2; [reflexivity|]. cbn [verifyLoop].
    destruct (Z.geb_spec i 2); [lia | reflexivity].
  - destruct fuel2 as [|fuel2].
    + cbn [verifyLoop]. destruct (Z.geb_spec i 2); [lia | reflexivity].
    + cbn [verifyLoop]. destruct (Z.geb_spec i 2); [|reflexivity].
      destruct (index merkleProof i) as [p_i| | |]; cbn [bind]; try reflexivity.
      destruct (Nat.eqb (length p_i) 0).
      * destruct (index merkleProof (i + 1)); cbn [bind]; try reflexivity.
        apply IH; lia.
      * cbn [bind]. apply IH; lia.
Qed.

Lemma verifyLoop_climb (tail : list bytes) :
  Nat.even (length tail) = true ->
  forall pre currentHash fuel,
    2 <= length pre -> length pre + length tail <= fuel ->
    verifyLoop fuel (Z.of_nat (length pre + length tail) - 2) (pre ++ tail) currentHash
    = verifyLoop fuel (Z.of_nat (length pre) - 2) (pre ++ tail) (climb tail currentHash).
Proof.
  induction tail as [|x|x y rest IH] using pairs_ind; intros Hev pre cur fuel Hpre Hf.
  - cbn [length climb]. rewrite Nat.add_0_r. reflexivity.
  - discriminate.
  - cbn [length Nat.even] in Hev.
    replace (pre ++ x :: y :: rest) with ((pre ++ [x; y]) ++ rest)
      by (rewrite <- app_assoc; reflexivity).
    replace (length pre + length (x :: y :: rest))
      with (length (pre ++ [x; y]) + length rest)
      by (rewrite length_app; cbn [length]; lia).
    rewrite IH by (auto; rewrite length_app; cbn [length] in *; lia).
    replace (Z.of_nat (length (pre ++ [x; y])) - 2)%Z with (Z.of_nat (length pre))
      by (rewrite length_app; cbn [length]; lia).
    rewrite <- app_assoc. cbn [app].
    destruct fuel as [|fuel]; [cbn [length] in Hf; lia|].
    cbn [length] in Hf.
    transitivity (verifyLoop fuel (Z.of_nat (length pre) - 2)
                             (pre ++ x :: y :: rest) (climb (x :: y :: rest) cur));
      [|apply verifyLoop_fuel; lia].
    rewrite climb_step. cbn [verifyLoop].
    destruct (Z.geb_spec (Z.of_nat (length pre)) 2); [|lia].
    rewrite index_app_here. cbn [bind].
    destruct (Nat.eqb (length x) 0).
    + rewrite index_app_next. reflexivity.
    + reflexivity.
Qed.

(** The loop on a proof of a whole number of pairs. *)
Lemma verifyLoop_pairs (slot0 slot1 : bytes) (tail : list bytes) (target : bytes) :
  Nat.even (length tail) = true ->
  let merkleProof := slot0 :: slot1 :: tail in
  verifyLoop (length merkleProof) (Z.of_nat (length merkleProof) - 2) merkleProof target
  = Return (climb tail target).
Proof.
  intros Hev merkleProof. subst merkleProof.
  change (slot0 :: slot1 :: tail) with ([slot0; slot1] ++ tail).
  rewrite length_app.
  rewrite verifyLoop_climb by (auto; cbn [length]; lia).
  cbn [length Nat.add verifyLoop]. reflexivity.
Qed.

(* ================================================================== *)
(** * The traversal of [GetAllLeavesHashes] *)

Lemma leaf_hashes_subtree (n : MerkleNode) (h : bytes) :
  In h (leaf_hashes n) -> In h (subtree_hashes n).
Proof.
  induction n as [|a x l IHl r IHr]; cbn [leaf_hashes subtree_hashes]; [tauto|].
  destruct l as [|la lh ll lr].
  - destruct r as [|ra rh rl rr].
    + cbn. tauto.
    + intro H. right. apply in_or_app. apply in_app_or in H. tauto.
  - intro H. right. apply in_or_app. apply in_app_or in H. tauto.
Qed.

Lemma leaf_hashes_child (a : nat) (h : bytes) (l r : MerkleNode) (x : bytes) :
  In x (leaf_hashes l) \/ In x (leaf_hashes r) -> In x (leaf_hashes (Ptr a h l r)).
Proof.
  cbn [leaf_hashes]. destruct l as [|la lh ll lr].
  - destruct r as [|ra rh rl rr]; [cbn; tauto|]. intro H. apply in_or_app. tauto.
  - intro H. apply in_or_app. tauto.
Qed.

(** Every hash the traversal adds is the hash of a leaf reachable from
    the queue. *)
Lemma traverse_in (fuel : nat) :
  forall queue leafHashes x,
    Forall (fun n => n <> Nil) queue ->
    In x (traverse fuel queue leafHashes) ->
    In x leafHashes \/ exists n, In n queue /\ In x (leaf_hashes n).
Proof.
  induction fuel as [|fuel IH]; intros queue acc x Hq Hin; [left; exact Hin|].
  destruct queue as [|node queue]; [left; exact Hin|].
  cbn [traverse] in Hin.
  inversion Hq as [|? ? Hnode Hrest]; subst.
  destruct node as [|a h l r]; [congruence|]. cbn [Left Right Hash] in Hin.
  apply IH in Hin.
  - destruct Hin as [Hacc | (n & Hn & Hx)].
    + destruct l, r; cbn in Hacc; auto.
      apply in_app_or in Hacc. destruct Hacc as [Hacc|[<-|[]]]; auto.
      right. exists (Ptr a h Nil Nil). split; [now left | now left].
    + right.
      assert (Hcases : In n queue \/ (n = l /\ l <> Nil) \/ (n = r /\ r <> Nil)).
      { destruct l, r; cbn in Hn; repeat (apply in_app_or in Hn; destruct Hn as [Hn|Hn]);
          try (destruct Hn as [<-|[]]); auto;
          right; [right | left | left | right]; split; congruence. }
      destruct Hcases as [Hold | [[-> _] | [-> _]]].
      * exists n. split; [now right | exact Hx].
      * exists (Ptr a h l r). split; [now left | apply leaf_hashes_child; tauto].
      * exists (Ptr a h l r). split; [now left | apply leaf_hashes_child; tauto].
  - destruct l, r; cbn; repeat (apply Forall_app; split); auto;
      constructor; auto; congruence.
Qed.

Lemma GetAllLeavesHashes_below (a : nat) (h : bytes) (l r : MerkleNode) (x : bytes) :
  l <> Nil ->
  In x (GetAllLeavesHashes (Ptr a h l r)) -> In x (hashes_below (Ptr a h l r)).
Proof.
  intros Hl Hin. unfold GetAllLeavesHashes in Hin. cbn [is_nil] in Hin.
  apply traverse_in in Hin; [|constructor; [congruence | constructor]].
  destruct Hin as [[] | (n & [<-|[]] & Hx)].
  unfold hashes_below. cbn [Left Right].
  cbn [leaf_hashes] in Hx. destruct l as [|la lh ll lr]; [congruence|].
  apply in_app_or in Hx. apply in_or_app.
  destruct Hx as [Hx|Hx]; [left | right]; apply leaf_hashes_subtree; exact Hx.
Qed.

Lemma leaf_hashes_node (a : nat) (h : bytes) (l r : MerkleNode) :
  leaf_hashes (Ptr a h l r)
  = if is_nil l && is_nil r then [h] else leaf_hashes l ++ leaf_hashes r.
Proof. destruct l, r; reflexivity. Qed.

Lemma queue_weight_app (q1 q2 : list MerkleNode) :
  queue_weight (q1 ++ q2) = queue_weight q1 + queue_weight q2.
Proof.
  unfold queue_weight. induction q1 as [|n q1 IH]; cbn [app fold_right]; [reflexivity|].
  rewrite IH. lia.
Qed.

(** With fuel for every node reachable from the queue, the traversal
    adds the hash of every leaf reachable from it, once each. *)
Lemma traverse_permutation (fuel : nat) :
  forall queue leafHashes,
    Forall (fun n => n <> Nil) queue -> queue_weight queue <= fuel ->
    Permutation (traverse fuel queue leafHashes)
                (leafHashes ++ flat_map leaf_hashes queue).
Proof.
  induction fuel as [|fuel IH]; intros queue acc Hq Hw.
  - destruct queue as [|[|a h l r] queue].
    + cbn. now rewrite app_nil_r.
    + inversion Hq; congruence.
    + cbn in Hw. lia.
  - destruct queue as [|node queue]; [cbn; now rewrite app_nil_r|].
    inversion Hq as [|? ? Hnode Hrest]; subst.
    destruct node as [|a h l r]; [congruence|].
    cbn [traverse Left Right Hash flat_map]. rewrite leaf_hashes_node.
    cbn [queue_weight fold_right weight] in Hw. fold (queue_weight queue) in Hw.
    destruct l as [|la lh ll lr]; destruct r as [|ra rh rl rr]; cbn [is_nil andb].
    + rewrite IH by (auto; lia). rewrite <- app_assoc. reflexivity.
    + rewrite IH.
      * rewrite flat_map_app. cbn [flat_map leaf_hashes app]. rewrite app_nil_r.
        apply Permutation_app_head. apply Permutation_app_comm.
      * apply Forall_app. split; [exact Hrest | constructor; [congruence | constructor]].
      * rewrite queue_weight_app. unfold queue_weight in *.
        cbn [fold_right weight] in *. lia.
    + rewrite IH.
      * rewrite flat_map_app. cbn [flat_map leaf_hashes app]. rewrite !app_nil_r.
        apply Permutation_app_head. apply Permutation_app_comm.
      * apply Forall_app. split; [exact Hrest | constructor; [congruence | constructor]].
      * rewrite queue_weight_app. unfold queue_weight in *.
        cbn [fold_right weight] in *. lia.
    + rewrite IH.
      * rewrite !flat_map_app. cbn [flat_map app]. rewrite !app_nil_r.
        apply Permutation_app_head.
        rewrite <- app_assoc. apply Permutation_app_comm.
      * repeat (apply Forall_app; split); auto; constructor; try congruence; constructor.
      * rewrite !queue_weight_app. unfold queue_weight in *.
        cbn [fold_right weight] in *. lia.
Qed.

(** [GetAllLeavesHashes] gives the hashes of the leaves, each once, in
    some order. *)
Lemma GetAllLeavesHashes_permutation (root : MerkleNode) :
  Permutation (GetAllLeavesHashes root) (leaf_hashes root).
Proof.
  unfold GetAllLeavesHashes. destruct root as [|a h l r]; [reflexivity|].
  cbn [is_nil]. rewrite traverse_permutation.
  - cbn [flat_map app]. now rewrite app_nil_r.
  - constructor; [congruence | constructor].
  - cbn [queue_weight fold_right]. lia.
Qed.

(* ================================================================== *)
(** * Verification of a generated proof *)

Section Soundness.
Context {CH : ChameleonHash}.

Lemma VerifyMerkleProof_pairs (rootHash target slot0 slot1 : bytes)
    (tail : list bytes) (pubKey : ChameleomPubKey) (randomNum : ChameleonRandomNum) :
  Nat.even (length tail) = true ->
  VerifyMerkleProof rootHash target (slot0 :: slot1 :: tail) pubKey randomNum
  = Return (VerifyMerkleRoot
              (if Nat.eqb (length slot0) 0
               then if Nat.eqb (length slot1) 0
                    then climb tail target
                    else climb tail target ++ slot1
               else slot0 ++ climb tail target)
              rootHash pubKey randomNum).
Proof.
  intro Hev. unfold VerifyMerkleProof.
  rewrite (verifyLoop_pairs slot0 slot1 tail target Hev).
  change (index (slot0 :: slot1 :: tail) 0) with (Return slot0).
  change (index (slot0 :: slot1 :: tail) 1) with (Return slot1).
  cbn [bind].
  destruct (Nat.eqb (length slot0) 0); [|reflexivity].
  cbn [bind]. destruct (Nat.eqb (length slot1) 0); reflexivity.
Qed.

(** Under a root as the build makes it, the proof generated for the hash
    of a node below the root leads [VerifyMerkleProof] to check the
    message that was hashed. *)
Lemma VerifyMerkleProof_generated (combined : bytes) (skeleton : MerkleNode)
    (rootHash target : bytes) (pubKey : ChameleomPubKey)
    (randomNum : ChameleonRandomNum) :
  skeleton_ok combined skeleton ->
  In target (hashes_below skeleton) -> target <> rootHash ->
  let root := set_Hash skeleton rootHash in
  VerifyMerkleProof rootHash target (GenerateMerkleProof root target) pubKey randomNum
  = Return (VerifyMerkleRoot combined rootHash pubKey randomNum).
Proof.
  intros (a & t0 & t1 & -> & Hs0 & Htop) Hin Hne root. subst root.
  unfold hashes_below in Hin. cbn [Left Right set_Hash] in *.
  rewrite GenerateMerkleProof_route. cbn [route].
  assert (E : bytes_Equal rootHash target = false)
    by (apply bytes_Equal_false; congruence).
  rewrite E.
  destruct (route target t0) as [p|] eqn:R0.
  - destruct (route_head _ _ _ R0) as [tl ->].
    rewrite collect_step. cbn [Left Right].
    rewrite VerifyMerkleProof_pairs by apply collect_even.
    rewrite (@climb_route target t0 Hs0 _ R0).
    rewrite (is_nil_sound _ Hs0), ptr_eq_refl. cbn [negb andb length Nat.eqb].
    destruct Htop as [[-> ->] | (Hs1 & Hneq & ->)].
    + reflexivity.
    + rewrite (is_nil_sound _ Hs1), (ptr_eq_sym t1 t0), Hneq. cbn [negb andb].
      rewrite (length_eqb_0_false _ (sound_hash_nonempty _ Hs1)). reflexivity.
  - apply in_app_or in Hin. destruct Hin as [Hin|Hin].
    { destruct (route_finds _ _ Hin) as [p Hp]. congruence. }
    destruct (route_finds _ _ Hin) as [p R1]. rewrite R1.
    destruct (route_head _ _ _ R1) as [tl ->].
    destruct Htop as [[-> _] | (Hs1 & Hneq & ->)]; [destruct Hin|].
    rewrite collect_step. cbn [Left Right].
    rewrite VerifyMerkleProof_pairs by apply collect_even.
    rewrite (@climb_route target t1 Hs1 _ R1).
    rewrite (is_nil_sound _ Hs0), (is_nil_sound _ Hs1), ptr_eq_refl, Hneq.
    cbn [negb andb].
    rewrite (length_eqb_0_false _ (sound_hash_nonempty _ Hs0)). reflexivity.
Qed.

(** What [BuildMerkleTree] returns, in terms of the skeleton. *)
Lemma BuildMerkleTree_inv (e : Entropy) (heap : nat) (file : File)
    (config : MerkleConfig) (pubKey : ChameleomPubKey) (root : MerkleNode)
    (randomNum : ChameleonRandomNum) (combined : bytes) :
  BuildMerkleTree e heap file config pubKey = Return (root, randomNum, combined) ->
  exists skeleton,
    buildSkeleton heap file config = Return (combined, skeleton) /\
    skeleton_ok combined skeleton /\
    let o := ComputeHash e combined (pubX pubKey) (pubY pubKey) in
    root = set_Hash skeleton (Bytes (out_hX o)) /\
    randomNum = mkRandomNum (out_rX o) (out_rY o) (out_s o).
Proof.
  unfold BuildMerkleTree.
  destruct (buildSkeleton heap file config) as [[c sk]| | |] eqn:E;
    cbn [bind fst snd]; try discriminate.
  intros [= <- <- <-]. exists sk. repeat split; auto.
  eapply buildSkeleton_ok; exact E.
Qed.

Lemma accepted_of_law (e : Entropy) (msg : bytes) (pubKey : ChameleomPubKey) :
  VerifyHash_accepts_ComputeHash CH -> accepted e msg pubKey.
Proof. intro H. apply H. Qed.

Lemma accepted_VerifyMerkleRoot (e : Entropy) (combined : bytes)
    (pubKey : ChameleomPubKey) :
  accepted e combined pubKey ->
  let o := ComputeHash e combined (pubX pubKey) (pubY pubKey) in
  VerifyMerkleRoot combined (Bytes (out_hX o)) pubKey
                   (mkRandomNum (out_rX o) (out_rY o) (out_s o)) = true.
Proof.
  intros H o. unfold VerifyMerkleRoot. cbn [rX rY s].
  rewrite SetBytes_Bytes. exact H.
Qed.

End Soundness.

(* ================================================================== *)
(** * Rebuilding from metadata *)

Lemma slice_returns (data : bytes) (lo hi : nat) :
  hi <= length data -> slice data lo hi = Return (firstn (hi - lo) (skipn lo data)).
Proof. intro H. unfold slice. now rewrite (proj2 (Nat.leb_le _ _) H). Qed.

Lemma slice_panics (data : bytes) (lo hi : nat) :
  length data < hi ->
  slice data lo hi = Panic (SliceBoundsOutOfRange (Z.of_nat hi) (Z.of_nat (length data))).
Proof.
  intro H. unfold slice. destruct (Nat.leb_spec hi (length data)); [lia | reflexivity].
Qed.

Lemma slice_from_returns (data : bytes) (lo : nat) :
  lo <= length data -> slice_from data lo = Return (skipn lo data).
Proof. intro H. unfold slice_from. now rewrite (proj2 (Nat.leb_le _ _) H). Qed.

Lemma slice_from_panics (data : bytes) (lo : nat) :
  length data < lo ->
  slice_from data lo
  = Panic (SliceBoundsOutOfRange (Z.of_nat lo) (Z.of_nat (length data))).
Proof.
  intro H. unfold slice_from.
  destruct (Nat.leb_spec lo (length data)); [lia | reflexivity].
Qed.

Lemma DeserializeChameleonRandomNum_returns (data : bytes) :
  64 <= length data -> exists r, DeserializeChameleonRandomNum data = Return r.
Proof.
  intro H. unfold DeserializeChameleonRandomNum.
  rewrite !slice_returns, slice_from_returns by lia. cbn [bind]. eauto.
Qed.

Lemma DeserializeChameleonRandomNum_panics (data : bytes) :
  length data < 64 -> panics (DeserializeChameleonRandomNum data).
Proof.
  intro H. unfold DeserializeChameleonRandomNum, panics.
  destruct (Nat.lt_ge_cases (length data) 32).
  - rewrite slice_panics by lia. cbn [bind]. eauto.
  - rewrite slice_returns by lia. cbn [bind].
    rewrite slice_panics by lia. cbn [bind]. eauto.
Qed.

Lemma DeserializeChameleomPubKey_returns (data : bytes) :
  32 <= length data -> exists k, DeserializeChameleomPubKey data = Return k.
Proof.
  intro H. unfold DeserializeChameleomPubKey.
  rewrite slice_returns, slice_from_returns by lia. cbn [bind]. eauto.
Qed.

Lemma DeserializeChameleomPubKey_panics (data : bytes) :
  length data < 32 -> panics (DeserializeChameleomPubKey data).
Proof.
  intro H. unfold DeserializeChameleomPubKey, panics.
  rewrite slice_panics by lia. cbn [bind]. eauto.
Qed.



Section Claims.
Context {CH : ChameleonHash}.

(** C10. [RebuildMerkleTreeFromMetaData] ends in a run-time panic exactly
    when the metadata has fewer than 64 bytes of randomness, fewer than
    32 bytes of public key, or no leaf; with all three in place it returns
    or reports an error.  An empty list of leaves fails at [nodes[0]], and
    63 bytes of randomness fail at [data[64:]]. *)
Theorem RebuildMerkleTreeFromMetaData_panics_iff :
  (forall (heap : nat) (metaData : MetaData),
     panics (RebuildMerkleTreeFromMetaData heap metaData) <->
     ~ (64 <= length (RandomNum metaData) /\
        32 <= length (PublicKey metaData) /\
        Leaves metaData <> [])) /\
  (forall heap rootHash randomNum publicKey,
     RebuildMerkleTreeFromMetaData heap (mkMetaData rootHash randomNum publicKey [])
     = Panic (IndexOutOfRange 0 0)) /\
  (forall heap rootHash publicKey leaf,
     RebuildMerkleTreeFromMetaData heap
       (mkMetaData rootHash (repeat x00 63) publicKey [leaf])
     = Panic (SliceBoundsOutOfRange 64 63)).
Proof.
  split; [|split; reflexivity].
  intros heap [rootHash randomNum publicKey leaves]. cbn [RandomNum PublicKey Leaves].
  unfold RebuildMerkleTreeFromMetaData. cbn [RandomNum PublicKey Leaves RootHash].
  destruct leaves as [|leaf leaves].
  - split; [intros _ (_ & _ & H); congruence | intros _; eexists; reflexivity].
  - set (lv := leafNodes (leaf :: leaves) heap).
    assert (Hlen : length (fst lv) = S (length leaves))
      by (subst lv; now rewrite leafNodes_length).
    destruct (@topNode_returns
                (fst (buildLevels (length (fst lv)) (fst lv) (snd lv)))
                (snd (buildLevels (length (fst lv)) (fst lv) (snd lv)))) as [top Ht].
    { apply buildLevels_length; [lia|]. intro E. rewrite E in Hlen. discriminate. }
    rewrite Ht. cbn [bind].
    destruct (Nat.lt_ge_cases (length randomNum) 64) as [Hr|Hr].
    + destruct (DeserializeChameleonRandomNum_panics _ Hr) as [p ->]. cbn [bind].
      split; [intros _ (H & _); lia | intros _; eexists; reflexivity].
    + destruct (DeserializeChameleonRandomNum_returns _ Hr) as [r ->]. cbn [bind].
      destruct (Nat.lt_ge_cases (length publicKey) 32) as [Hp|Hp].
      * destruct (DeserializeChameleomPubKey_panics _ Hp) as [p ->]. cbn [bind].
        split; [intros _ (_ & H & _); lia | intros _; eexists; reflexivity].
      * destruct (DeserializeChameleomPubKey_returns _ Hp) as [k ->]. cbn [bind].
        split.
        -- intros [p Hp']. destruct (negb _); discriminate.
        -- intro H. exfalso. apply H. repeat split; auto. congruence.
Qed.

(** C5. On an empty stream [BuildMerkleTree] ends in a run-time panic:
    no leaf is made, and the branch for two nodes reads [nodes[0]].  No
    error is returned. *)
Theorem BuildMerkleTree_empty_stream_panics :
  forall (e : Entropy) (heap : nat) (config : MerkleConfig) (pubKey : ChameleomPubKey),
    BuildMerkleTree e heap (mkFile [] None) config pubKey
    = Panic (if (BlockSize config <? 0)%Z
             then MakeSliceLenOutOfRange else IndexOutOfRange 0 0).
Proof.
  intros e heap config pubKey. unfold BuildMerkleTree, buildSkeleton.
  destruct (BlockSize config <? 0)%Z; [reflexivity|].
  cbn [unread length readLeaves]. unfold File_Read. cbn [fault unread].
  destruct (Z.to_nat (BlockSize config)); reflexivity.
Qed.

Lemma UpdateMerkleTree_unfold (e : Entropy) (heap : nat) (file : File)
    (config : MerkleConfig) (pubKey : ChameleomPubKey)
    (secKey prevRootHash chameleonHash : bytes) (randomNum : ChameleonRandomNum)
    (combined : bytes) (skeleton : MerkleNode) :
  buildSkeleton heap file config = Return (combined, skeleton) ->
  UpdateMerkleTree e heap file config pubKey secKey prevRootHash chameleonHash randomNum
  = new <- FindCollision e chameleonHash (rX randomNum) (rY randomNum) (s randomNum)
                         (SetBytes prevRootHash) combined secKey ;;
    Return (set_Hash skeleton prevRootHash, new).
Proof.
  intro E. unfold UpdateMerkleTree. rewrite E. cbn [bind fst snd].
  destruct (FindCollision _ _ _ _ _ _ _ _) as [[]| | |]; reflexivity.
Qed.

(** On a readable, non-empty stream [UpdateMerkleTree] returns when
    [FindCollision] does. *)
Lemma UpdateMerkleTree_returns (e : Entropy) (heap : nat) (file : File)
    (config : MerkleConfig) (pubKey : ChameleomPubKey)
    (secKey prevRootHash chameleonHash : bytes) (randomNum : ChameleonRandomNum) :
  fault file = None -> unread file <> [] -> (0 < BlockSize config)%Z ->
  (forall combined, exists new,
      FindCollision e chameleonHash (rX randomNum) (rY randomNum) (s randomNum)
                    (SetBytes prevRootHash) combined secKey = Return new) ->
  exists root newRandomNum,
    UpdateMerkleTree e heap file config pubKey secKey prevRootHash chameleonHash
                     randomNum = Return (root, newRandomNum).
Proof.
  intros Hf Hne Hbs Hfc.
  destruct (buildSkeleton_returns heap file config Hf Hne Hbs) as [[c sk] E].
  rewrite (UpdateMerkleTree_unfold e heap file config pubKey secKey prevRootHash
             chameleonHash randomNum c sk E).
  destruct (Hfc c) as [new ->]. cbn [bind]. eauto.
Qed.

(** C6. The root a successful [UpdateMerkleTree] returns carries the
    previous root hash, byte for byte. *)
Theorem UpdateMerkleTree_keeps_root_hash :
  forall (e : Entropy) (heap : nat) (file : File) (config : MerkleConfig)
         (pubKey : ChameleomPubKey) (secKey prevRootHash chameleonHash : bytes)
         (randomNum : ChameleonRandomNum) (root : MerkleNode)
         (newRandomNum : ChameleonRandomNum),
    UpdateMerkleTree e heap file config pubKey secKey prevRootHash chameleonHash
                     randomNum = Return (root, newRandomNum) ->
    Hash root = prevRootHash.
Proof.
  intros e heap file config pubKey secKey prev ch rnd root new H.
  destruct (buildSkeleton heap file config) as [[c sk]| | |] eqn:E;
    try (unfold UpdateMerkleTree in H; rewrite E in H; discriminate).
  rewrite (UpdateMerkleTree_unfold e heap file config pubKey secKey prev ch rnd c sk E)
    in H.
  destruct (FindCollision _ _ _ _ _ _ _ _) as [r| | |]; cbn [bind] in H;
    try discriminate.
  inversion H; subst.
  destruct (buildSkeleton_ok _ _ _ _ _ E) as (a & t0 & t1 & -> & _). reflexivity.
Qed.


End Claims.

(* ================================================================== *)
(** * Inclusion proofs *)

Section Proofs.
Context {CH : ChameleonHash}.

(** C3, as the code has it.  For a tree [BuildMerkleTree] returned, with
    a hash that [VerifyHash] accepts: every leaf hash is the hash of a
    node below the root, and for the hash of any node below the root,
    leaf or not, that differs from the root hash, the generated proof
    verifies. *)
Theorem generated_proofs_verify :
  forall (e : Entropy) (heap : nat) (file : File) (config : MerkleConfig)
         (pubKey : ChameleomPubKey) (root : MerkleNode)
         (randomNum : ChameleonRandomNum) (combined : bytes),
    BuildMerkleTree e heap file config pubKey = Return (root, randomNum, combined) ->
    accepted e combined pubKey ->
    (forall leaf, In leaf (GetAllLeavesHashes root) -> In leaf (hashes_below root)) /\
    (forall target,
       In target (hashes_below root) -> target <> Hash root ->
       VerifyMerkleProof (Hash root) target (GenerateMerkleProof root target)
                         pubKey randomNum = Return true).
Proof.
  intros e heap file config pubKey root rnd combined Hb Hacc.
  destruct (BuildMerkleTree_inv _ _ _ _ _ _ _ _ Hb) as (sk & _ & Hsk & Hroot & Hrnd).
  cbv zeta in Hroot, Hrnd.
  pose proof Hsk as (a & t0 & t1 & Esk & Hs0 & _).
  split.
  - intros leaf Hin. subst root sk. cbn [set_Hash] in *.
    apply GetAllLeavesHashes_below; [apply sound_not_nil; exact Hs0 | exact Hin].
  - intros target Hin Hne.
    assert (Hh : Hash root = Bytes (out_hX (ComputeHash e combined (pubX pubKey)
                                                        (pubY pubKey))))
      by (subst root sk; reflexivity).
    rewrite Hh in *. rewrite Hroot.
    rewrite (VerifyMerkleProof_generated combined sk _ target pubKey rnd Hsk).
    + rewrite Hrnd. f_equal. now apply accepted_VerifyMerkleRoot.
    + subst root sk. exact Hin.
    + exact Hne.
Qed.

(** C4, as the code has it.  For a stream of one block, when the root
    hash differs from the leaf hash and [VerifyHash] accepts the hash
    computed: the message hashed is the leaf hash, the proof generated for
    the leaf is one pair of empty slots, and it verifies. *)
Theorem single_leaf_proof :
  forall (e : Entropy) (heap : nat) (data : bytes) (config : MerkleConfig)
         (pubKey : ChameleomPubKey),
    data <> [] -> (Z.of_nat (length data) <= BlockSize config)%Z ->
    let leaf := getHash data in
    Bytes (out_hX (ComputeHash e leaf (pubX pubKey) (pubY pubKey))) <> leaf ->
    accepted e leaf pubKey ->
    exists root randomNum,
      BuildMerkleTree e heap (mkFile data None) config pubKey
      = Return (root, randomNum, leaf) /\
      Left root = Ptr heap leaf Nil Nil /\ Right root = Nil /\
      GenerateMerkleProof root leaf = [[]; []] /\
      VerifyMerkleProof (Hash root) leaf (GenerateMerkleProof root leaf)
                        pubKey randomNum = Return true.
Proof.
  intros e heap data config pubKey Hne Hlen leaf Hdiff Hacc.
  assert (Hbs : (0 < BlockSize config)%Z) by (destruct data; [congruence | cbn in Hlen; lia]).
  assert (Hblocks : stream_blocks (Z.to_nat (BlockSize config)) data = [data]).
  { unfold stream_blocks. destruct data as [|x data]; [congruence|].
    cbn [length chunks]. rewrite firstn_all2, skipn_all2 by (cbn [length] in *; lia).
    destruct (length data); reflexivity. }
  assert (Hsk : buildSkeleton heap (mkFile data None) config
                = Return (leaf, Ptr (heap + 1) [] (Ptr heap leaf Nil Nil) Nil)).
  { unfold buildSkeleton. destruct (Z.ltb_spec (BlockSize config) 0); [lia|].
    cbn [unread]. rewrite readLeaves_blocks by (auto; lia).
    rewrite Hblocks. reflexivity. }
  set (o := ComputeHash e leaf (pubX pubKey) (pubY pubKey)) in *.
  exists (Ptr (heap + 1) (Bytes (out_hX o)) (Ptr heap leaf Nil Nil) Nil),
         (mkRandomNum (out_rX o) (out_rY o) (out_s o)).
  assert (Hgen : GenerateMerkleProof
                   (Ptr (heap + 1) (Bytes (out_hX o)) (Ptr heap leaf Nil Nil) Nil) leaf
                 = [[]; []]).
  { rewrite GenerateMerkleProof_route. cbn [route].
    rewrite (proj2 (bytes_Equal_false _ _) Hdiff), (proj2 (bytes_Equal_true _ _) eq_refl).
    cbn. now rewrite Nat.eqb_refl. }
  repeat split.
  - unfold BuildMerkleTree. rewrite Hsk. reflexivity.
  - exact Hgen.
  - rewrite Hgen. cbn [Hash].
    rewrite (VerifyMerkleProof_pairs _ _ _ _ [] _ _ eq_refl). cbn [length Nat.eqb climb].
    f_equal. now apply accepted_VerifyMerkleRoot.
Qed.

End Proofs.

(* ================================================================== *)
(** * Runs of the inclusion proofs *)

Lemma build_abc_returns :
  Run.build_abc = Return (Run.root_abc, Run.randomNum_abc, Run.combined_abc).
Proof. vm_compute. reflexivity. Qed.

Lemma build_a_returns :
  Run.build_a = Return (Run.root_a, Run.randomNum_a, Run.h_a).
Proof. vm_compute. reflexivity. Qed.

(** [Serialize] writes each number without leading zeros and
    [Deserialize] cuts at fixed offsets: on the small curve, where every
    number is short, the metadata of a tree does not even reach the root
    check. *)
Lemma short_coordinates_panic :
  ChameleonRandomNum_Serialize Run.randomNum_a
  = Bytes 6049 ++ Bytes 59957 ++ Bytes 4242 /\
  RebuildMerkleTreeFromMetaData (CH := SmallCurveHash) 0
    (metaData_of Run.root_a Run.randomNum_a Run.pubKey)
  = Panic (SliceBoundsOutOfRange 32 6).
Proof. split; vm_compute; reflexivity. Qed.

Lemma abc_accepted :
  accepted (CH := SmallCurveHash) Run.draw Run.combined_abc Run.pubKey.
Proof. vm_compute. reflexivity. Qed.

Lemma h_b_below_root : In Run.h_b (hashes_below Run.root_abc).
Proof. apply existsb_bytes_In. vm_compute. reflexivity. Qed.

Lemma h_b_not_root : Run.h_b <> Hash Run.root_abc.
Proof. apply bytes_Equal_false. vm_compute. reflexivity. Qed.

(** C3 at the tree of the blocks [a], [b], [c] and the leaf of [b]. *)
Lemma generated_proofs_verify_witness :
  VerifyMerkleProof (Hash Run.root_abc) Run.h_b
    (GenerateMerkleProof Run.root_abc Run.h_b) Run.pubKey Run.randomNum_abc
  = Return true.
Proof.
  exact (proj2 (generated_proofs_verify (CH := SmallCurveHash)
                  Run.draw 0 Run.file_abc Run.config Run.pubKey
                  Run.root_abc Run.randomNum_abc Run.combined_abc
                  build_abc_returns abc_accepted)
               Run.h_b h_b_below_root h_b_not_root).
Defined.

(** C3 fails as stated.  In the tree of the blocks [a], [b], [c] the hash
    of the node above [a] and [b] is no leaf hash, and the proof generated
    for it verifies; for a hash that no node carries the proof is empty
    and [VerifyMerkleProof] panics at [merkleProof[0]]. *)
Lemma internal_hash_is_accepted :
  Run.build_abc = Return (Run.root_abc, Run.randomNum_abc, Run.combined_abc) /\
  ~ In Run.h_ab (GetAllLeavesHashes Run.root_abc) /\
  VerifyMerkleProof (Hash Run.root_abc) Run.h_ab
    (GenerateMerkleProof Run.root_abc Run.h_ab) Run.pubKey Run.randomNum_abc
  = Return true /\
  ~ In (getHash (str "z")) (GetAllLeavesHashes Run.root_abc) /\
  VerifyMerkleProof (Hash Run.root_abc) (getHash (str "z"))
    (GenerateMerkleProof Run.root_abc (getHash (str "z"))) Run.pubKey Run.randomNum_abc
  = Panic (IndexOutOfRange 0 0).
Proof.
  split; [exact build_abc_returns|].
  split; [apply existsb_bytes_not_In; vm_compute; reflexivity|].
  split; [vm_compute; reflexivity|].
  split; [apply existsb_bytes_not_In; vm_compute; reflexivity|].
  vm_compute. reflexivity.
Qed.

Lemma a_one_block : (Z.of_nat (length (str "a")) <= BlockSize Run.config)%Z.
Proof. vm_compute. discriminate. Qed.

Lemma a_root_differs :
  Bytes (out_hX (@ComputeHash SmallCurveHash Run.draw Run.h_a
                             (pubX Run.pubKey) (pubY Run.pubKey))) <> Run.h_a.
Proof. apply bytes_Equal_false. vm_compute. reflexivity. Qed.

Lemma a_accepted : accepted (CH := SmallCurveHash) Run.draw Run.h_a Run.pubKey.
Proof. vm_compute. reflexivity. Qed.

Lemma str_a_nonempty : str "a" <> [].
Proof. discriminate. Qed.

(** C4 at the stream of the single block [a]. *)
Lemma single_leaf_proof_witness :
  exists root randomNum,
    Run.build_a = Return (root, randomNum, Run.h_a) /\
    Left root = Ptr 0 Run.h_a Nil Nil /\ Right root = Nil /\
    GenerateMerkleProof root Run.h_a = [[]; []] /\
    VerifyMerkleProof (Hash root) Run.h_a (GenerateMerkleProof root Run.h_a)
                      Run.pubKey randomNum = Return true.
Proof.
  exact (single_leaf_proof (CH := SmallCurveHash) Run.draw 0 (str "a") Run.config
                           Run.pubKey str_a_nonempty a_one_block a_root_differs
                           a_accepted).
Defined.

(** C4 fails as stated.  For the stream of the single block [a] the
    generated proof is not the empty sequence but one pair of empty slots,
    and on the empty sequence [VerifyMerkleProof] panics at
    [merkleProof[0]]. *)
Lemma single_leaf_proof_is_a_pair :
  Run.build_a = Return (Run.root_a, Run.randomNum_a, Run.h_a) /\
  GenerateMerkleProof Run.root_a Run.h_a = [[]; []] /\
  VerifyMerkleProof (Hash Run.root_a) Run.h_a [] Run.pubKey Run.randomNum_a
  = Panic (IndexOutOfRange 0 0).
Proof.
  split; [exact build_a_returns|].
  split; vm_compute; reflexivity.
Qed.

(* ================================================================== *)
(** * Runs of the update *)

Lemma update_returns (key : bytes) :
  existsb (bytes_Equal key) [Run.secKey] = true ->
  Run.update key = Return (fst (Run.updated key), snd (Run.updated key)).
Proof.
  intro H. apply existsb_bytes_In in H.
  destruct H as [<-|[]]; vm_compute; reflexivity.
Qed.

(** C6 at the update of the tree of [abc] to the stream [xyz]. *)
Lemma UpdateMerkleTree_keeps_root_hash_witness :
  Hash (fst (Run.updated Run.secKey)) = Hash Run.root_abc.
Proof.
  exact (UpdateMerkleTree_keeps_root_hash (CH := SmallCurveHash)
           Run.draw 10 Run.file_xyz Run.config Run.pubKey Run.secKey
           (Hash Run.root_abc) Run.combined_abc Run.randomNum_abc
           (fst (Run.updated Run.secKey)) (snd (Run.updated Run.secKey))
           (update_returns Run.secKey eq_refl)).
Defined.



(** The instance refuses the secret key of another pair, inside
    [FindCollision]: the update with it ends as that call does. *)
Lemma update_with_wrong_key_is_refused :
  SmallCurve.opens (SetBytes Run.secKey) Run.combined_abc (rX Run.randomNum_abc)
    (rY Run.randomNum_abc) (s Run.randomNum_abc) (SetBytes (Hash Run.root_abc)) = true /\
  SmallCurve.opens (SetBytes Run.wrongKey) Run.combined_abc (rX Run.randomNum_abc)
    (rY Run.randomNum_abc) (s Run.randomNum_abc) (SetBytes (Hash Run.root_abc)) = false /\
  Run.update Run.wrongKey = Error "InvalidTrapdoor".
Proof.
  split; [vm_compute; reflexivity|].
  split; vm_compute; reflexivity.
Qed.



(* ================================================================== *)

(* ================================================================== *)
(** * The order of the leaves *)

Lemma abc_blocks : stream_blocks 1 (str "abc") = [str "a"; str "b"; str "c"].
Proof. reflexivity. Qed.

Lemma abc_skeleton (heap : nat) :
  buildSkeleton heap Run.file_abc Run.config
  = Return (Run.h_ab ++ Run.h_c,
            Ptr (S (S (S (S heap)))) []
                (Ptr (S (S (S heap))) Run.h_ab
                     (Ptr heap Run.h_a Nil Nil) (Ptr (S heap) Run.h_b Nil Nil))
                (Ptr (S (S heap)) Run.h_c Nil Nil)).
Proof. vm_compute. reflexivity. Qed.

Lemma abc_leaves (a0 a1 a2 a3 a4 : nat) (rootHash : bytes) :
  GetAllLeavesHashes
    (Ptr a4 rootHash
         (Ptr a3 Run.h_ab (Ptr a0 Run.h_a Nil Nil) (Ptr a1 Run.h_b Nil Nil))
         (Ptr a2 Run.h_c Nil Nil))
  = [Run.h_c; Run.h_a; Run.h_b].
Proof. (unfold GetAllLeavesHashes; cbn [is_nil weight traverse Nat.add Left Right Hash andb app]). reflexivity. Qed.

Lemma h_c_is_not_h_a : Run.h_c <> Run.h_a.
Proof. apply bytes_Equal_false. vm_compute. reflexivity. Qed.

Lemma checked_is_not_hashed :
  getHash (Run.h_c ++ Run.h_a) ++ Run.h_b <> Run.h_ab ++ Run.h_c.
Proof. apply bytes_Equal_false. vm_compute. reflexivity. Qed.

Lemma cba_rebuilt_skeleton (heap : nat) :
  let leaves := leafNodes [Run.h_c; Run.h_a; Run.h_b] heap in
  let top := buildLevels (length (fst leaves)) (fst leaves) (snd leaves) in
  topNode (fst top) (snd top)
  = Return (getHash (Run.h_c ++ Run.h_a) ++ Run.h_b,
            Ptr (S (S (S (S heap)))) []
                (Ptr (S (S (S heap))) (getHash (Run.h_c ++ Run.h_a))
                     (Ptr heap Run.h_c Nil Nil) (Ptr (S heap) Run.h_a Nil Nil))
                (Ptr (S (S heap)) Run.h_b Nil Nil)).
Proof. vm_compute; reflexivity. Qed.

Lemma newLevel_leaf_hashes (nodes : list MerkleNode) :
  forall heap,
    Forall (fun n => n <> Nil) nodes ->
    Forall (fun n => n <> Nil) (fst (newLevel nodes heap)) /\
    flat_map leaf_hashes (fst (newLevel nodes heap)) = flat_map leaf_hashes nodes.
Proof.
  induction nodes as [|x|x y rest IH] using pairs_ind; intros heap Hn.
  - split; [constructor | reflexivity].
  - split; [exact Hn | reflexivity].
  - cbn [newLevel].
    inversion Hn as [|? ? Hx Hn']; subst. inversion Hn' as [|? ? Hy Hr]; subst.
    specialize (IH (S heap) Hr).
    destruct (newLevel rest (S heap)) as [level heap']. cbn [fst] in *.
    destruct IH as [IH1 IH2]. split; [constructor; [congruence | exact IH1]|].
    cbn [flat_map]. rewrite IH2, leaf_hashes_node.
    destruct x; [congruence|]. cbn [is_nil andb]. now rewrite <- app_assoc.
Qed.

Lemma buildLevels_leaf_hashes (fuel : nat) :
  forall nodes heap,
    Forall (fun n => n <> Nil) nodes ->
    Forall (fun n => n <> Nil) (fst (buildLevels fuel nodes heap)) /\
    flat_map leaf_hashes (fst (buildLevels fuel nodes heap)) = flat_map leaf_hashes nodes.
Proof.
  induction fuel as [|fuel IH]; intros nodes heap Hn; [split; [exact Hn | reflexivity]|].
  cbn [buildLevels]. destruct (Nat.ltb 2 (length nodes)); [|split; [exact Hn | reflexivity]].
  destruct (newLevel_leaf_hashes nodes heap Hn) as [H1 H2].
  destruct (newLevel nodes heap) as [level heap']. cbn [fst] in *.
  destruct (IH level heap' H1) as [H3 H4]. split; [exact H3 | congruence].
Qed.

Lemma leafNodes_leaf_hashes (leaves : list bytes) :
  forall heap,
    Forall (fun n => n <> Nil) (fst (leafNodes leaves heap)) /\
    flat_map leaf_hashes (fst (leafNodes leaves heap)) = leaves.
Proof.
  induction leaves as [|l rest IH]; intro heap; [split; [constructor | reflexivity]|].
  rewrite leafNodes_fst_cons. destruct (IH (S heap)) as [H1 H2].
  split; [constructor; [congruence | exact H1]|].
  cbn [flat_map leaf_hashes app]. now rewrite H2.
Qed.

Lemma topNode_leaf_hashes (nodes : list MerkleNode) (heap : nat) (top : bytes * MerkleNode) :
  Forall (fun n => n <> Nil) nodes -> length nodes <= 2 ->
  topNode nodes heap = Return top ->
  forall rootHash,
    leaf_hashes (set_Hash (snd top) rootHash) = flat_map leaf_hashes nodes.
Proof.
  intros Hn Hl Ht rootHash.
  destruct nodes as [|n0 [|n1 [|n2 rest]]]; cbn in Hl; try lia.
  - discriminate.
  - cbn in Ht. inversion Ht; subst. inversion Hn; subst.
    cbn [snd set_Hash flat_map]. rewrite leaf_hashes_node.
    destruct n0; [congruence | reflexivity].
  - cbn in Ht. inversion Ht; subst. inversion Hn; subst.
    cbn [snd set_Hash flat_map]. rewrite leaf_hashes_node.
    destruct n0; [congruence|]. cbn [is_nil andb]. now rewrite app_nil_r.
Qed.

(** On a readable, non-empty stream the skeleton has one leaf for every
    block, left to right in the order of the stream. *)
Lemma buildSkeleton_leaf_hashes (heap : nat) (data : bytes) (config : MerkleConfig) :
  data <> [] -> (0 < BlockSize config)%Z ->
  exists top,
    buildSkeleton heap (mkFile data None) config = Return top /\
    forall rootHash,
      leaf_hashes (set_Hash (snd top) rootHash)
      = map getHash (stream_blocks (Z.to_nat (BlockSize config)) data).
Proof.
  intros Hne Hbs.
  destruct (buildSkeleton_returns heap (mkFile data None) config eq_refl Hne Hbs)
    as [top Ht].
  exists top. split; [exact Ht|]. intro rootHash.
  unfold buildSkeleton in Ht. destruct (Z.ltb_spec (BlockSize config) 0); [lia|].
  cbn [unread] in Ht. rewrite readLeaves_blocks in Ht by (auto; lia).
  cbn [bind fst snd app] in Ht.
  set (blocks := stream_blocks (Z.to_nat (BlockSize config)) data) in *.
  destruct (leafNodes_leaf_hashes (map getHash blocks) heap) as [H1 H2].
  set (lv := fst (leafNodes (map getHash blocks) heap)) in *.
  destruct (buildLevels_leaf_hashes (length lv) lv (heap + length blocks) H1) as [H3 H4].
  assert (Hlen : 1 <= length (fst (buildLevels (length lv) lv (heap + length blocks))) <= 2).
  { apply buildLevels_length; [lia|]. subst lv.
    rewrite <- length_zero_iff_nil, leafNodes_length, length_map, length_zero_iff_nil.
    now apply stream_blocks_nonempty. }
  rewrite (topNode_leaf_hashes _ _ _ H3 (proj2 Hlen) Ht). congruence.
Qed.

Section LeafOrder.
Context {CH : ChameleonHash}.

(** What holds of the leaves in general: on a readable, non-empty stream
    [BuildMerkleTree] returns a tree whose leaves, left to right, are the
    digests of the blocks in the order of the stream, and
    [GetAllLeavesHashes] gives these digests, each once, in some order. *)
Lemma GetAllLeavesHashes_blocks (e : Entropy) (heap : nat) (data : bytes)
    (config : MerkleConfig) (pubKey : ChameleomPubKey) :
  data <> [] -> (0 < BlockSize config)%Z ->
  exists root randomNum combined,
    BuildMerkleTree e heap (mkFile data None) config pubKey
    = Return (root, randomNum, combined) /\
    leaf_hashes root = map getHash (stream_blocks (Z.to_nat (BlockSize config)) data) /\
    Permutation (GetAllLeavesHashes root)
                (map getHash (stream_blocks (Z.to_nat (BlockSize config)) data)).
Proof.
  intros Hne Hbs.
  destruct (buildSkeleton_leaf_hashes heap data config Hne Hbs) as ([c sk] & Ht & Hl).
  unfold BuildMerkleTree. rewrite Ht. cbn [bind fst snd]. do 3 eexists.
  split; [reflexivity|]. cbn [snd] in Hl. split; [apply Hl|].
  rewrite GetAllLeavesHashes_permutation, Hl. reflexivity.
Qed.

(** C2 at a stream of three blocks.  For the blocks [a], [b], [c] the
    tree has the leaf of [c] one level above the leaves of [a] and [b],
    and [GetAllLeavesHashes], which goes level by level, gives the hash
    of [c] first: not the order of the stream. *)
Theorem GetAllLeavesHashes_three_blocks_order :
  forall (e : Entropy) (heap : nat) (pubKey : ChameleomPubKey),
  exists root randomNum combined,
    BuildMerkleTree e heap Run.file_abc Run.config pubKey
    = Return (root, randomNum, combined) /\
    map getHash (stream_blocks 1 (unread Run.file_abc)) = [Run.h_a; Run.h_b; Run.h_c] /\
    GetAllLeavesHashes root = [Run.h_c; Run.h_a; Run.h_b] /\
    GetAllLeavesHashes root <> map getHash (stream_blocks 1 (unread Run.file_abc)).
Proof.
  intros e heap pubKey. unfold BuildMerkleTree. rewrite abc_skeleton.
  cbn [bind fst snd set_Hash]. do 3 eexists.
  split; [reflexivity|].
  assert (Hb : map getHash (stream_blocks 1 (unread Run.file_abc))
               = [Run.h_a; Run.h_b; Run.h_c]).
  { unfold Run.file_abc. cbn [unread]. rewrite abc_blocks. reflexivity. }
  rewrite Hb, abc_leaves. split; [reflexivity|]. split; [reflexivity|].
  intro H. apply h_c_is_not_h_a. apply (f_equal (fun l => nth 0 l [])) in H. cbn [nth] in H. exact H.
Qed.

(** C1 at a stream of three blocks.  For the blocks [a], [b], [c] the
    message [BuildMerkleTree] hashes is [H(H(a) H(b)) H(c)]; the metadata
    lists the leaves as [H(c)], [H(a)], [H(b)], and
    [RebuildMerkleTreeFromMetaData] asks [VerifyHash] about another
    message, [H(H(c) H(a)) H(b)], before it returns. *)
Theorem roundtrip_three_blocks_checks_another_message :
  forall (e : Entropy) (heap heap' : nat) (pubKey : ChameleomPubKey),
  exists root randomNum rebuilt,
    BuildMerkleTree e heap Run.file_abc Run.config pubKey
    = Return (root, randomNum, Run.h_ab ++ Run.h_c) /\
    let metaData := metaData_of root randomNum pubKey in
    let checked := getHash (Run.h_c ++ Run.h_a) ++ Run.h_b in
    Leaves metaData = [Run.h_c; Run.h_a; Run.h_b] /\
    RebuildMerkleTreeFromMetaData heap' metaData
    = (randomNum' <- DeserializeChameleonRandomNum (RandomNum metaData) ;;
       pubKey' <- DeserializeChameleomPubKey (PublicKey metaData) ;;
       if negb (VerifyMerkleRoot checked (RootHash metaData) pubKey' randomNum')
       then Error "Merkle root verification failed"
       else Return (rebuilt, randomNum', pubKey')) /\
    checked <> Run.h_ab ++ Run.h_c.
Proof.
  intros e heap heap' pubKey. unfold BuildMerkleTree. rewrite abc_skeleton.
  cbn [bind fst snd set_Hash].
  set (h := Bytes (out_hX (ComputeHash e (Run.h_ab ++ Run.h_c) (pubX pubKey)
                                       (pubY pubKey)))).
  eexists _, _,
    (Ptr (S (S (S (S heap')))) h
         (Ptr (S (S (S heap'))) (getHash (Run.h_c ++ Run.h_a))
              (Ptr heap' Run.h_c Nil Nil) (Ptr (S heap') Run.h_a Nil Nil))
         (Ptr (S (S heap')) Run.h_b Nil Nil)).
  split; [reflexivity|].
  unfold metaData_of. rewrite abc_leaves. cbv zeta.
  cbn [Leaves RandomNum PublicKey RootHash Hash].
  split; [reflexivity|]. split; [|exact checked_is_not_hashed].
  unfold RebuildMerkleTreeFromMetaData. cbn [Leaves RandomNum PublicKey RootHash].
  rewrite (cba_rebuilt_skeleton heap'). cbn [bind fst snd set_Hash]. reflexivity.
Qed.

End LeafOrder.

(* ================================================================== *)
(** * The metadata codec *)

Lemma fromHexChar_hextable (n : N) :
  (n < 16)%N -> fromHexChar (nth_char hextable n) = Some n.
Proof.
  intro H. destruct n as [|p]; [reflexivity|].
  do 4 (try match goal with q : positive |- _ => destruct q end);
    try reflexivity; lia.
Qed.

Lemma byte_of_to_N (v : byte) : byte_of_N (Byte.to_N v) = v.
Proof.
  unfold byte_of_N. pose proof (Byte.to_N_bounded v).
  rewrite N.mod_small by lia. now rewrite Byte.of_to_N.
Qed.

(** [hex.DecodeString] undoes [hex.EncodeToString]. *)
Lemma hex_DecodeString_EncodeToString (b : bytes) :
  hex_DecodeString (hex_EncodeToString b) = Some b.
Proof.
  induction b as [|v b IH]; [reflexivity|].
  cbn [hex_EncodeToString hex_DecodeString].
  pose proof (Byte.to_N_bounded v) as Hv.
  rewrite !fromHexChar_hextable, IH
    by (try apply N.mod_upper_bound; try (apply N.Div0.div_lt_upper_bound); lia).
  rewrite <- N.div_mod by lia. now rewrite byte_of_to_N.
Qed.

Lemma decode_or_fatal_cases (msg src : string) :
  (exists b, hex_DecodeString src = Some b /\ decode_or_fatal msg src = Return b) \/
  (hex_DecodeString src = None /\ decode_or_fatal msg src = Fatal msg).
Proof.
  unfold decode_or_fatal. destruct (hex_DecodeString src); eauto.
Qed.

Lemma decodeLeaves_cases (leaves : list string) :
  (exists l, map hex_DecodeString leaves = map Some l /\ decodeLeaves leaves = Return l) \/
  ((exists leafStr, In leafStr leaves /\ hex_DecodeString leafStr = None) /\
   decodeLeaves leaves = Fatal "Error decoding leaf").
Proof.
  induction leaves as [|leafStr rest IH]; [left; exists []; split; reflexivity|].
  cbn [decodeLeaves map].
  destruct (decode_or_fatal_cases "Error decoding leaf" leafStr)
    as [(b & Hb & ->) | (Hb & ->)]; cbn [bind].
  - destruct IH as [(l & Hl & ->) | ((x & Hx & Hn) & ->)]; cbn [bind].
    + left. exists (b :: l). cbn [map]. now rewrite Hb, Hl.
    + right. split; [exists x; split; [now right | exact Hn] | reflexivity].
  - right. split; [exists leafStr; split; [now left | exact Hb] | reflexivity].
Qed.

Lemma map_Some_injective (A : Type) (l l' : list A) :
  map Some l = map Some l' -> l = l'.
Proof.
  revert l'. induction l as [|x l IH]; intros [|y l'] H; try discriminate; auto.
  cbn in H. injection H as -> H. f_equal. now apply IH.
Qed.

Lemma map_Some_no_None (A B : Type) (f : A -> option B) (l : list A) (l' : list B)
    (x : A) :
  map f l = map Some l' -> In x l -> f x <> None.
Proof.
  revert l'. induction l as [|y l IH]; intros [|z l'] H Hin; try discriminate;
    [destruct Hin|].
  cbn in H. injection H as Hy H. destruct Hin as [<-|Hin]; [congruence|].
  eapply IH; eauto.
Qed.

Section Codec.
Context {JD : JSONDecoder}.

Lemma decodes_to_unique (jsonStr : string) (m m' : MetaData) :
  decodes_to jsonStr m -> decodes_to jsonStr m' -> m = m'.
Proof.
  intros (v & pd & Hv & Hpd & H1 & H2 & H3 & H4)
         (v' & pd' & Hv' & Hpd' & H1' & H2' & H3' & H4').
  rewrite Hv in Hv'. injection Hv' as <-.
  rewrite Hpd in Hpd'. injection Hpd' as <-.
  destruct m, m'. cbn in *.
  rewrite H1 in H1'. rewrite H2 in H2'. rewrite H3 in H3'. rewrite H4 in H4'.
  apply map_Some_injective in H4'. congruence.
Qed.

Lemma ParseTxValue_cases (jsonStr : string) :
  (exists metaData, decodes_to jsonStr metaData /\ ParseTxValue jsonStr = Return metaData) \/
  ((~ exists metaData, decodes_to jsonStr metaData) /\
   exists msg, ParseTxValue jsonStr = Fatal msg).
Proof.
  unfold ParseTxValue, decodes_to.
  destruct (Unmarshal_envelope jsonStr) as [value|] eqn:Ev.
  2: { right. split; [intros (m & v & pd & H & _); discriminate | eauto]. }
  destruct (Unmarshal_parseData value) as [pd|] eqn:Ep.
  2: { right. split; [|eauto].
       intros (m & v & pd & [= <-] & H & _). congruence. }
  destruct (decode_or_fatal_cases "Error decoding rootHash" (parseData.RootHash pd))
    as [(b1 & H1 & ->) | (H1 & ->)]; cbn [bind].
  2: { right. split; [|eauto].
       intros (m & v & pd' & [= <-] & Hp & H & _). congruence. }
  destruct (decode_or_fatal_cases "Error decoding randomNum" (parseData.RandomNum pd))
    as [(b2 & H2 & ->) | (H2 & ->)]; cbn [bind].
  2: { right. split; [|eauto].
       intros (m & v & pd' & [= <-] & Hp & _ & H & _). congruence. }
  destruct (decode_or_fatal_cases "Error decoding publicKey" (parseData.PublicKey pd))
    as [(b3 & H3 & ->) | (H3 & ->)]; cbn [bind].
  2: { right. split; [|eauto].
       intros (m & v & pd' & [= <-] & Hp & _ & _ & H & _). congruence. }
  destruct (decodeLeaves_cases (parseData.Leaves pd))
    as [(l & Hl & ->) | ((x & Hx & Hn) & ->)]; cbn [bind].
  - left. exists (mkMetaData b1 b2 b3 l). split; [|reflexivity].
    exists value, pd. cbn. repeat split; auto.
  - right. split; [|eauto].
    intros (m & v & pd' & [= <-] & Hp & _ & _ & _ & H).
    assert (pd' = pd) by congruence. subst pd'.
    exact (map_Some_no_None _ _ _ _ _ _ H Hx Hn).
Qed.

End Codec.

Lemma bad_hex_is_fatal :
  ParseTxValue (JD := MiniJSONDecoder) Run.bad_hex = Fatal "Error decoding rootHash".
Proof. vm_compute. reflexivity. Qed.

Lemma bad_json_is_fatal :
  ParseTxValue (JD := MiniJSONDecoder) "{" = Fatal "Error unmarshalling JSON".
Proof. vm_compute. reflexivity. Qed.

(** C9 on the code.  [ParseTxValue] returns the metadata exactly when both
    JSON documents decode and every string is hexadecimal; in every other
    case it ends the process through [log.Fatalf]; it never returns an
    error.  A feed message whose root hash is [zz], and the text of one
    opening brace, both end the process. *)
Theorem ParseTxValue_failures_are_fatal :
  (forall (JD : JSONDecoder) (jsonStr : string),
     (forall metaData,
        ParseTxValue jsonStr = Return metaData <-> decodes_to jsonStr metaData) /\
     ((exists msg, ParseTxValue jsonStr = Fatal msg) <->
      ~ exists metaData, decodes_to jsonStr metaData) /\
     (forall err, ParseTxValue jsonStr <> Error err)) /\
  ParseTxValue (JD := MiniJSONDecoder) Run.bad_hex = Fatal "Error decoding rootHash" /\
  ParseTxValue (JD := MiniJSONDecoder) "{" = Fatal "Error unmarshalling JSON".
Proof.
  split; [|split; [exact bad_hex_is_fatal | exact bad_json_is_fatal]].
  intros JD jsonStr.
  destruct (ParseTxValue_cases jsonStr) as [(m & Hd & Hr) | (Hn & msg & Hf)].
  - repeat split.
    + intro H. rewrite Hr in H. injection H as <-. exact Hd.
    + intro Hd'. rewrite Hr. f_equal. exact (decodes_to_unique _ _ _ Hd Hd').
    + intros (msg & Hf) _. rewrite Hr in Hf. discriminate.
    + intro Hn. exfalso. apply Hn. eauto.
    + intros err He. rewrite Hr in He. discriminate.
  - repeat split.
    + intro H. rewrite Hf in H. discriminate.
    + intro Hd. exfalso. apply Hn. eauto.
    + intros _. exact Hn.
    + intros _. eauto.
    + intros err He. rewrite Hf in He. discriminate.
Qed.

Lemma hex_DecodeString_pair (c1 c2 : ascii) (rest : string) :
  hex_DecodeString rest = None ->
  hex_DecodeString (String c1 (String c2 rest)) = None.
Proof.
  intro H. cbn [hex_DecodeString]. rewrite H.
  destruct (fromHexChar c1), (fromHexChar c2); reflexivity.
Qed.

Lemma triples_ind (A : Type) (P : list A -> Prop) :
  P [] -> (forall a, P [a]) -> (forall a b, P [a; b]) ->
  (forall a b c l, P l -> P (a :: b :: c :: l)) ->
  forall l, P l.
Proof.
  intros H0 H1 H2 H3.
  assert (H : forall l, P l /\ (forall a, P (a :: l)) /\ forall a b, P (a :: b :: l)).
  { induction l as [|x l (IH0 & IH1 & IH2)]; repeat split; auto. }
  intro l. apply H.
Qed.

(** A base64 text that ends in padding is not hexadecimal: so it is for
    every byte string whose length is not a multiple of three, a digest of
    32 bytes among them. *)
Lemma hex_DecodeString_base64 (b : bytes) :
  Nat.modulo (length b) 3 <> 0 ->
  hex_DecodeString (base64_EncodeToString b) = None.
Proof.
  induction b as [|b1|b1 b2|b1 b2 b3 rest IH] using triples_ind; intro H.
  - cbn in H. congruence.
  - cbn [base64_EncodeToString]. apply hex_DecodeString_pair. reflexivity.
  - cbn [base64_EncodeToString]. apply hex_DecodeString_pair.
    cbn [hex_DecodeString].
    destruct (fromHexChar _); reflexivity.
  - cbn [base64_EncodeToString]. do 2 apply hex_DecodeString_pair. apply IH.
    intro E. apply H. cbn [length].
    replace (S (S (S (length rest)))) with (length rest + 1 * 3) by lia.
    now rewrite Nat.Div0.mod_add.
Qed.

Lemma marshalled_text :
  json_Marshal Run.metaData
  = ("{" ++ member "rootHash"
              (quoted "5aAf7hTg7VxIcU8iGA8lrYNltT+XefedxKPX6Tlj+Uo=") ++ ","
         ++ member "randomNum"
              (quoted ("ypeBEsobvcr6wjGzmiPcTaeG7/gUfE5yuYB3ha/uSLs+I+gWADlZSjOJ"
                       ++ "T2Vk4bE0i716AIjULErLc+6u1ZwAnS59LAOpUHriZez1tTVohaUz"
                       ++ "k6ICnSQTlJlyZaGiWu/G")) ++ ","
         ++ member "publicKey"
              (quoted ("ypeBEsobvcr6wjGzmiPcTaeG7/gUfE5yuYB3ha/uSLs+I+gWADlZSjOJ"
                       ++ "T2Vk4bE0i716AIjULErLc+6u1ZwAnQ==")) ++ ","
         ++ member "leaves"
              ("[" ++ quoted "ypeBEsobvcr6wjGzmiPcTaeG7/gUfE5yuYB3ha/uSLs=" ++ ","
                   ++ quoted "PiPoFgA5WUoziU9lZOGxNIu9egCI1CxKy3PurtWcAJ0=" ++ "]")
         ++ "}")%string.
Proof. vm_compute. reflexivity. Qed.

Lemma marshalled_is_not_hex :
  String.eqb (json_Marshal Run.metaData) (hex_rendering Run.metaData) = false.
Proof. vm_compute. reflexivity. Qed.

Lemma marshalled_is_fatal :
  ParseTxValue (JD := MiniJSONDecoder)
    (MiniJSON.feed_message (json_Marshal Run.metaData))
  = Fatal "Error decoding rootHash".
Proof. vm_compute. reflexivity. Qed.

Lemma hex_rendering_parses :
  ParseTxValue (JD := MiniJSONDecoder)
    (MiniJSON.feed_message (hex_rendering Run.metaData))
  = Return Run.metaData.
Proof. vm_compute. reflexivity. Qed.

(** C8 at metadata of the usual sizes.  [json.Marshal] writes the byte
    strings in base64, not in hexadecimal; on the feed message that
    carries this text [ParseTxValue] ends the process at the root hash,
    while it returns the metadata from the hexadecimal rendering.  The
    base64 text of a digest is never hexadecimal. *)
Theorem marshalled_metadata_does_not_parse :
  json_Marshal Run.metaData
  = ("{" ++ member "rootHash"
              (quoted "5aAf7hTg7VxIcU8iGA8lrYNltT+XefedxKPX6Tlj+Uo=") ++ ","
         ++ member "randomNum"
              (quoted ("ypeBEsobvcr6wjGzmiPcTaeG7/gUfE5yuYB3ha/uSLs+I+gWADlZSjOJ"
                       ++ "T2Vk4bE0i716AIjULErLc+6u1ZwAnS59LAOpUHriZez1tTVohaUz"
                       ++ "k6ICnSQTlJlyZaGiWu/G")) ++ ","
         ++ member "publicKey"
              (quoted ("ypeBEsobvcr6wjGzmiPcTaeG7/gUfE5yuYB3ha/uSLs+I+gWADlZSjOJ"
                       ++ "T2Vk4bE0i716AIjULErLc+6u1ZwAnQ==")) ++ ","
         ++ member "leaves"
              ("[" ++ quoted "ypeBEsobvcr6wjGzmiPcTaeG7/gUfE5yuYB3ha/uSLs=" ++ ","
                   ++ quoted "PiPoFgA5WUoziU9lZOGxNIu9egCI1CxKy3PurtWcAJ0=" ++ "]")
         ++ "}")%string /\
  json_Marshal Run.metaData <> hex_rendering Run.metaData /\
  ParseTxValue (JD := MiniJSONDecoder)
    (MiniJSON.feed_message (json_Marshal Run.metaData))
  = Fatal "Error decoding rootHash" /\
  ParseTxValue (JD := MiniJSONDecoder)
    (MiniJSON.feed_message (hex_rendering Run.metaData))
  = Return Run.metaData /\
  (forall digest : bytes,
     hex_DecodeString (base64_EncodeToString (getHash digest)) = None).
Proof.
  split; [exact marshalled_text|].
  split; [apply String.eqb_neq; exact marshalled_is_not_hex|].
  split; [exact marshalled_is_fatal|].
  split; [exact hex_rendering_parses|].
  intro digest. apply hex_DecodeString_base64. rewrite getHash_length. discriminate.
Qed.

(* ================================================================== *)
(** * Further properties: the encodings of keys and randomness *)

Lemma Bytes_loop_app (fuel : nat) :
  forall (n : N) (acc : bytes), Bytes_loop fuel n acc = Bytes_loop fuel n [] ++ acc.
Proof.
  induction fuel as [|fuel IH]; intros n acc; cbn [Bytes_loop]; [reflexivity|].
  destruct (n =? 0)%N; [reflexivity|].
  rewrite IH, (IH _ [byte_of_N n]), <- app_assoc. reflexivity.
Qed.

Lemma size_nat_div256 (n : N) : n <> 0%N -> N.size_nat (n / 256) < N.size_nat n.
Proof.
  intro Hz. destruct n as [|q]; [congruence|].
  change 256%N with (2 ^ 8)%N. rewrite <- N.shiftr_div_pow2.
  destruct q as [q|q|]; cbn; try lia;
    repeat (destruct q as [q|q|]; cbn; try lia).
Qed.

Lemma Bytes_loop_fuel (fuel1 : nat) :
  forall (fuel2 : nat) (n : N) (acc : bytes),
    N.size_nat n <= fuel1 -> N.size_nat n <= fuel2 ->
    Bytes_loop fuel1 n acc = Bytes_loop fuel2 n acc.
Proof.
  induction fuel1 as [|fuel1 IH]; intros fuel2 n acc H1 H2.
  - destruct n as [|q]; [destruct fuel2; reflexivity | destruct q; cbn in H1; lia].
  - destruct fuel2 as [|fuel2].
    + destruct n as [|q]; [reflexivity | destruct q; cbn in H2; lia].
    + cbn [Bytes_loop]. destruct (N.eqb_spec n 0) as [->|Hz]; [reflexivity|].
      pose proof (size_nat_div256 n Hz). apply IH; lia.
Qed.

Lemma Bytes_loop_enough (fuel : nat) (n : N) :
  N.size_nat n <= fuel -> Bytes_loop fuel n [] = Bytes n.
Proof. intro H. unfold Bytes. apply Bytes_loop_fuel; lia. Qed.

(** One step of [Bytes]: the last byte is the value modulo 256. *)
Lemma Bytes_step (n : N) :
  n <> 0%N -> Bytes n = Bytes (n / 256) ++ [byte_of_N n].
Proof.
  intro Hz. pose proof (size_nat_div256 n Hz) as Hs.
  unfold Bytes at 1. destruct (N.size_nat n) as [|k] eqn:Ek; [lia|].
  cbn [Bytes_loop]. destruct (N.eqb_spec n 0) as [|_]; [contradiction|].
  rewrite Bytes_loop_app, Bytes_loop_enough by lia. reflexivity.
Qed.

Lemma Bytes_0 : Bytes 0 = [].
Proof. reflexivity. Qed.

Lemma byte_of_N_x00 (n : N) : (n < 256)%N -> byte_of_N n = x00 -> n = 0%N.
Proof.
  intros Hn E. pose proof (to_N_byte_of_N n) as H. rewrite E in H.
  rewrite N.mod_small in H by exact Hn. cbn in H. lia.
Qed.

Lemma Bytes_no_leading_zero (n : N) : no_leading_zero (Bytes n).
Proof.
  induction n as [n IH] using (well_founded_induction N.lt_wf_0).
  destruct (N.eqb_spec n 0) as [->|Hz]; [unfold no_leading_zero; cbn; discriminate|].
  rewrite Bytes_step by exact Hz.
  assert (Hlt : (n / 256 < n)%N) by (apply N.div_lt; lia).
  specialize (IH _ Hlt). unfold no_leading_zero in *.
  destruct (Bytes (n / 256)) as [|b l] eqn:E.
  - cbn. intro Hb.
    destruct (N.eqb_spec (n / 256) 0) as [Hq|Hq].
    + apply N.div_small_iff in Hq; [|lia].
      apply byte_of_N_x00 in Hb; [contradiction | exact Hq].
    + rewrite Bytes_step in E by exact Hq. destruct (Bytes (n / 256 / 256)); discriminate.
  - exact IH.
Qed.

Lemma no_leading_zero_app (x y : bytes) :
  no_leading_zero x -> no_leading_zero y -> no_leading_zero (x ++ y).
Proof. destruct x; cbn; auto. Qed.

Lemma no_leading_zero_firstn (k : nat) (x : bytes) :
  no_leading_zero x -> no_leading_zero (firstn k x).
Proof.
  destruct k, x; cbn; auto; unfold no_leading_zero; cbn; discriminate.
Qed.

Lemma SetBytes_snoc (l : bytes) (b : byte) :
  SetBytes (l ++ [b]) = (SetBytes l * 256 + Byte.to_N b)%N.
Proof.
  unfold SetBytes. rewrite be_value_app. cbn [length].
  change (SHA256.be_value [b]) with (0 * 256 + Byte.to_N b)%N.
  change (256 ^ N.of_nat 1)%N with 256%N. lia.
Qed.

(** [Bytes] undoes [SetBytes] on a string without a leading zero. *)
Lemma Bytes_SetBytes (l : bytes) : no_leading_zero l -> Bytes (SetBytes l) = l.
Proof.
  induction l as [|b l IH] using rev_ind; intro Hl; [reflexivity|].
  rewrite SetBytes_snoc.
  pose proof (Byte.to_N_bounded b) as Hb.
  assert (Hdiv : ((SetBytes l * 256 + Byte.to_N b) / 256 = SetBytes l)%N).
  { rewrite N.div_add_l by lia. rewrite N.div_small by lia. lia. }
  assert (Hmod : byte_of_N (SetBytes l * 256 + Byte.to_N b) = b).
  { unfold byte_of_N.
    replace ((SetBytes l * 256 + Byte.to_N b) mod 256)%N with (Byte.to_N b).
    - now rewrite Byte.of_to_N.
    - rewrite N.add_comm, N.Div0.mod_add. now rewrite N.mod_small by lia. }
  destruct l as [|c l].
  - cbn [app] in *. unfold no_leading_zero in Hl. cbn in Hl.
    assert (Hz : (SetBytes [] * 256 + Byte.to_N b)%N <> 0%N).
    { change (SetBytes []) with 0%N. intro E.
      apply Hl. rewrite <- (byte_of_to_N b).
      replace (Byte.to_N b) with 0%N by lia. reflexivity. }
    rewrite Bytes_step by exact Hz. rewrite Hdiv, Hmod. reflexivity.
  - assert (Hc : no_leading_zero (c :: l)) by exact Hl.
    specialize (IH Hc).
    assert (Hz : SetBytes (c :: l) <> 0%N).
    { intro E. rewrite E in IH. discriminate. }
    rewrite Bytes_step by lia. rewrite Hdiv, Hmod, IH. reflexivity.
Qed.

Lemma SetBytes_bound (l : bytes) : (SetBytes l < 256 ^ N.of_nat (length l))%N.
Proof.
  induction l as [|b l IH] using rev_ind; [cbn; lia|].
  rewrite SetBytes_snoc, length_app. cbn [length].
  rewrite Nat.add_1_r, Nat2N.inj_succ, N.pow_succ_r'.
  pose proof (Byte.to_N_bounded b). lia.
Qed.

Lemma SetBytes_lower (l : bytes) :
  l <> [] -> no_leading_zero l -> (256 ^ N.of_nat (length l - 1) <= SetBytes l)%N.
Proof.
  destruct l as [|b l]; [congruence|]. intros _ Hb.
  unfold SetBytes. rewrite be_value_cons. cbn [length].
  replace (S (length l) - 1) with (length l) by lia.
  assert (Byte.to_N b <> 0%N).
  { intro E. apply Hb. cbn. rewrite <- (byte_of_to_N b), E. reflexivity. }
  nia.
Qed.

(** The width of [Bytes n]: 32 bytes exactly for the values of 249 to
    256 bits. *)
Lemma Bytes_length_32 (n : N) :
  length (Bytes n) = 32 <-> (256 ^ 31 <= n < 256 ^ 32)%N.
Proof.
  pose proof (SetBytes_bound (Bytes n)) as Hup.
  pose proof (SetBytes_lower (Bytes n)) as Hlo.
  pose proof (Bytes_no_leading_zero n) as Hnz.
  rewrite SetBytes_Bytes in Hup, Hlo.
  split.
  - intro E. rewrite E in *. split; [|exact Hup].
    apply Hlo; [|exact Hnz]. intro E'. rewrite E' in E. discriminate.
  - intros [H1 H2].
    destruct (Nat.lt_trichotomy (length (Bytes n)) 32) as [Hk|[Hk|Hk]]; [|exact Hk|].
    + exfalso.
      assert (256 ^ N.of_nat (length (Bytes n)) <= 256 ^ 31)%N
        by (apply N.pow_le_mono_r; lia).
      lia.
    + exfalso.
      assert (Hne : Bytes n <> []) by (intro E'; rewrite E' in Hk; cbn in Hk; lia).
      specialize (Hlo Hne Hnz).
      assert (256 ^ 32 <= 256 ^ N.of_nat (length (Bytes n) - 1))%N
        by (apply N.pow_le_mono_r; lia).
      lia.
Qed.

Lemma firstn_length_app {A : Type} (x y : list A) : firstn (length x) (x ++ y) = x.
Proof. induction x as [|a x IH]; cbn; [reflexivity | now rewrite IH]. Qed.

Lemma skipn_length_app {A : Type} (x y : list A) : skipn (length x) (x ++ y) = y.
Proof. induction x as [|a x IH]; cbn; [reflexivity | exact IH]. Qed.

Lemma Serialize_no_leading_zero (x y : N) : no_leading_zero (Bytes x ++ Bytes y).
Proof. apply no_leading_zero_app; apply Bytes_no_leading_zero. Qed.

Lemma SetBytes_first_32 (data : bytes) (n : N) :
  32 <= length data -> no_leading_zero data ->
  SetBytes (firstn 32 data) = n -> length (Bytes n) = 32.
Proof.
  intros Hlen Hnz E. rewrite <- E, Bytes_SetBytes.
  - rewrite length_firstn. lia.
  - now apply no_leading_zero_firstn.
Qed.

(** X1. A public key written by [Serialize] is read back by
    [DeserializeChameleomPubKey] exactly when its first coordinate fills
    32 bytes, that is when it lies between [256^31] and [256^32]: [Bytes]
    drops leading zero bytes, while the reader cuts at byte 32 whatever
    the width of the coordinate.  The second coordinate may have any
    width. *)
Theorem ChameleomPubKey_roundtrip_iff :
  forall pubKey : ChameleomPubKey,
    DeserializeChameleomPubKey (ChameleomPubKey_Serialize pubKey) = Return pubKey
    <-> (256 ^ 31 <= pubX pubKey < 256 ^ 32)%N.
Proof.
  intros [x y]. cbn [pubX]. rewrite <- Bytes_length_32.
  unfold DeserializeChameleomPubKey, ChameleomPubKey_Serialize. cbn [pubX pubY].
  split.
  - intro H.
    destruct (Nat.le_gt_cases 32 (length (Bytes x ++ Bytes y))) as [Hlen|Hlen].
    + rewrite slice_returns, slice_from_returns in H by exact Hlen.
      cbn [bind] in H. rewrite skipn_0 in H. change (32 - 0) with 32 in H.
      apply (SetBytes_first_32 (Bytes x ++ Bytes y)); [exact Hlen | |congruence].
      apply Serialize_no_leading_zero.
    + rewrite (slice_panics _ 0 32 Hlen) in H. discriminate.
  - intro Hx.
    rewrite slice_returns, slice_from_returns by (rewrite length_app; lia).
    cbn [bind]. rewrite skipn_0. change (32 - 0) with 32.
    assert (H1 : firstn 32 (Bytes x ++ Bytes y) = Bytes x)
      by (rewrite <- Hx at 1; apply firstn_length_app).
    assert (H2 : skipn 32 (Bytes x ++ Bytes y) = Bytes y)
      by (rewrite <- Hx at 1; apply skipn_length_app).
    now rewrite H1, H2, !SetBytes_Bytes.
Qed.

(** X2. Randomness written by [Serialize] is read back by
    [DeserializeChameleonRandomNum] exactly when both coordinates [rX] and
    [rY] fill 32 bytes.  With a shorter coordinate the reader takes bytes
    of the next number for it, or fails on a slice bound. *)
Theorem ChameleonRandomNum_roundtrip_iff :
  forall randomNum : ChameleonRandomNum,
    DeserializeChameleonRandomNum (ChameleonRandomNum_Serialize randomNum)
    = Return randomNum
    <-> (256 ^ 31 <= rX randomNum < 256 ^ 32)%N /\
        (256 ^ 31 <= rY randomNum < 256 ^ 32)%N.
Proof.
  intros [x y z]. cbn [rX rY]. rewrite <- !Bytes_length_32.
  unfold DeserializeChameleonRandomNum, ChameleonRandomNum_Serialize. cbn [rX rY s].
  set (data := (Bytes x ++ Bytes y) ++ Bytes z).
  split.
  - intro H.
    destruct (Nat.le_gt_cases 64 (length data)) as [Hlen|Hlen].
    + rewrite (slice_returns data 0 32), (slice_returns data 32 64),
        slice_from_returns in H by lia.
      cbn [bind] in H. change (32 - 0) with 32 in H. change (64 - 32) with 32 in H.
      change (skipn 0 data) with data in H.
      assert (Hx : length (Bytes x) = 32).
      { apply (SetBytes_first_32 data); [lia| |congruence].
        subst data. rewrite <- app_assoc.
        apply no_leading_zero_app; [apply Bytes_no_leading_zero|].
        apply Serialize_no_leading_zero. }
      split; [exact Hx|].
      assert (Hs : skipn 32 data = Bytes y ++ Bytes z).
      { subst data. rewrite <- app_assoc, <- Hx at 1. apply skipn_length_app. }
      rewrite Hs in H.
      apply (SetBytes_first_32 (Bytes y ++ Bytes z)); [| |congruence].
      * rewrite <- Hs, length_skipn. lia.
      * apply Serialize_no_leading_zero.
    + exfalso.
      destruct (Nat.le_gt_cases 32 (length data)) as [H32|H32].
      * rewrite (slice_returns data 0 32) in H by lia. cbn [bind] in H.
        rewrite (slice_panics data 32 64 Hlen) in H. discriminate.
      * rewrite (slice_panics data 0 32 H32) in H. discriminate.
  - intros [Hx Hy].
    assert (Hlen : 64 <= length data) by (subst data; rewrite !length_app; lia).
    rewrite (slice_returns data 0 32), (slice_returns data 32 64),
      slice_from_returns by lia.
    cbn [bind]. change (32 - 0) with 32. change (64 - 32) with 32.
    change (skipn 0 data) with data.
    assert (H1 : firstn 32 data = Bytes x).
    { subst data. rewrite <- app_assoc, <- Hx at 1. apply firstn_length_app. }
    assert (H2 : skipn 32 data = Bytes y ++ Bytes z).
    { subst data. rewrite <- app_assoc, <- Hx at 1. apply skipn_length_app. }
    assert (H3 : skipn 64 data = Bytes z).
    { change 64 with (32 + 32). rewrite <- skipn_skipn, H2, <- Hy at 1.
      apply skipn_length_app. }
    rewrite H1, H2, H3. rewrite <- Hy at 1. rewrite firstn_length_app.
    now rewrite !SetBytes_Bytes.
Qed.

(* ================================================================== *)
(** * Further properties: how the build ends *)

(** The four ways the shared part of [BuildMerkleTree] and
    [UpdateMerkleTree] ends. *)
Lemma buildSkeleton_cases (heap : nat) (file : File) (config : MerkleConfig) :
  ((BlockSize config < 0)%Z /\
   buildSkeleton heap file config = Panic MakeSliceLenOutOfRange) \/
  ((0 <= BlockSize config)%Z /\
   exists err, fault file = Some err /\ buildSkeleton heap file config = Error err) \/
  ((0 <= BlockSize config)%Z /\ fault file = None /\
   (BlockSize config = 0%Z \/ unread file = []) /\
   buildSkeleton heap file config = Panic (IndexOutOfRange 0 0)) \/
  ((0 < BlockSize config)%Z /\ fault file = None /\ unread file <> [] /\
   exists top, buildSkeleton heap file config = Return top).
Proof.
  destruct (Z.ltb_spec (BlockSize config) 0) as [Hneg|Hpos].
  { left. split; [exact Hneg|]. unfold buildSkeleton.
    now rewrite (proj2 (Z.ltb_lt _ _) Hneg). }
  right. destruct file as [data [err|]].
  { left. split; [exact Hpos|]. exists err. split; [reflexivity|].
    unfold buildSkeleton. rewrite (proj2 (Z.ltb_ge _ _) Hpos).
    cbn [unread readLeaves]. unfold File_Read. cbn [fault]. reflexivity. }
  right. destruct (Z.eq_dec (BlockSize config) 0) as [Hz|Hnz].
  { left. repeat split; auto. unfold buildSkeleton.
    rewrite (proj2 (Z.ltb_ge _ _) Hpos). cbn [unread readLeaves].
    unfold File_Read. cbn [fault unread]. rewrite Hz. reflexivity. }
  destruct data as [|b data].
  { left. repeat split; auto. unfold buildSkeleton.
    rewrite (proj2 (Z.ltb_ge _ _) Hpos). cbn [unread length readLeaves].
    unfold File_Read. cbn [fault unread].
    destruct (Z.to_nat (BlockSize config)); reflexivity. }
  right. repeat split; [lia | | apply buildSkeleton_returns; cbn; [reflexivity|discriminate|lia]].
  discriminate.
Qed.

Lemma topNode_is_Ptr (nodes : list MerkleNode) (heap : nat) (top : bytes * MerkleNode) :
  topNode nodes heap = Return top ->
  exists l r, snd top = Ptr heap [] l r.
Proof.
  unfold topNode. intro H.
  destruct (Nat.eqb (length nodes) 1).
  - destruct (index nodes 0) as [n0| | |]; cbn [bind] in H; try discriminate.
    injection H as <-. cbn. eauto.
  - destruct (index nodes 0) as [n0| | |]; cbn [bind] in H; try discriminate.
    destruct (index nodes 1) as [n1| | |]; cbn [bind] in H; try discriminate.
    injection H as <-. cbn. eauto.
Qed.

Lemma buildSkeleton_is_Ptr (heap : nat) (file : File) (config : MerkleConfig)
    (top : bytes * MerkleNode) :
  buildSkeleton heap file config = Return top ->
  exists a l r, snd top = Ptr a [] l r.
Proof.
  unfold buildSkeleton. intro H.
  destruct (BlockSize config <? 0)%Z; [discriminate|].
  destruct (readLeaves _ _ _ _ _) as [leaves| | |]; cbn [bind] in H; try discriminate.
  apply topNode_is_Ptr in H. destruct H as (l & r & H). eauto.
Qed.


Section Outcomes.
Context {CH : ChameleonHash}.


End Outcomes.

(* ================================================================== *)
(** * Further properties: the tree and the list of its leaves *)

Lemma chunks_length (size : nat) :
  0 < size ->
  forall fuel data,
    length data <= fuel ->
    length (chunks fuel size data) = (length data + size - 1) / size.
Proof.
  intros Hs. induction fuel as [|fuel IH]; intros data Hf.
  - destruct data; [|cbn in Hf; lia]. cbn [chunks length].
    symmetry. apply Nat.div_small. lia.
  - destruct data as [|b data].
    + cbn [chunks length]. symmetry. apply Nat.div_small. lia.
    + cbn [chunks length]. rewrite IH by (rewrite length_skipn; cbn [length] in *; lia).
      rewrite length_skipn. cbn [length].
      destruct (Nat.le_gt_cases size (S (length data))) as [Hle|Hgt].
      * replace (S (length data) + size - 1) with ((S (length data) - size + size - 1) + 1 * size) by lia.
        rewrite Nat.div_add by lia. lia.
      * replace (S (length data) - size) with 0 by lia.
        replace ((0 + size - 1) / size) with 0 by (symmetry; apply Nat.div_small; lia).
        apply (Nat.div_unique _ _ 1 (length data)); lia.
Qed.

Lemma stream_blocks_length (size : nat) (data : bytes) :
  0 < size -> length (stream_blocks size data) = (length data + size - 1) / size.
Proof. intro Hs. unfold stream_blocks. now apply chunks_length. Qed.

Lemma stream_blocks_one (size : nat) (data : bytes) :
  data <> [] -> length data <= size -> stream_blocks size data = [data].
Proof.
  intros Hne Hle. unfold stream_blocks. destruct data as [|b data]; [congruence|].
  cbn [length chunks]. rewrite firstn_all2 by exact Hle.
  rewrite skipn_all2 by exact Hle. destruct (length data); reflexivity.
Qed.

(** ** The digests of the levels *)

Lemma leafNodes_hashes (leaves : list bytes) :
  forall heap, map Hash (fst (leafNodes leaves heap)) = leaves.
Proof.
  induction leaves as [|leaf rest IH]; intro heap; [reflexivity|].
  rewrite leafNodes_fst_cons. cbn [map Hash]. now rewrite IH.
Qed.

Lemma newLevel_hashes (nodes : list MerkleNode) :
  forall heap, map Hash (fst (newLevel nodes heap)) = pair_up (map Hash nodes).
Proof.
  induction nodes as [| a | a b l IH] using pairs_ind; intro heap; try reflexivity.
  cbn [newLevel]. specialize (IH (S heap)).
  destruct (newLevel l (S heap)) as [level heap']. cbn [fst map Hash pair_up] in *.
  now rewrite IH.
Qed.

Lemma buildLevels_hashes (fuel : nat) :
  forall nodes heap,
    map Hash (fst (buildLevels fuel nodes heap)) = reduce fuel (map Hash nodes).
Proof.
  induction fuel as [|fuel IH]; intros nodes heap; [reflexivity|].
  cbn [buildLevels reduce]. rewrite length_map.
  destruct (Nat.ltb 2 (length nodes)); [|reflexivity].
  pose proof (newLevel_hashes nodes heap) as H.
  destruct (newLevel nodes heap) as [level heap']. cbn [fst] in H.
  now rewrite IH, H.
Qed.

Lemma topNode_message (nodes : list MerkleNode) (heap : nat) :
  1 <= length nodes <= 2 ->
  exists l r,
    topNode nodes heap = Return (concat (map Hash nodes), Ptr heap [] l r).
Proof.
  intros Hlen. destruct nodes as [|n0 [|n1 [|n2 rest]]]; cbn in Hlen; try lia.
  - exists n0, Nil. cbn. now rewrite app_nil_r.
  - exists n0, n1. cbn. now rewrite app_nil_r.
Qed.

(** The tree over a list of leaf digests, which [BuildMerkleTree] makes
    from the blocks it reads and [RebuildMerkleTreeFromMetaData] from the
    leaves of the metadata: its message is [root_message], whatever the
    addresses, and its leaves are the digests, left to right. *)
Lemma tree_of_leaves (leaves : list bytes) (heap : nat) :
  leaves <> [] ->
  let lv := leafNodes leaves heap in
  let top := buildLevels (length (fst lv)) (fst lv) (snd lv) in
  exists a l r,
    topNode (fst top) (snd top) = Return (root_message leaves, Ptr a [] l r) /\
    forall rootHash, leaf_hashes (Ptr a rootHash l r) = leaves.
Proof.
  intros Hne lv top.
  assert (Hlv : length (fst lv) = length leaves) by apply leafNodes_length.
  assert (Hlen : 1 <= length (fst top) <= 2).
  { apply buildLevels_length; [lia|]. rewrite <- length_zero_iff_nil.
    rewrite Hlv, length_zero_iff_nil. exact Hne. }
  destruct (topNode_message (fst top) (snd top) Hlen) as (l & r & Ht).
  exists (snd top), l, r. split.
  - rewrite Ht. unfold root_message. subst top.
    rewrite buildLevels_hashes. subst lv. rewrite leafNodes_hashes, leafNodes_length.
    reflexivity.
  - intro rootHash.
    destruct (leafNodes_leaf_hashes leaves heap) as [Hn Hl].
    destruct (buildLevels_leaf_hashes (length (fst lv)) (fst lv) (snd lv) Hn) as [Hn' Hl'].
    pose proof (topNode_leaf_hashes (fst top) (snd top) _ Hn' (proj2 Hlen) Ht rootHash) as H.
    cbn [snd set_Hash] in H. rewrite H. fold lv in Hl. subst top. congruence.
Qed.

Lemma buildSkeleton_unfold (heap : nat) (data : bytes) (config : MerkleConfig) :
  (0 < BlockSize config)%Z ->
  buildSkeleton heap (mkFile data None) config
  = let leaves := map getHash (stream_blocks (Z.to_nat (BlockSize config)) data) in
    let lv := leafNodes leaves heap in
    let top := buildLevels (length (fst lv)) (fst lv) (snd lv) in
    topNode (fst top) (snd top).
Proof.
  intro Hbs. unfold buildSkeleton.
  rewrite (proj2 (Z.ltb_ge _ _)) by lia. cbn [unread].
  rewrite readLeaves_blocks by (try exact Hbs; lia).
  cbn [bind fst snd app]. cbv zeta. rewrite leafNodes_snd, length_map. reflexivity.
Qed.

Lemma reduce_length_2 (fuel : nat) :
  forall hashes,
    length hashes <= fuel -> 2 <= length hashes -> length (reduce fuel hashes) = 2.
Proof.
  assert (P : forall hs : list bytes,
             length hs <= 2 * length (pair_up hs) <= length hs + 1).
  { induction hs as [| a | a b l IH] using pairs_ind; cbn [pair_up length] in *; lia. }
  induction fuel as [|fuel IH]; intros hashes Hf H2; [lia|].
  cbn [reduce]. destruct (Nat.ltb_spec 2 (length hashes)) as [Hlt|Hge]; [|lia].
  pose proof (P hashes). apply IH; lia.
Qed.

Lemma reduce_digests (fuel : nat) :
  forall hashes,
    Forall (fun h => length h = 32) hashes ->
    Forall (fun h => length h = 32) (reduce fuel hashes).
Proof.
  assert (P : forall hs : list bytes,
             Forall (fun h => length h = 32) hs ->
             Forall (fun h => length h = 32) (pair_up hs)).
  { induction hs as [| a | a b l IH] using pairs_ind; intro H; cbn [pair_up]; auto.
    inversion H as [|? ? _ H']; subst. inversion H' as [|? ? _ H'']; subst.
    constructor; [apply getHash_length | auto]. }
  induction fuel as [|fuel IH]; intros hashes H; [exact H|].
  cbn [reduce]. destruct (Nat.ltb 2 _); [apply IH, P, H | exact H].
Qed.

(** The message has 32 bytes for one leaf digest and 64 for more. *)
Lemma root_message_length (leaves : list bytes) :
  leaves <> [] -> Forall (fun h => length h = 32) leaves ->
  length (root_message leaves) = if Nat.eqb (length leaves) 1 then 32 else 64.
Proof.
  intros Hne Hd. unfold root_message.
  destruct leaves as [|h0 [|h1 rest]]; [congruence| |].
  - cbn. inversion Hd; subst. rewrite app_nil_r. assumption.
  - pose proof (reduce_length_2 (length (h0 :: h1 :: rest)) (h0 :: h1 :: rest)) as H2.
    pose proof (reduce_digests (length (h0 :: h1 :: rest)) _ Hd) as H32.
    destruct (reduce _ _) as [|a [|b [|c l]]]; cbn [length] in H2; try lia.
    inversion H32 as [|? ? Ha H']; subst. inversion H' as [|? ? Hb _]; subst.
    cbn. rewrite app_nil_r, length_app. cbn [length] in *. 
    replace (Nat.eqb (S (S (length rest))) 1) with false by reflexivity. lia.
Qed.

Section Leaves.
Context {CH : ChameleonHash}.

(** X4. On a readable, non-empty stream [BuildMerkleTree] makes one leaf
    for every block of [BlockSize] bytes, the last block possibly shorter:
    [GetAllLeavesHashes] returns [ceil(len / BlockSize)] hashes, the
    digests of the blocks in some order; the message of the chameleon hash
    is the pairwise reduction of the block digests, which is the digest of
    the whole stream when the stream fits one block and has 64 bytes
    otherwise; and the root hash is the big-endian form of the hash value
    computed on that message. *)
Theorem BuildMerkleTree_leaves_and_message :
  forall (e : Entropy) (heap : nat) (data : bytes) (config : MerkleConfig)
         (pubKey : ChameleomPubKey),
    data <> [] -> (0 < BlockSize config)%Z ->
    let size := Z.to_nat (BlockSize config) in
    let digests := map getHash (stream_blocks size data) in
    exists root randomNum combined,
      BuildMerkleTree e heap (mkFile data None) config pubKey
      = Return (root, randomNum, combined) /\
      length (GetAllLeavesHashes root) = (length data + size - 1) / size /\
      Permutation (GetAllLeavesHashes root) digests /\
      combined = root_message digests /\
      (length data <= size -> combined = getHash data) /\
      (size < length data -> length combined = 64) /\
      Hash root = Bytes (out_hX (ComputeHash e combined (pubX pubKey) (pubY pubKey))).
Proof.
  intros e heap data config pubKey Hne Hbs size digests.
  assert (Hsize : 0 < size) by (subst size; lia).
  assert (Hd : digests <> []).
  { subst digests. intro E. apply map_eq_nil in E.
    revert E. now apply stream_blocks_nonempty. }
  destruct (tree_of_leaves digests heap Hd) as (a & l & r & Ht & Hl).
  unfold BuildMerkleTree. rewrite buildSkeleton_unfold by exact Hbs.
  cbv zeta. fold size. fold digests. cbv zeta in Ht. rewrite Ht.
  cbn [bind fst snd set_Hash]. do 3 eexists. split; [reflexivity|].
  assert (Hperm : Permutation (GetAllLeavesHashes (Ptr a (Bytes (out_hX
             (ComputeHash e (root_message digests) (pubX pubKey) (pubY pubKey)))) l r))
             digests).
  { rewrite GetAllLeavesHashes_permutation. now rewrite Hl. }
  split.
  { rewrite (Permutation_length Hperm). subst digests.
    rewrite length_map. now apply stream_blocks_length. }
  split; [exact Hperm|]. split; [reflexivity|].
  split; [|split; [|reflexivity]].
  - intro Hle. subst digests. rewrite stream_blocks_one by assumption.
    cbn. now rewrite app_nil_r.
  - intro Hlt. rewrite root_message_length; [|exact Hd|].
    + subst digests. rewrite length_map, stream_blocks_length by exact Hsize.
      destruct (Nat.eqb_spec ((length data + size - 1) / size) 1) as [E|]; [|reflexivity].
      exfalso.
      assert (2 <= (length data + size - 1) / size).
      { apply Nat.div_le_lower_bound; lia. }
      lia.
    + subst digests. apply Forall_map, Forall_forall. intros x _. apply getHash_length.
Qed.

End Leaves.

(** ** Streams of [2^k] blocks *)

Lemma perfect_not_nil (d : nat) (n : MerkleNode) : perfect d n -> is_nil n = false.
Proof. destruct n; cbn; [intros [] | reflexivity]. Qed.

Lemma leafNodes_perfect (leaves : list bytes) :
  forall heap, Forall (perfect 0) (fst (leafNodes leaves heap)).
Proof.
  induction leaves as [|leaf rest IH]; intro heap; [constructor|].
  rewrite leafNodes_fst_cons. constructor; [cbn; auto | apply IH].
Qed.

Lemma newLevel_perfect (d : nat) (nodes : list MerkleNode) :
  forall heap,
    Forall (perfect d) nodes -> Nat.even (length nodes) = true ->
    Forall (perfect (S d)) (fst (newLevel nodes heap)) /\
    2 * length (fst (newLevel nodes heap)) = length nodes.
Proof.
  induction nodes as [| a | a b l IH] using pairs_ind; intros heap Hp He.
  - cbn. split; [constructor | reflexivity].
  - discriminate.
  - inversion Hp as [|? ? Ha Hp']; subst. inversion Hp' as [|? ? Hb Hl]; subst.
    cbn [newLevel]. specialize (IH (S heap) Hl He).
    destruct (newLevel l (S heap)) as [level heap']. cbn [fst length] in *.
    split; [constructor; [cbn; auto | apply IH] | lia].
Qed.

Lemma pow2_even (k : nat) : Nat.even (2 ^ S k) = true.
Proof. rewrite Nat.pow_succ_r'. apply Nat.even_spec. now exists (2 ^ k). Qed.

Lemma buildLevels_perfect (k : nat) :
  forall fuel nodes heap d,
    length nodes = 2 ^ S k -> length nodes <= fuel -> Forall (perfect d) nodes ->
    length (fst (buildLevels fuel nodes heap)) = 2 /\
    Forall (perfect (d + k)) (fst (buildLevels fuel nodes heap)).
Proof.
  induction k as [|k IH]; intros fuel nodes heap d Hlen Hf Hp.
  - change (2 ^ 1) with 2 in Hlen. rewrite Nat.add_0_r.
    destruct fuel as [|fuel]; cbn [buildLevels fst]; [lia|].
    rewrite Hlen. cbn [Nat.ltb Nat.leb fst]. auto.
  - assert (Hpos : 2 <= 2 ^ S k).
    { change 2 with (2 ^ 1) at 1. apply Nat.pow_le_mono_r; lia. }
    rewrite Nat.pow_succ_r' in Hlen.
    destruct fuel as [|fuel]; [lia|]. cbn [buildLevels].
    destruct (Nat.ltb_spec 2 (length nodes)) as [_|Hge]; [|lia].
    assert (He : Nat.even (length nodes) = true).
    { rewrite Hlen. apply Nat.even_spec. now exists (2 ^ S k). }
    destruct (newLevel_perfect d nodes heap Hp He) as [Hp' Hlen'].
    destruct (newLevel nodes heap) as [level heap']. cbn [fst] in *.
    replace (d + S k) with (S d + k) by lia.
    apply IH; [lia | lia | exact Hp'].
Qed.

Lemma queue_weight_cons (n : MerkleNode) (q : list MerkleNode) :
  queue_weight (n :: q) = weight n + queue_weight q.
Proof. reflexivity. Qed.

Lemma traverse_leaves (fuel : nat) :
  forall queue leafHashes,
    Forall (perfect 0) queue -> length queue <= fuel ->
    traverse fuel queue leafHashes = leafHashes ++ map Hash queue.
Proof.
  induction fuel as [|fuel IH]; intros queue acc Hq Hf.
  - destruct queue; [cbn; now rewrite app_nil_r | cbn in Hf; lia].
  - destruct queue as [|n queue]; [cbn; now rewrite app_nil_r|].
    inversion Hq as [|? ? Hn Hq']; subst.
    destruct n as [|a h l r]; [destruct Hn|]. destruct Hn as [-> ->].
    cbn [traverse Left Right is_nil andb Hash]. rewrite IH by (cbn in Hf; auto; lia).
    cbn [map Hash]. now rewrite <- app_assoc.
Qed.

Lemma traverse_inner (d : nat) (q : list MerkleNode) :
  forall rest fuel leafHashes,
    Forall (perfect (S d)) q -> length q <= fuel ->
    traverse fuel (q ++ rest) leafHashes
    = traverse (fuel - length q) (rest ++ flat_map children q) leafHashes.
Proof.
  induction q as [|n q IH]; intros rest fuel acc Hq Hf.
  - cbn. now rewrite Nat.sub_0_r, app_nil_r.
  - inversion Hq as [|? ? Hn Hq']; subst.
    destruct fuel as [|fuel]; [cbn in Hf; lia|].
    destruct n as [|a h l r]; [destruct Hn|]. destruct Hn as [Hl Hr].
    cbn [app traverse Left Right length Nat.sub].
    rewrite (perfect_not_nil _ _ Hl), (perfect_not_nil _ _ Hr). cbn [andb].
    rewrite <- !app_assoc. rewrite IH by (cbn in Hf; auto; lia).
    cbn [flat_map children Left Right app]. now rewrite <- !app_assoc.
Qed.

Lemma perfect_children (d : nat) (q : list MerkleNode) :
  Forall (perfect (S d)) q ->
  Forall (perfect d) (flat_map children q) /\
  flat_map leaf_hashes (flat_map children q) = flat_map leaf_hashes q /\
  queue_weight q = length q + queue_weight (flat_map children q).
Proof.
  induction q as [|n q IH]; intro Hq; [cbn; auto|].
  inversion Hq as [|? ? Hn Hq']; subst. destruct (IH Hq') as (H1 & H2 & H3).
  destruct n as [|a h l r]; [destruct Hn|]. destruct Hn as [Hl Hr].
  cbn [flat_map children Left Right app]. repeat split.
  - constructor; [exact Hl|]. constructor; [exact Hr | exact H1].
  - cbn [flat_map] in *. rewrite H2, leaf_hashes_node.
    rewrite (perfect_not_nil _ _ Hl). cbn [andb]. now rewrite <- app_assoc.
  - rewrite !queue_weight_cons, H3. cbn [weight length]. lia.
Qed.

Lemma perfect_leaf_hashes (q : list MerkleNode) :
  Forall (perfect 0) q -> flat_map leaf_hashes q = map Hash q.
Proof.
  induction q as [|n q IH]; intro Hq; [reflexivity|].
  inversion Hq as [|? ? Hn Hq']; subst.
  destruct n as [|a h l r]; [destruct Hn|]. destruct Hn as [-> ->].
  cbn. now rewrite IH.
Qed.

Lemma queue_weight_length (d : nat) (q : list MerkleNode) :
  Forall (perfect d) q -> length q <= queue_weight q.
Proof.
  induction q as [|n q IH]; intro Hq; [cbn; lia|].
  inversion Hq as [|? ? Hn Hq']; subst. specialize (IH Hq').
  rewrite queue_weight_cons. destruct n; [destruct Hn|]. cbn [weight length]. lia.
Qed.

(** Level by level is left to right when all leaves lie at one depth. *)
Lemma traverse_perfect (d : nat) :
  forall queue fuel leafHashes,
    Forall (perfect d) queue -> queue_weight queue <= fuel ->
    traverse fuel queue leafHashes = leafHashes ++ flat_map leaf_hashes queue.
Proof.
  induction d as [|d IH]; intros queue fuel acc Hq Hf.
  - rewrite perfect_leaf_hashes by exact Hq. apply traverse_leaves; [exact Hq|].
    pose proof (queue_weight_length 0 queue Hq). lia.
  - destruct (perfect_children d queue Hq) as (H1 & H2 & H3).
    rewrite <- (app_nil_r queue) at 1.
    rewrite (traverse_inner d) by (auto; lia). cbn [app].
    rewrite IH by (auto; lia). now rewrite H2.
Qed.

Lemma GetAllLeavesHashes_perfect (d : nat) (root : MerkleNode) :
  perfect d root -> GetAllLeavesHashes root = leaf_hashes root.
Proof.
  intro Hp. unfold GetAllLeavesHashes. rewrite (perfect_not_nil _ _ Hp).
  rewrite (traverse_perfect d); [cbn; now rewrite app_nil_r | now constructor |].
  rewrite queue_weight_cons. cbn. lia.
Qed.

Section PowerOfTwo.
Context {CH : ChameleonHash}.

(** X5. When the stream has [2^k] blocks, [GetAllLeavesHashes] gives the
    leaves of the tree of [BuildMerkleTree] in the order of the stream:
    all leaves then lie at one depth, where level order and left-to-right
    order agree.  (For three blocks they differ.) *)
Theorem GetAllLeavesHashes_stream_order :
  forall (e : Entropy) (heap : nat) (data : bytes) (config : MerkleConfig)
         (pubKey : ChameleomPubKey) (k : nat),
    (0 < BlockSize config)%Z ->
    length (stream_blocks (Z.to_nat (BlockSize config)) data) = 2 ^ k ->
    exists root randomNum combined,
      BuildMerkleTree e heap (mkFile data None) config pubKey
      = Return (root, randomNum, combined) /\
      GetAllLeavesHashes root
      = map getHash (stream_blocks (Z.to_nat (BlockSize config)) data).
Proof.
  intros e heap data config pubKey k Hbs Hk.
  set (digests := map getHash (stream_blocks (Z.to_nat (BlockSize config)) data)).
  assert (Hlen : length digests = 2 ^ k) by (subst digests; now rewrite length_map).
  unfold BuildMerkleTree. rewrite buildSkeleton_unfold by exact Hbs.
  cbv zeta. fold digests.
  pose proof (leafNodes_perfect digests heap) as Hp.
  pose proof (leafNodes_length digests heap) as Hl.
  pose proof (leafNodes_hashes digests heap) as Hh.
  set (lv := leafNodes digests heap) in *.
  destruct k as [|k].
  - (* one block *)
    change (2 ^ 0) with 1 in Hlen. rewrite Hl, Hlen. cbn [buildLevels Nat.ltb Nat.leb].
    destruct (fst lv) as [|n0 [|n1 rest]] eqn:E; cbn [length] in Hl; try lia.
    cbn [Nat.ltb Nat.leb fst snd]. cbn [topNode length Nat.eqb index].
    cbn [Z.ltb Z.compare Z.to_nat nth_error bind fst snd set_Hash].
    do 3 eexists. split; [reflexivity|].
    inversion Hp as [|? ? Hn0 _]; subst.
    destruct n0 as [|a h l r]; [destruct Hn0|]. destruct Hn0 as [-> ->].
    cbn in Hh. rewrite <- Hh. reflexivity.
  - destruct (buildLevels_perfect k (length (fst lv)) (fst lv) (snd lv) 0)
      as [H2 Hperf]; [lia | lia | exact Hp |].
    pose proof (buildLevels_leaf_hashes (length (fst lv)) (fst lv) (snd lv)) as Hlh.
    destruct (leafNodes_leaf_hashes digests heap) as [Hnn Hd]. fold lv in Hnn, Hd.
    destruct (Hlh Hnn) as [_ Hflat]. rewrite Hd in Hflat.
    destruct (fst (buildLevels (length (fst lv)) (fst lv) (snd lv)))
      as [|n0 [|n1 [|n2 rest]]] eqn:E; cbn [length] in H2; try lia.
    cbn [topNode length Nat.eqb index].
    cbn [Z.ltb Z.compare Z.to_nat nth_error bind fst snd set_Hash].
    do 3 eexists. split; [reflexivity|]. cbn [fst snd set_Hash].
    inversion Hperf as [|? ? Hn0 Hp']; subst. inversion Hp' as [|? ? Hn1 _]; subst.
    rewrite (GetAllLeavesHashes_perfect (S (0 + k))) by (cbn; auto).
    rewrite leaf_hashes_node, (perfect_not_nil _ _ Hn0). cbn [andb].
    cbn [flat_map] in Hflat. now rewrite app_nil_r in Hflat.
Qed.

End PowerOfTwo.

(* ================================================================== *)
(** * Further properties: rebuilding from metadata *)

Lemma set_Hash_Ptr (a : nat) (h h' : bytes) (l r : MerkleNode) :
  set_Hash (Ptr a h l r) h' = Ptr a h' l r.
Proof. reflexivity. Qed.

Lemma SetBytes_zeros (k : nat) (b : bytes) : SetBytes (repeat x00 k ++ b) = SetBytes b.
Proof.
  induction k as [|k IH]; [reflexivity|].
  cbn [repeat app]. unfold SetBytes in *. rewrite be_value_cons, IH. cbn. lia.
Qed.

Section Rebuild.
Context {CH : ChameleonHash}.

Lemma BuildMerkleTree_tree (e : Entropy) (heap : nat) (data : bytes)
    (config : MerkleConfig) (pubKey : ChameleomPubKey) (root : MerkleNode)
    (randomNum : ChameleonRandomNum) (combined : bytes) :
  BuildMerkleTree e heap (mkFile data None) config pubKey
  = Return (root, randomNum, combined) ->
  let digests := map getHash (stream_blocks (Z.to_nat (BlockSize config)) data) in
  let o := ComputeHash e combined (pubX pubKey) (pubY pubKey) in
  digests <> [] /\ combined = root_message digests /\ leaf_hashes root = digests /\
  Hash root = Bytes (out_hX o) /\
  randomNum = mkRandomNum (out_rX o) (out_rY o) (out_s o).
Proof.
  intros H digests.
  destruct (buildSkeleton_cases heap (mkFile data None) config)
    as [(Hbs & E)|[(Hbs & err' & Hf & E)|[(Hbs & Hf & Hd & E)|(Hbs & Hf & Hd & _)]]];
    try (unfold BuildMerkleTree in H; rewrite E in H; discriminate).
  cbn [unread] in Hd.
  assert (Hne : digests <> []).
  { subst digests. intro E. apply map_eq_nil in E.
    revert E. now apply stream_blocks_nonempty. }
  destruct (tree_of_leaves digests heap Hne) as (a & l & r & Ht & Hl).
  unfold BuildMerkleTree in H. rewrite buildSkeleton_unfold in H by exact Hbs.
  cbv zeta in H, Ht. fold digests in H. rewrite Ht in H.
  cbn [bind fst snd set_Hash] in H. injection H as <- <- <-.
  cbv zeta. cbn [Hash]. repeat split; auto.
Qed.

(** X6. For metadata with at least one leaf whose randomness and public
    key can be read, [RebuildMerkleTreeFromMetaData] checks the chameleon
    hash on the pairwise reduction of the leaves as they are listed: it
    returns when [VerifyMerkleRoot] accepts that message under the root
    hash of the metadata and reports [Merkle root verification failed]
    otherwise.  The tree it returns carries the root hash of the metadata
    and has the listed leaves, left to right; [GetAllLeavesHashes] gives
    them in some order. *)
Theorem RebuildMerkleTreeFromMetaData_checks_root_message :
  forall (heap : nat) (metaData : MetaData) (randomNum : ChameleonRandomNum)
         (pubKey : ChameleomPubKey),
    Leaves metaData <> [] ->
    DeserializeChameleonRandomNum (RandomNum metaData) = Return randomNum ->
    DeserializeChameleomPubKey (PublicKey metaData) = Return pubKey ->
    exists root,
      Hash root = RootHash metaData /\
      leaf_hashes root = Leaves metaData /\
      Permutation (GetAllLeavesHashes root) (Leaves metaData) /\
      RebuildMerkleTreeFromMetaData heap metaData
      = if VerifyMerkleRoot (root_message (Leaves metaData)) (RootHash metaData)
                            pubKey randomNum
        then Return (root, randomNum, pubKey)
        else Error "Merkle root verification failed".
Proof.
  intros heap metaData randomNum pubKey Hne Hr Hp.
  destruct (tree_of_leaves (Leaves metaData) heap Hne) as (a & l & r & Ht & Hl).
  exists (Ptr a (RootHash metaData) l r).
  split; [reflexivity|]. split; [apply Hl|].
  split; [rewrite GetAllLeavesHashes_permutation, Hl; reflexivity|].
  unfold RebuildMerkleTreeFromMetaData. cbv zeta in Ht |- *. rewrite Ht.
  cbn [bind fst snd]. rewrite Hr. cbn [bind]. rewrite Hp. cbn [bind].
  destruct (VerifyMerkleRoot _ _ _ _); reflexivity.
Qed.

(** X7. The round trip through metadata holds when the metadata names
    the leaves in the order of the stream and its randomness and public
    key read back as the values of the build: from the root hash of a
    tree [BuildMerkleTree] returned, with a hash that [VerifyHash]
    accepts, [RebuildMerkleTreeFromMetaData] returns a tree with the same
    root hash and the same leaves, and the randomness and key of the
    build. *)
Theorem RebuildMerkleTreeFromMetaData_of_stream_order :
  forall (e : Entropy) (heap heap' : nat) (data : bytes) (config : MerkleConfig)
         (pubKey : ChameleomPubKey) (root : MerkleNode)
         (randomNum : ChameleonRandomNum) (combined : bytes) (metaData : MetaData),
    BuildMerkleTree e heap (mkFile data None) config pubKey
    = Return (root, randomNum, combined) ->
    accepted e combined pubKey ->
    RootHash metaData = Hash root ->
    Leaves metaData = map getHash (stream_blocks (Z.to_nat (BlockSize config)) data) ->
    DeserializeChameleonRandomNum (RandomNum metaData) = Return randomNum ->
    DeserializeChameleomPubKey (PublicKey metaData) = Return pubKey ->
    exists root',
      RebuildMerkleTreeFromMetaData heap' metaData = Return (root', randomNum, pubKey) /\
      Hash root' = Hash root /\
      leaf_hashes root' = leaf_hashes root.
Proof.
  intros e heap heap' data config pubKey root randomNum combined metaData
         Hb Hacc Hroot Hleaves Hr Hp.
  destruct (BuildMerkleTree_tree _ _ _ _ _ _ _ _ Hb) as (Hne & Hc & Hl & Hh & Hrnd).
  rewrite <- Hleaves in Hne, Hc, Hl.
  destruct (tree_of_leaves (Leaves metaData) heap' Hne) as (a & l & r & Ht & Hl').
  exists (Ptr a (RootHash metaData) l r).
  split; [|split; [exact Hroot | rewrite Hl', Hl; reflexivity]].
  unfold RebuildMerkleTreeFromMetaData. cbv zeta in Ht |- *. rewrite Ht.
  cbn [bind fst snd]. rewrite Hr. cbn [bind]. rewrite Hp. cbn [bind].
  rewrite Hroot, Hh, <- Hc, Hrnd.
  rewrite (accepted_VerifyMerkleRoot e combined pubKey Hacc). reflexivity.
Qed.

(** X8. [VerifyMerkleRoot] reads the root hash as a number, so zero
    bytes in front of it change nothing: when metadata is accepted by
    [RebuildMerkleTreeFromMetaData], so is the same metadata with any
    number of zero bytes put before its root hash, and the root returned
    carries the longer hash.  Errors and panics are the same as well. *)
Theorem RebuildMerkleTreeFromMetaData_leading_zeros :
  forall (heap : nat) (metaData : MetaData) (k : nat),
    let padded := repeat x00 k ++ RootHash metaData in
    RebuildMerkleTreeFromMetaData heap
      (mkMetaData padded (RandomNum metaData) (PublicKey metaData) (Leaves metaData))
    = match RebuildMerkleTreeFromMetaData heap metaData with
      | Return (root, randomNum, pubKey) => Return (set_Hash root padded, randomNum, pubKey)
      | other => other
      end.
Proof.
  intros heap metaData k padded. unfold RebuildMerkleTreeFromMetaData.
  cbn [Leaves RandomNum PublicKey RootHash]. cbv zeta.
  destruct (topNode _ _) as [[combined sk]| | |] eqn:Et; cbn [bind fst snd]; try reflexivity.
  destruct (DeserializeChameleonRandomNum _) as [rnd| | |]; cbn [bind]; try reflexivity.
  destruct (DeserializeChameleomPubKey _) as [pk| | |]; cbn [bind]; try reflexivity.
  unfold VerifyMerkleRoot. subst padded. rewrite SetBytes_zeros.
  destruct (VerifyHash _ _ _ _ _ _ _); cbn [negb]; [|reflexivity].
  destruct sk; reflexivity.
Qed.

End Rebuild.

(* ================================================================== *)
(** * Further properties: a handle that has been read *)

(** After the reading loop nothing is left to read. *)
Lemma afterRead_drained (fuel : nat) :
  forall (data : bytes) (config : MerkleConfig),
    (0 < BlockSize config)%Z -> length data < fuel ->
    afterRead fuel (mkFile data None) config = mkFile [] None.
Proof.
  induction fuel as [|fuel IH]; intros data config Hbs Hf; [lia|].
  cbn [afterRead]. unfold File_Read. cbn [fault unread].
  destruct (Z.to_nat (BlockSize config)) as [|size] eqn:Es; [lia|].
  destruct data as [|b data]; [reflexivity|].
  set (block := firstn (S size) (b :: data)).
  assert (Hblock : length block = Nat.min (S size) (length (b :: data)))
    by apply length_firstn.
  destruct (Z.eqb_spec (Z.of_nat (length block)) 0) as [Hz|_].
  { cbn [length] in Hblock. lia. }
  destruct (Z.ltb_spec (Z.of_nat (length block)) (BlockSize config)) as [Hlt|Hge].
  - f_equal. apply skipn_all2. lia.
  - apply IH; [exact Hbs|]. rewrite length_skipn. cbn [length] in *. lia.
Qed.

Section ReadHandle.
Context {CH : ChameleonHash}.

(** X9. A handle that [BuildMerkleTree] has read is at its end, and
    [UpdateMerkleTree] on it finds no block: it ends in a run-time panic
    at [nodes[0]], whatever its other arguments.  This is the second call
    of [main], which passes the handle of its first call on without a
    seek. *)
Theorem UpdateMerkleTree_after_BuildMerkleTree_panics :
  forall (e e' : Entropy) (heap heap' : nat) (file : File) (config : MerkleConfig)
         (pubKey : ChameleomPubKey) (secKey prevRootHash chameleonHash : bytes)
         (randomNum : ChameleonRandomNum)
         (result : MerkleNode * ChameleonRandomNum * bytes),
    BuildMerkleTree e heap file config pubKey = Return result ->
    let file' := afterRead (S (length (unread file))) file config in
    unread file' = [] /\
    UpdateMerkleTree e' heap' file' config pubKey secKey prevRootHash chameleonHash
                     randomNum
    = Panic (IndexOutOfRange 0 0).
Proof.
  intros e e' heap heap' file config pubKey secKey prev ch rnd result H file'.
  destruct (buildSkeleton_cases heap file config)
    as [(Hbs & E)|[(Hbs & err' & Hf & E)|[(Hbs & Hf & Hd & E)|(Hbs & Hf & Hd & _)]]];
    try (unfold BuildMerkleTree in H; rewrite E in H; discriminate).
  destruct file as [data flt]. cbn [fault unread] in *. subst flt.
  subst file'. rewrite afterRead_drained by (try exact Hbs; lia).
  split; [reflexivity|]. unfold UpdateMerkleTree.
  destruct (buildSkeleton_cases heap' (mkFile [] None) config)
    as [(Hbs' & _)|[(_ & err' & Hf' & _)|[(_ & _ & _ & ->)|(_ & _ & Hd' & _)]]];
    [lia | discriminate | reflexivity | now contradiction Hd'].
Qed.

End ReadHandle.

(* ================================================================== *)
(** * Further properties: inclusion proofs *)

Lemma index_returns (A : Type) (l : list A) (i : Z) :
  (0 <= i < Z.of_nat (length l))%Z -> exists x, index l i = Return x.
Proof.
  intros [H0 H1]. unfold index. rewrite (proj2 (Z.ltb_ge _ _) H0).
  destruct (nth_error l (Z.to_nat i)) as [x|] eqn:E; [eauto|].
  apply nth_error_None in E. lia.
Qed.

Lemma verifyLoop_returns (merkleProof : list bytes) (fuel : nat) :
  forall (i : Z) (currentHash : bytes),
    (i <= Z.of_nat (length merkleProof) - 2)%Z ->
    exists h, verifyLoop fuel i merkleProof currentHash = Return h.
Proof.
  induction fuel as [|fuel IH]; intros i cur Hi; [cbn; eauto|].
  cbn [verifyLoop]. destruct (Z.geb_spec i 2) as [Hge|Hlt]; [|eauto].
  destruct (index_returns _ merkleProof i) as [p_i ->]; [lia|]. cbn [bind].
  destruct (Nat.eqb (length p_i) 0).
  - destruct (index_returns _ merkleProof (i + 1)) as [p_i1 ->]; [lia|]. cbn [bind].
    apply IH. lia.
  - cbn [bind]. apply IH. lia.
Qed.

Lemma route_absent (target : bytes) (node : MerkleNode) :
  ~ In target (subtree_hashes node) -> route target node = None.
Proof.
  induction node as [|a h l IHl r IHr]; intro H; [reflexivity|].
  cbn [route]. cbn [subtree_hashes] in H.
  destruct (bytes_Equal h target) eqn:E.
  - apply bytes_Equal_true in E. exfalso. apply H. left. exact E.
  - rewrite IHl, IHr; [reflexivity | |]; intro Hin; apply H; right; apply in_or_app; auto.
Qed.

Lemma route_found_hash (target : bytes) (node : MerkleNode) (p : list MerkleNode) :
  route target node = Some p -> In target (subtree_hashes node).
Proof.
  revert p. induction node as [|a h l IHl r IHr]; intros p H; [discriminate|].
  cbn [route] in H. cbn [subtree_hashes].
  destruct (bytes_Equal h target) eqn:E.
  - left. now apply bytes_Equal_true.
  - right. apply in_or_app.
    destruct (route target l) as [pl|]; [left; eapply IHl; reflexivity|].
    destruct (route target r) as [pr|]; [right; eapply IHr; reflexivity|discriminate].
Qed.

(** X10. [GenerateMerkleProof] returns the empty proof in two cases only:
    the target is the hash of the root itself, or no node of the tree
    carries it.  For any other target the proof has a pair of slots for
    every step from the root to the first node, in depth-first order,
    that carries the target. *)
Theorem GenerateMerkleProof_empty_iff :
  forall (root : MerkleNode) (target : bytes),
    (GenerateMerkleProof root target = []
     <-> Hash root = target \/ ~ In target (subtree_hashes root)) /\
    Nat.even (length (GenerateMerkleProof root target)) = true.
Proof.
  intros root target. rewrite GenerateMerkleProof_route. split.
  - split.
    + destruct (route target root) as [p|] eqn:E.
      * intro Hc. left. destruct root as [|a h l r]; [discriminate|].
        cbn [route] in E. cbn [Hash].
        destruct (bytes_Equal h target) eqn:Eh; [now apply bytes_Equal_true|].
        exfalso.
        destruct (route target l) as [pl|] eqn:El.
        { destruct (route_head _ _ _ El) as [tl ->]. injection E as <-.
          rewrite collect_step in Hc. discriminate. }
        destruct (route target r) as [pr|] eqn:Er; [|discriminate].
        destruct (route_head _ _ _ Er) as [tl ->]. injection E as <-.
        rewrite collect_step in Hc. discriminate.
      * intros _. right. intro Hin. apply route_finds in Hin.
        destruct Hin as [p Hp]. congruence.
    + intros [Hh|Habs].
      * destruct root as [|a h l r]; [reflexivity|]. cbn [Hash] in Hh. subst h.
        cbn [route]. rewrite (proj2 (bytes_Equal_true target target) eq_refl).
        reflexivity.
      * now rewrite (route_absent _ _ Habs).
  - destruct (route target root); [apply collect_even | reflexivity].
Qed.

Section ProofOutcome.
Context {CH : ChameleonHash}.

(** X11. How [VerifyMerkleProof] ends: on the empty proof it panics at
    [merkleProof[0]]; on a proof that is one empty slot it panics at
    [merkleProof[1]]; on every other proof it returns a verdict.  It
    never returns an error, so it panics on the proof that
    [GenerateMerkleProof] gives for a hash the tree does not hold. *)
Theorem VerifyMerkleProof_outcome :
  forall (rootHash targetHash : bytes) (merkleProof : list bytes)
         (pubKey : ChameleomPubKey) (randomNum : ChameleonRandomNum),
    let run := VerifyMerkleProof rootHash targetHash merkleProof pubKey randomNum in
    (merkleProof = [] -> run = Panic (IndexOutOfRange 0 0)) /\
    (merkleProof = [[]] -> run = Panic (IndexOutOfRange 1 1)) /\
    (merkleProof <> [] -> merkleProof <> [[]] -> exists verdict, run = Return verdict) /\
    (forall root, ~ In targetHash (subtree_hashes root) ->
       VerifyMerkleProof rootHash targetHash (GenerateMerkleProof root targetHash)
                         pubKey randomNum = Panic (IndexOutOfRange 0 0)).
Proof.
  intros rootHash target proof pk rnd run. subst run.
  split; [intros ->; reflexivity|]. split; [intros ->; reflexivity|].
  split.
  - intros H0 H1. unfold VerifyMerkleProof.
    destruct (verifyLoop_returns proof (length proof) (Z.of_nat (length proof) - 2) target)
      as [h ->]; [lia|]. cbn [bind].
    destruct proof as [|p0 rest]; [congruence|].
    change (index (p0 :: rest) 0) with (Return p0). cbn [bind].
    destruct (Nat.eqb (length p0) 0) eqn:E0; [|cbn [bind]; eauto].
    destruct rest as [|p1 rest].
    + exfalso. apply H1. apply Nat.eqb_eq in E0.
      apply length_zero_iff_nil in E0. now subst.
    + change (index (p0 :: p1 :: rest) 1) with (Return p1). cbn [bind].
      destruct (Nat.eqb (length p1) 0); cbn [bind]; eauto.
  - intros root Habs. rewrite GenerateMerkleProof_route, (route_absent _ _ Habs).
    reflexivity.
Qed.

End ProofOutcome.

(* ================================================================== *)
(** * Further properties: the feed *)

Section Feed.
Context {JD : JSONDecoder}.

Lemma decode_or_fatal_hex (msg : string) (b : bytes) :
  decode_or_fatal msg (hex_EncodeToString b) = Return b.
Proof. unfold decode_or_fatal. now rewrite hex_DecodeString_EncodeToString. Qed.

Lemma decodeLeaves_hex (leaves : list bytes) :
  decodeLeaves (map hex_EncodeToString leaves) = Return leaves.
Proof.
  induction leaves as [|leaf rest IH]; [reflexivity|].
  cbn [map decodeLeaves]. rewrite decode_or_fatal_hex. cbn [bind].
  rewrite IH. reflexivity.
Qed.

(** X12. [ParseTxValue] undoes the hexadecimal form: when the two JSON
    documents of a message decode and the inner one holds, under
    [rootHash], [randomNum], [publicKey] and [leaves], the lowercase
    hexadecimal text of the fields of some metadata, [ParseTxValue]
    returns that metadata, of whatever sizes. *)
Theorem ParseTxValue_of_hexadecimal :
  forall (jsonStr value : string) (metaData : MetaData),
    Unmarshal_envelope jsonStr = Some value ->
    Unmarshal_parseData value
    = Some (parseData.mk (hex_EncodeToString (RootHash metaData))
                         (hex_EncodeToString (RandomNum metaData))
                         (hex_EncodeToString (PublicKey metaData))
                         (map hex_EncodeToString (Leaves metaData))) ->
    ParseTxValue jsonStr = Return metaData.
Proof.
  intros jsonStr value metaData He Hp. unfold ParseTxValue. rewrite He, Hp.
  cbn [parseData.RootHash parseData.RandomNum parseData.PublicKey parseData.Leaves].
  rewrite !decode_or_fatal_hex. cbn [bind]. rewrite decodeLeaves_hex. cbn [bind].
  now destruct metaData.
Qed.

End Feed.

(* ================================================================== *)
(** * Further properties: runs *)

Lemma abc_nonempty : str "abc" <> [].
Proof. discriminate. Qed.

(** X4 at the stream [abc] with blocks of one byte. *)
Lemma BuildMerkleTree_leaves_and_message_witness :
  exists root randomNum combined,
    BuildMerkleTree (CH := SmallCurveHash) Run.draw 0 (mkFile (str "abc") None)
                    Run.config Run.pubKey
    = Return (root, randomNum, combined) /\
    length (GetAllLeavesHashes root) = 3 /\
    length combined = 64.
Proof.
  destruct (BuildMerkleTree_leaves_and_message (CH := SmallCurveHash)
              Run.draw 0 (str "abc") Run.config Run.pubKey abc_nonempty eq_refl)
    as (root & randomNum & combined & H1 & H2 & _ & _ & _ & H6 & _).
  exists root, randomNum, combined.
  split; [exact H1|]. split; [exact H2|]. apply H6. cbn. lia.
Defined.

(** X5 at the stream [abcd] with blocks of one byte. *)
Lemma GetAllLeavesHashes_stream_order_witness :
  exists root randomNum combined,
    BuildMerkleTree (CH := SmallCurveHash) Run.draw 0 (mkFile (str "abcd") None)
                    Run.config Run.pubKey
    = Return (root, randomNum, combined) /\
    GetAllLeavesHashes root
    = map getHash [str "a"; str "b"; str "c"; str "d"].
Proof.
  exact (GetAllLeavesHashes_stream_order (CH := SmallCurveHash)
           Run.draw 0 (str "abcd") Run.config Run.pubKey 2 eq_refl eq_refl).
Defined.

Lemma wide_leaves : Leaves Wide.metaData <> [].
Proof. discriminate. Qed.

Lemma wide_randomNum :
  DeserializeChameleonRandomNum (RandomNum Wide.metaData) = Return Run.randomNum_abc.
Proof. vm_compute. reflexivity. Qed.

Lemma wide_publicKey :
  DeserializeChameleomPubKey (PublicKey Wide.metaData) = Return Run.pubKey.
Proof. vm_compute. reflexivity. Qed.

Lemma wide_accepted :
  VerifyMerkleRoot (CH := SmallCurveHash) (root_message (Leaves Wide.metaData))
                   (RootHash Wide.metaData) Run.pubKey Run.randomNum_abc = true.
Proof. vm_compute. reflexivity. Qed.

Lemma wide_stream_order :
  Leaves Wide.metaData
  = map getHash (stream_blocks (Z.to_nat (BlockSize Run.config)) (str "abc")).
Proof. vm_compute. reflexivity. Qed.

(** X6 at metadata of the tree of [abc] with its leaves in the order of
    the stream and coordinates of 32 bytes: it is accepted. *)
Lemma RebuildMerkleTreeFromMetaData_checks_root_message_witness :
  exists root,
    RebuildMerkleTreeFromMetaData (CH := SmallCurveHash) 0 Wide.metaData
    = Return (root, Run.randomNum_abc, Run.pubKey) /\
    Hash root = RootHash Wide.metaData /\
    leaf_hashes root = Leaves Wide.metaData.
Proof.
  destruct (RebuildMerkleTreeFromMetaData_checks_root_message (CH := SmallCurveHash)
              0 Wide.metaData Run.randomNum_abc Run.pubKey
              wide_leaves wide_randomNum wide_publicKey)
    as (root & H1 & H2 & _ & H4).
  exists root. rewrite wide_accepted in H4. auto.
Defined.

(** X7 at the same metadata, against the build of [abc]. *)
Lemma RebuildMerkleTreeFromMetaData_of_stream_order_witness :
  exists root',
    RebuildMerkleTreeFromMetaData (CH := SmallCurveHash) 7 Wide.metaData
    = Return (root', Run.randomNum_abc, Run.pubKey) /\
    Hash root' = Hash Run.root_abc /\
    leaf_hashes root' = leaf_hashes Run.root_abc.
Proof.
  exact (RebuildMerkleTreeFromMetaData_of_stream_order (CH := SmallCurveHash)
           Run.draw 0 7 (str "abc") Run.config Run.pubKey
           Run.root_abc Run.randomNum_abc Run.combined_abc Wide.metaData
           build_abc_returns abc_accepted eq_refl wide_stream_order
           wide_randomNum wide_publicKey).
Defined.

(** X9 at the handle of [abc] after its build, with the arguments of the
    update in [main]. *)
Lemma UpdateMerkleTree_after_BuildMerkleTree_panics_witness :
  unread (afterRead (S (length (unread Run.file_abc))) Run.file_abc Run.config) = [] /\
  UpdateMerkleTree (CH := SmallCurveHash) Run.draw 10
    (afterRead (S (length (unread Run.file_abc))) Run.file_abc Run.config)
    Run.config Run.pubKey Run.secKey (Hash Run.root_abc) Run.combined_abc
    Run.randomNum_abc
  = Panic (IndexOutOfRange 0 0).
Proof.
  exact (UpdateMerkleTree_after_BuildMerkleTree_panics (CH := SmallCurveHash)
           Run.draw Run.draw 0 10 Run.file_abc Run.config Run.pubKey Run.secKey
           (Hash Run.root_abc) Run.combined_abc Run.randomNum_abc
           (Run.root_abc, Run.randomNum_abc, Run.combined_abc) build_abc_returns).
Defined.

Lemma feed_envelope :
  Unmarshal_envelope (JSONDecoder := MiniJSONDecoder)
    (MiniJSON.feed_message (hex_rendering Run.metaData))
  = Some (hex_rendering Run.metaData).
Proof. vm_compute. reflexivity. Qed.

Lemma feed_parseData :
  Unmarshal_parseData (JSONDecoder := MiniJSONDecoder) (hex_rendering Run.metaData)
  = Some (parseData.mk (hex_EncodeToString (RootHash Run.metaData))
                       (hex_EncodeToString (RandomNum Run.metaData))
                       (hex_EncodeToString (PublicKey Run.metaData))
                       (map hex_EncodeToString (Leaves Run.metaData))).
Proof. vm_compute. reflexivity. Qed.

(** X12 at a message of the feed that carries metadata of the usual
    sizes in hexadecimal. *)
Lemma ParseTxValue_of_hexadecimal_witness :
  ParseTxValue (JD := MiniJSONDecoder)
    (MiniJSON.feed_message (hex_rendering Run.metaData))
  = Return Run.metaData.
Proof.
  exact (ParseTxValue_of_hexadecimal (JD := MiniJSONDecoder)
           (MiniJSON.feed_message (hex_rendering Run.metaData))
           (hex_rendering Run.metaData) Run.metaData feed_envelope feed_parseData).
Defined.
